(** * Verification of the Vite CSP configuration patcher

    The development embeds the text-patching logic of the command-line
    script [add-csp.js] and of the VS Code extension [extension.ts]:
    ECMAScript strings as sequences of UTF-16 code units, the backtracking
    regular-expression matcher the two programs rely on, the three
    patterns they use, the policy templates, and the file-system effects
    of every command. *)

From Stdlib Require Import NArith List String Ascii Lia Bool DecimalString DecimalN.
From stdpp Require Import gmap strings list.

Local Open Scope N_scope.

(** ** ECMAScript strings *)

Module JS.

(** A string value is a finite sequence of 16-bit code units. *)
Definition jschar := N.
Definition jsstring := list jschar.

(** Source-text literal made of ASCII characters. *)
Definition js (s : string) : jsstring := map N_of_ascii (list_ascii_of_string s).
Arguments js s%_string.

(** The double-quote character, U+0022. *)
Definition dq : jsstring := [34].

(** [lines.join('\n')] for the lines of a template literal. *)
Fixpoint joinLines (l : list jsstring) : jsstring :=
  match l with
  | [] => []
  | [x] => x
  | x :: rest => x ++ 10 :: joinLines rest
  end.

(** LineTerminator :: <LF> <CR> <LS> <PS> *)
Definition isLineTerminator (c : jschar) : bool :=
  (c =? 10) || (c =? 13) || (c =? 0x2028) || (c =? 0x2029).

(** WhiteSpace :: <TAB> <VT> <FF> <ZWNBSP> <USP>, where USP is any code
    point of general category Zs. *)
Definition isWhiteSpace (c : jschar) : bool :=
  (c =? 9) || (c =? 11) || (c =? 12) || (c =? 0xFEFF) ||
  (c =? 32) || (c =? 160) || (c =? 0x1680) ||
  ((0x2000 <=? c) && (c <=? 0x200A)) ||
  (c =? 0x202F) || (c =? 0x205F) || (c =? 0x3000).

(** The set shared by the class escape [\s] and by [String.prototype.trim]. *)
Definition isSpace (c : jschar) : bool := isWhiteSpace c || isLineTerminator c.

Definition isDigit (c : jschar) : bool := (48 <=? c) && (c <=? 57).

Fixpoint startsWith (s search : jsstring) {struct search} : bool :=
  match search, s with
  | [], _ => true
  | _ :: _, [] => false
  | a :: search', b :: s' => (a =? b) && startsWith s' search'
  end.

(** [String.prototype.includes]: a plain substring test. *)
Fixpoint includes (s search : jsstring) : bool :=
  startsWith s search ||
  match s with
  | [] => false
  | _ :: s' => includes s' search
  end.

(** Number of positions of [s] at which [search] occurs. *)
Fixpoint occurrences (search s : jsstring) : nat :=
  ((if startsWith s search then 1 else 0) +
   match s with
   | [] => 0
   | _ :: s' => occurrences search s'
   end)%nat.

(** [s.slice(0, n)] and [s.slice(n)] for [0 <= n]. *)
Definition slice_to (s : jsstring) (n : nat) : jsstring := take n s.
Definition slice_from (s : jsstring) (n : nat) : jsstring := drop n s.

Fixpoint trimStart (s : jsstring) : jsstring :=
  match s with
  | [] => []
  | c :: s' => if isSpace c then trimStart s' else s
  end.

Fixpoint trimEnd (s : jsstring) : jsstring :=
  match s with
  | [] => []
  | c :: s' =>
      match trimEnd s' with
      | [] => if isSpace c then [] else [c]
      | t => c :: t
      end
  end.

Definition trim (s : jsstring) : jsstring := trimEnd (trimStart s).

End JS.
Export JS.

(** ** Regular expressions

    The matcher follows the continuation-passing semantics of the
    ECMAScript specification (no [u], [i] or [y] flag is used by the
    programs).  A match state records the end index, the code unit just
    before it (for [^]), the rest of the input and the captures. *)

Module RegExp.

Inductive regex : Type :=
| Empty
| CharSet (A : jschar -> bool)
| Seq (r1 r2 : regex)
| Quant (r : regex) (min : nat) (max : option nat) (greedy : bool) (parens : list nat)
| Group (n : nat) (r : regex)
| LineStart (multiline : bool).

Record MatchState : Type := MkState {
  endIndex : nat;
  lastChar : option jschar;
  remaining : jsstring;
  captures : gmap nat (nat * nat)
}.

Definition Continuation := MatchState -> option MatchState.
Definition Matcher := MatchState -> Continuation -> option MatchState.

Definition CharacterSetMatcher (A : jschar -> bool) : Matcher := fun x c =>
  match remaining x with
  | [] => None
  | ch :: rest =>
      if A ch then c (MkState (S (endIndex x)) (Some ch) rest (captures x)) else None
  end.

Definition resetCaptures (parens : list nat) (x : MatchState) : MatchState :=
  MkState (endIndex x) (lastChar x) (remaining x)
          (foldr (fun n caps => delete n caps) (captures x) parens).

Definition setCapture (n : nat) (x y : MatchState) : MatchState :=
  MkState (endIndex y) (lastChar y) (remaining y)
          (<[n := (endIndex x, endIndex y)]> (captures y)).

(** RepeatMatcher.  Every iteration after the first [min] ones has to
    consume input, so [min + length (remaining x)] nested iterations are
    the most that can occur; [fuel] is that bound plus one. *)
Fixpoint RepeatMatcher (m : Matcher) (fuel : nat) (min : nat) (max : option nat)
    (greedy : bool) (parens : list nat) (x : MatchState) (c : Continuation)
    : option MatchState :=
  match fuel with
  | O => None
  | S fuel' =>
      match max with
      | Some O => c x
      | _ =>
          let d : Continuation := fun y =>
            if (Nat.eqb min 0) && (Nat.eqb (endIndex y) (endIndex x)) then None
            else RepeatMatcher m fuel' (Nat.pred min) (Nat.pred <$> max) greedy parens y c in
          let xr := resetCaptures parens x in
          if negb (Nat.eqb min 0) then m xr d
          else if negb greedy then
            match c x with
            | Some z => Some z
            | None => m xr d
            end
          else
            match m xr d with
            | Some z => Some z
            | None => c x
            end
      end
  end.

Fixpoint CompileSubpattern (r : regex) : Matcher :=
  match r with
  | Empty => fun x c => c x
  | CharSet A => CharacterSetMatcher A
  | Seq r1 r2 => fun x c => CompileSubpattern r1 x (fun y => CompileSubpattern r2 y c)
  | Quant r' min max greedy parens => fun x c =>
      RepeatMatcher (CompileSubpattern r') (S (min + length (remaining x)))
                    min max greedy parens x c
  | Group n r' => fun x c => CompileSubpattern r' x (fun y => c (setCapture n x y))
  | LineStart multiline => fun x c =>
      match lastChar x with
      | None => c x
      | Some ch => if multiline && isLineTerminator ch then c x else None
      end
  end.

(** RegExpBuiltinExec for a pattern without the [g] and [y] flags: the
    matcher is tried at index 0, 1, ... up to the length of the input. *)
Fixpoint scan (r : regex) (index : nat) (last : option jschar) (rest : jsstring)
    : option (nat * MatchState) :=
  match CompileSubpattern r (MkState index last rest ∅) Some with
  | Some y => Some (index, y)
  | None =>
      match rest with
      | [] => None
      | ch :: rest' => scan r (S index) (Some ch) rest'
      end
  end.

(** The result array of a successful match: [index], [match[0]] and the
    captures [match[1]], ..., [match[nGroups]]. *)
Record MatchResult : Type := MkResult {
  index : nat;
  matched : jsstring;
  groups : list (option jsstring)
}.

Definition substring (s : jsstring) (from to : nat) : jsstring :=
  take (to - from) (drop from s).

Definition exec (r : regex) (nGroups : nat) (s : jsstring) : option MatchResult :=
  match scan r 0 None s with
  | None => None
  | Some (i, y) =>
      Some (MkResult i (substring s i (endIndex y))
              (map (fun n => (fun se => substring s (fst se) (snd se)) <$> captures y !! n)
                   (seq 1 nGroups)))
  end.

Definition test (r : regex) (s : jsstring) : bool :=
  match scan r 0 None s with
  | None => false
  | Some _ => true
  end.

(** GetSubstitution without named captures. *)
Section GetSubstitution.
Variables (matched str : jsstring) (position : nat) (caps : list (option jsstring)).

Definition digitValue (c : jschar) : nat := N.to_nat (c - 48).

Definition captureRef (idx : nat) : option jsstring :=
  if (Nat.leb 1 idx) && (Nat.leb idx (length caps))
  then Some (default [] (mjoin (caps !! Nat.pred idx)))
  else None.

Fixpoint GetSubstitution (template : jsstring) : jsstring :=
  match template with
  | [] => []
  | c :: t =>
      if negb (c =? 36) then c :: GetSubstitution t
      else
        match t with
        | [] => [c]
        | d :: t1 =>
            if d =? 36 then 36 :: GetSubstitution t1
            else if d =? 96 then take position str ++ GetSubstitution t1
            else if d =? 38 then matched ++ GetSubstitution t1
            else if d =? 39 then drop (position + length matched) str ++ GetSubstitution t1
            else if isDigit d then
              let one :=
                match captureRef (digitValue d) with
                | Some cap => cap ++ GetSubstitution t1
                | None => c :: d :: GetSubstitution t1
                end in
              match t1 with
              | [] => one
              | d2 :: t2 =>
                  if isDigit d2 then
                    let idx := (10 * digitValue d + digitValue d2)%nat in
                    if Nat.leb idx (length caps) then
                      match captureRef idx with
                      | Some cap => cap ++ GetSubstitution t2
                      | None => c :: d :: d2 :: GetSubstitution t2
                      end
                    else one
                  else one
              end
            else c :: GetSubstitution t
        end
  end.
End GetSubstitution.

(** [String.prototype.replace] with a non-global pattern and a string
    replacement value: only the first match is replaced. *)
Definition replace (r : regex) (nGroups : nat) (s replaceValue : jsstring) : jsstring :=
  match exec r nGroups s with
  | None => s
  | Some res =>
      take (index res) s
      ++ GetSubstitution (matched res) s (index res) (groups res) replaceValue
      ++ drop (index res + length (matched res)) s
  end.

(** Pattern constructors. *)
Definition sequence (rs : list regex) : regex := foldr Seq Empty rs.
Definition chr (c : jschar) : regex := CharSet (N.eqb c).
Definition literal (s : jsstring) : regex := sequence (map chr s).
Definition star (A : jschar -> bool) : regex := Quant (CharSet A) 0 None true [].
Definition plus (A : jschar -> bool) : regex := Quant (CharSet A) 1 None true [].

End RegExp.
Export RegExp.

(** ** The three patterns and the text operations of the patcher *)

Module Patcher.

Definition anyChar : jschar -> bool := fun _ => true.
Definition isQuote (c : jschar) : bool := (c =? 39) || (c =? 34).
Definition notQuote (c : jschar) : bool := negb (isQuote c).
Definition notCloseBracket (c : jschar) : bool := negb (c =? 93).

(** The import pattern, with flag [m]: a line start, then one or more
    repetitions (greedy) of capture group 1, which reads [import], a lazy
    run of arbitrary code units, [from], one or more white-space code
    units, a quote character, one or more non-quote code units, a quote
    character, an optional semicolon and a run of white space. *)
Definition importRegex : regex :=
  sequence [
    LineStart true;
    Quant (Group 1 (sequence [
             literal (js "import");
             Quant (CharSet anyChar) 0 None false [];
             literal (js "from");
             plus isSpace;
             CharSet isQuote;
             plus notQuote;
             CharSet isQuote;
             Quant (chr 59) 0 (Some 1%nat) true [];
             star isSpace ]))
          1 None true [1%nat] ].

(** The call-shape pattern: [export], white space, [default], white
    space, [defineConfig], optional white space, an opening parenthesis,
    optional white space and an opening brace. *)
Definition configRegex : regex :=
  sequence [
    literal (js "export"); plus isSpace;
    literal (js "default"); plus isSpace;
    literal (js "defineConfig"); star isSpace;
    chr 40; star isSpace; chr 123 ].

(** The syntax characters of the pattern grammar, and the texts free of
    them: in a pattern such a text is a sequence of pattern characters,
    each of which matches itself. *)
Definition isSyntaxCharacter (c : jschar) : bool :=
  existsb (N.eqb c) (js "^$\.*+?()[]{}|").

Definition patternCharacters (s : jsstring) : bool :=
  forallb (fun c => negb (isSyntaxCharacter c)) s.

(** The directive pattern built by [new RegExp] with flag [s] for a
    directive made of pattern characters: the directive between single
    quotes, a colon, optional white space, an opening bracket, capture
    group 1 holding the longest run of code units other than the closing
    bracket, and the closing bracket.  The directive is spliced into the
    pattern text unescaped, so this is the pattern only when
    [patternCharacters directive] holds, as it does for every name of the
    menus; the commands that can be handed another text go through
    [matchDirective] below, which leaves the pattern to the environment
    then. *)
Definition directiveRegex (directive : jsstring) : regex :=
  sequence [
    chr 39; literal directive; chr 39; chr 58;
    star isSpace;
    chr 91;
    Group 1 (star notCloseBracket);
    chr 93 ].

(** The directive names of the policy object. *)
Inductive Directive : Type :=
| default_src | script_src | style_src | font_src | img_src | connect_src | worker_src.

Definition directiveName (d : Directive) : jsstring :=
  match d with
  | default_src => js "default-src"
  | script_src => js "script-src"
  | style_src => js "style-src"
  | font_src => js "font-src"
  | img_src => js "img-src"
  | connect_src => js "connect-src"
  | worker_src => js "worker-src"
  end.

(** The marker substring looked for by [content.includes('CSP_POLICY')]. *)
Definition MARKER : jsstring := js "CSP_POLICY".

Definition isAlreadyPatched (content : jsstring) : bool := includes content MARKER.

(** Insertion of the policy template: after the text matched by
    [importRegex] when it matches, at the very top otherwise.  The insert
    point is [match[0].length]. *)
Definition insertPolicyBlock (template content : jsstring) : jsstring :=
  match exec importRegex 1 content with
  | Some m =>
      let insertPoint := length (matched m) in
      slice_to content insertPoint ++ [10] ++ template ++ [10] ++ slice_from content insertPoint
  | None => template ++ [10] ++ content
  end.

(** The replacement value [`export default defineConfig({${server}`]. *)
Definition configReplacement (server : jsstring) : jsstring :=
  js "export default defineConfig({" ++ server.

Definition insertServerHeaders (server newContent : jsstring) : jsstring :=
  if test configRegex newContent
  then replace configRegex 0 newContent (configReplacement server)
  else newContent.

(** [match[1]] of a result for a pattern with one group. *)
Definition capture1 (m : MatchResult) : jsstring := default [] (mjoin (groups m !! 0%nat)).

Definition quoted (source : jsstring) : jsstring := [39] ++ source ++ [39].

(** [originalArray.trimEnd() + `,\n    ${newSource},`] *)
Definition updatedArray (originalArray newSource : jsstring) : jsstring :=
  trimEnd originalArray ++ js "," ++ [10] ++ js "    " ++ newSource ++ js ",".

(** [content.replace(directiveRegex, `'${directive}': [${updatedArray}]`)] *)
Definition spliceSource (content directive originalArray newSource : jsstring) : jsstring :=
  replace (directiveRegex directive) 1 content
    (js "'" ++ directive ++ js "': [" ++ updatedArray originalArray newSource ++ js "]").

(** The array-append step shared by the source-adding commands, for a
    directive of pattern characters; [None] stands for the branch taken
    when the pattern does not match. *)
Definition appendSource (content directive source : jsstring) : option jsstring :=
  match exec (directiveRegex directive) 1 content with
  | Some m => Some (spliceSource content directive (capture1 m) (quoted source))
  | None => None
  end.

(** The text between the brackets of the directive's array, as located by
    the pattern (for a directive of pattern characters). *)
Definition directiveArray (content directive : jsstring) : option jsstring :=
  capture1 <$> exec (directiveRegex directive) 1 content.

(** Declarative reading of the directive pattern: the key in quotes, a
    colon, white space, and a bracketed body without closing bracket. *)
Definition arrayLiteral (directive ws body : jsstring) : jsstring :=
  [39] ++ directive ++ [39; 58] ++ ws ++ [91] ++ body ++ [93].

Definition arrayAt (content directive pre ws body post : jsstring) : Prop :=
  content = pre ++ arrayLiteral directive ws body ++ post /\
  forallb isSpace ws = true /\ forallb notCloseBracket body = true.

Definition containsDirectiveArray (content directive : jsstring) : Prop :=
  exists pre ws body post, arrayAt content directive pre ws body post.

(** The first array literal of the directive in the text. *)
Definition firstArrayAt (content directive pre ws body post : jsstring) : Prop :=
  arrayAt content directive pre ws body post /\
  forall pre' ws' body' post',
    arrayAt content directive pre' ws' body' post' -> (length pre <= length pre')%nat.

(** Texts free of the dollar sign, which [String.prototype.replace] reads
    as the start of a substitution pattern in a replacement value. *)
Definition noDollar (s : jsstring) : bool := forallb (fun c => negb (c =? 36)) s.

(** Directive names without a single quote and not starting with a colon. *)
Definition plainName (d : jsstring) : bool :=
  forallb (fun c => negb (c =? 39)) d && negb (startsWith d [58]).

(** Declarative reading of the call-shape pattern. *)
Definition containsDefineConfigCall (content : jsstring) : Prop :=
  exists pre ws1 ws2 ws3 ws4 post,
    content = pre ++ js "export" ++ ws1 ++ js "default" ++ ws2 ++ js "defineConfig"
                  ++ ws3 ++ [40] ++ ws4 ++ [123] ++ post /\
    ws1 <> [] /\ ws2 <> [] /\
    forallb isSpace ws1 = true /\ forallb isSpace ws2 = true /\
    forallb isSpace ws3 = true /\ forallb isSpace ws4 = true.

End Patcher.
Export Patcher.

(** ** Declarative semantics of patterns

    [Matches r x y]: the pattern [r] can take the match state [x] to the
    state [y].  The relation ignores the order in which the backtracking
    matcher tries the alternatives. *)

Module RegExpSpec.

Inductive Repeats (R : MatchState -> MatchState -> Prop) (parens : list nat)
    : nat -> option nat -> MatchState -> MatchState -> Prop :=
| Repeats_stop min max x :
    min = 0%nat \/ max = Some 0%nat -> Repeats R parens min max x x
| Repeats_step min max x y z :
    max <> Some 0%nat ->
    R (resetCaptures parens x) y ->
    (min = 0%nat -> endIndex y <> endIndex x) ->
    Repeats R parens (Nat.pred min) (Nat.pred <$> max) y z ->
    Repeats R parens min max x z.

Definition atLineStart (multiline : bool) (x : MatchState) : bool :=
  match lastChar x with
  | None => true
  | Some ch => multiline && isLineTerminator ch
  end.

Fixpoint Matches (r : regex) : MatchState -> MatchState -> Prop :=
  match r with
  | Empty => fun x y => y = x
  | CharSet A => fun x y =>
      exists ch rest, remaining x = ch :: rest /\ A ch = true /\
        y = MkState (S (endIndex x)) (Some ch) rest (captures x)
  | Seq r1 r2 => fun x z => exists y, Matches r1 x y /\ Matches r2 y z
  | Quant r' min max _ parens => Repeats (Matches r') parens min max
  | Group n r' => fun x z => exists y, Matches r' x y /\ z = setCapture n x y
  | LineStart multiline => fun x y => y = x /\ atLineStart multiline x = true
  end.

End RegExpSpec.
Export RegExpSpec.

(** ** Files, clock and operator-visible output *)

Module Node.

(** Texts shown to the operator, one constructor per message of the two
    programs; the payloads are the interpolated values. *)
Inductive Message : Type :=
| Banner
| NoConfigFileFound
| FoundConfig (path : string)
| ConfigurationExists
| BackupCreated (backup : string)
| CouldNotAddHeaders
| Printed (text : jsstring)
| ConfigurationAdded
| AddSourceBanner
| PolicyNotFound
| DirectiveMenu
| InvalidChoiceGiven
| NoSourceProvided
| SourceAddedTo (newSource directive : jsstring)
| CouldNotFind (directive : jsstring)
| SourceExists (newSource directive : jsstring)
| InvalidUrlInError.

Inductive Event : Type :=
| Copied (src dst : string)              (* fs.copyFileSync succeeded *)
| Written (path : string)                (* fs.writeFileSync succeeded *)
| Console (m : Message)                  (* console.log / console.error *)
| Notified (m : Message)                 (* vscode.window.show...Message *)
| Opened (path : string).                (* showTextDocument *)

Inductive Exception : Type :=
| ReadFailed (path : string)
| CopyFailed (src dst : string)
| WriteFailed (path : string)
| InvalidUrlError (input : jsstring)
| NoFirstFolder                          (* TypeError: workspaceFolders[0] is undefined *)
| PatternFailed (directive : jsstring).  (* new RegExp or the use of match[1] threw *)

(** How an invocation ends. *)
Inductive Outcome : Type :=
| NoConfigFound
| AlreadyPatched
| Patched
| PolicyMissing
| InvalidChoice
| EmptySourceInput
| Cancelled
| DirectiveNotFound
| SourceAdded
| SourceAlreadyPresent
| InvalidURL
| Threw (e : Exception).

Record Machine : Type := MkMachine {
  disk : gmap string jsstring;
  trace : list Event
}.

(** What the engine makes of a directive pattern outside the modelled
    fragment: the constructor or the use of [match[1]] throws, the pattern
    does not match the content, or it matches with [match[1]] equal to
    [originalArray] and [String.prototype.replace] gives [rewritten]. *)
Inductive PatternResult : Type :=
| PatternThrows
| PatternNoMatch
| PatternMatch (originalArray rewritten : jsstring).

(** What an invocation reads from its environment: [Date.now()], the
    paths the file system refuses to create or overwrite, the text that
    a member inherited from [Object.prototype] turns into inside a
    template literal, and, for a directive with syntax characters, the
    result of building the directive pattern from it, matching the
    content and replacing the match (arguments: directive, content, quoted
    new source). *)
Record Env : Type := MkEnv {
  now : N;
  writeDenied : string -> bool;
  memberText : jsstring -> jsstring;
  foreignPattern : jsstring -> jsstring -> jsstring -> PatternResult
}.

(** Computations that may stop early with an outcome ([process.exit],
    [return] from the command, or an exception). *)
Definition IO (A : Type) : Type := Machine -> (A + Outcome) * Machine.

Definition ret {A} (a : A) : IO A := fun m => (inl a, m).

Definition bind {A B} (p : IO A) (k : A -> IO B) : IO B := fun m =>
  match p m with
  | (inl a, m') => k a m'
  | (inr o, m') => (inr o, m')
  end.

Notation "'do' x <- p ; k" := (bind p (fun x => k))
  (at level 10, x name, p at level 100, k at level 200).
Notation "p ;; k" := (bind p (fun _ => k))
  (at level 100, k at level 200, right associativity).

Definition exit {A} (o : Outcome) : IO A := fun m => (inr o, m).
Definition throw {A} (e : Exception) : IO A := exit (Threw e).

Definition emit (e : Event) : IO unit := fun m =>
  (inl tt, MkMachine (disk m) (trace m ++ [e])).

Definition existsSync (path : string) : IO bool := fun m =>
  (inl (bool_decide (is_Some (disk m !! path))), m).

Definition readFileSync (path : string) : IO jsstring := fun m =>
  match disk m !! path with
  | Some content => (inl content, m)
  | None => (inr (Threw (ReadFailed path)), m)
  end.

Definition copyFileSync (env : Env) (src dst : string) : IO unit := fun m =>
  match disk m !! src with
  | Some content =>
      if writeDenied env dst then (inr (Threw (CopyFailed src dst)), m)
      else (inl tt, MkMachine (<[dst := content]> (disk m)) (trace m ++ [Copied src dst]))
  | None => (inr (Threw (CopyFailed src dst)), m)
  end.

(** Encoding a string as UTF-8 and decoding it again: a surrogate code
    unit that is not part of a pair becomes U+FFFD, every other code unit
    is kept.  [previousHigh] tells whether the code unit before the text
    is a high surrogate. *)
Definition isHighSurrogate (c : jschar) : bool := (55296 <=? c) && (c <=? 56319).
Definition isLowSurrogate (c : jschar) : bool := (56320 <=? c) && (c <=? 57343).

Definition nextIsLow (s : jsstring) : bool :=
  match s with
  | c :: _ => isLowSurrogate c
  | [] => false
  end.

Fixpoint wellFormedFrom (previousHigh : bool) (s : jsstring) : jsstring :=
  match s with
  | [] => []
  | c :: rest =>
      (if isLowSurrogate c then (if previousHigh then c else 65533)
       else if isHighSurrogate c then (if nextIsLow rest then c else 65533)
       else c) :: wellFormedFrom (isHighSurrogate c) rest
  end.

Definition toWellFormed (s : jsstring) : jsstring := wellFormedFrom false s.

(** [fs.writeFileSync(path, data, 'utf8')].  The disk holds each file as
    the text [fs.readFileSync(path, 'utf8')] gives for it, so what is
    stored is the text after encoding and decoding. *)
Definition writeFileSync (env : Env) (path : string) (data : jsstring) : IO unit := fun m =>
  if writeDenied env path then (inr (Threw (WriteFailed path)), m)
  else (inl tt, MkMachine (<[path := toWellFormed data]> (disk m)) (trace m ++ [Written path])).

(** [try { p } catch (error) { handler }]: only exceptions are caught. *)
Definition tryCatch {A} (p handler : IO A) : IO A := fun m =>
  match p m with
  | (inr (Threw _), m') => handler m'
  | r => r
  end.

(** An invocation started on a disk, with an empty trace. *)
Definition run (p : IO Outcome) (d : gmap string jsstring) : Outcome * Machine :=
  match p (MkMachine d []) with
  | (inl o, m) => (o, m)
  | (inr o, m) => (o, m)
  end.

(** [`${filePath}.backup.${Date.now()}`] *)
Definition backupName (filePath : string) (t : N) : string :=
  (filePath +:+ ".backup." +:+ NilEmpty.string_of_uint (N.to_uint t))%string.

(** The file-system events of a trace. *)
Definition isFileEvent (e : Event) : bool :=
  match e with
  | Copied _ _ | Written _ => true
  | _ => false
  end.

Definition fileEvents (t : list Event) : list Event := List.filter isFileEvent t.

(** Building the directive pattern, matching the content and rewriting
    the first match with the new source: the modelled pattern for a
    directive of pattern characters, the environment's answer for any
    other directive. *)
Definition matchDirective (env : Env) (content directive newSource : jsstring)
    : PatternResult :=
  if patternCharacters directive then
    match exec (directiveRegex directive) 1 content with
    | Some m =>
        PatternMatch (capture1 m) (spliceSource content directive (capture1 m) newSource)
    | None => PatternNoMatch
    end
  else foreignPattern env directive content newSource.

End Node.
Export Node.

(** ** The command-line script *)

Module Cli.

Definition CSP_POLICY_CODE : jsstring := joinLines [
  [];
  js "// ============================================================================";
  js "// CONTENT SECURITY POLICY (CSP) CONFIGURATION";
  js "// ============================================================================";
  js "//";
  js "// Debugging CSP errors:";
  js "// 1. Open Chrome DevTools " ++ [8594] ++ js " Console";
  js "// 2. Look for " ++ dq ++ js "Refused to load" ++ dq ++ js " or " ++ dq ++ js "violates Content Security Policy" ++ dq;
  js "// 3. The error tells you which directive blocked the resource";
  js "// 4. Add the source to the appropriate array below";
  js "//";
  js "// ============================================================================";
  [];
  js "const CSP_POLICY = {";
  js "  // default-src: Fallback for any directive not explicitly set";
  js "  // 'self' = Same origin, localhost:* = Any local port, ws: = WebSocket for HMR";
  js "  'default-src': [" ++ dq ++ js "'self'" ++ dq ++ js ", 'http://localhost:*', 'ws://localhost:*'],";
  [];
  js "  // script-src: Controls which scripts can execute";
  js "  // Add new CDNs here when you get script-related CSP errors";
  js "  'script-src': [";
  js "    " ++ dq ++ js "'self'" ++ dq ++ js ",";
  js "    " ++ dq ++ js "'unsafe-inline'" ++ dq ++ js ",    // Required for inline scripts, Tailwind JIT";
  js "    " ++ dq ++ js "'unsafe-eval'" ++ dq ++ js ",      // Required for some bundlers and libraries";
  js "    'http://localhost:*', // Vite dev server";
  js "    'https://cdn.tailwindcss.com',  // Tailwind CSS CDN";
  js "    'https://cdn.jsdelivr.net',     // Popular CDN for npm packages";
  js "  ],";
  [];
  js "  // style-src: Controls which stylesheets can load";
  js "  'style-src': [";
  js "    " ++ dq ++ js "'self'" ++ dq ++ js ",";
  js "    " ++ dq ++ js "'unsafe-inline'" ++ dq ++ js ",               // Required for Tailwind, inline styles";
  js "    'https://fonts.googleapis.com',  // Google Fonts CSS";
  js "  ],";
  [];
  js "  // font-src: Controls which fonts can load";
  js "  'font-src': [";
  js "    " ++ dq ++ js "'self'" ++ dq ++ js ",";
  js "    'https://fonts.gstatic.com',  // Google Fonts files";
  js "    'data:',                       // Inline base64 fonts";
  js "  ],";
  [];
  js "  // img-src: Controls which images can load";
  js "  'img-src': [";
  js "    " ++ dq ++ js "'self'" ++ dq ++ js ",";
  js "    'data:',              // Base64 images (favicon, inline SVGs)";
  js "    'blob:',              // Generated images, canvas.toBlob()";
  js "    'https:',             // Any external HTTPS images";
  js "    'http://localhost:*', // Local dev server images";
  js "  ],";
  [];
  js "  // connect-src: Controls fetch(), XHR, WebSocket connections";
  js "  // THIS IS WHERE YOU ADD API ENDPOINTS!";
  js "  'connect-src': [";
  js "    " ++ dq ++ js "'self'" ++ dq ++ js ",";
  js "    'http://localhost:*',                        // Local API servers";
  js "    'ws://localhost:*',                          // Vite HMR WebSocket";
  js "  ],";
  [];
  js "  // worker-src: Controls Web Workers and Service Workers";
  js "  'worker-src': [";
  js "    " ++ dq ++ js "'self'" ++ dq ++ js ",";
  js "    'blob:',  // Required for libraries like gif.js";
  js "  ],";
  js "};";
  [];
  js "// Converts the CSP_POLICY object into a valid CSP header string";
  js "const buildCSPString = (policy: Record<string, string[]>): string =>";
  js "  Object.entries(policy)";
  js "    .map(([directive, sources]) => `${directive} ${sources.join(' ')}`)";
  js "    .join('; ');";
  []
].

Definition VITE_CONFIG_SERVER : jsstring := joinLines [
  [];
  js "  server: {";
  js "    headers: {";
  js "      'Content-Security-Policy': buildCSPString(CSP_POLICY),";
  js "    },";
  js "  },"
].

Definition possibleFiles : list string :=
  ["vite.config.ts"; "vite.config.js"; "vite.config.mjs"]%string.

Fixpoint firstExisting (candidates : list string) : IO (option string) :=
  match candidates with
  | [] => ret None
  | file :: rest =>
      do found <- existsSync file;
      if found then ret (Some file) else firstExisting rest
  end.

Definition findViteConfig : IO (option string) := firstExisting possibleFiles.

(** The file [findViteConfig] returns on a given disk. *)
Definition locate (d : gmap string jsstring) : option string :=
  List.find (fun file => bool_decide (is_Some (d !! file))) possibleFiles.

Definition backupFile (env : Env) (filePath : string) : IO string :=
  let backup := backupName filePath (now env) in
  copyFileSync env filePath backup;;
  emit (Console (BackupCreated backup));;
  ret backup.

Definition addCSPConfiguration (env : Env) : IO Outcome :=
  emit (Console Banner);;
  do viteConfigPath <- findViteConfig;
  match viteConfigPath with
  | None => emit (Console NoConfigFileFound);; exit NoConfigFound
  | Some viteConfigPath =>
      emit (Console (FoundConfig viteConfigPath));;
      do content <- readFileSync viteConfigPath;
      if includes content (js "CSP_POLICY") then
        emit (Console ConfigurationExists);; exit AlreadyPatched
      else
        backupFile env viteConfigPath;;
        let newContent := insertPolicyBlock CSP_POLICY_CODE content in
        do newContent <-
          (if test configRegex newContent then
             ret (replace configRegex 0 newContent (configReplacement VITE_CONFIG_SERVER))
           else
             emit (Console CouldNotAddHeaders);;
             emit (Console (Printed VITE_CONFIG_SERVER));;
             ret newContent);
        writeFileSync env viteConfigPath newContent;;
        emit (Console ConfigurationAdded);;
        ret Patched
  end.

(** The entries of the object [directiveMap]. *)
Definition directiveMap (choice : jsstring) : option Directive :=
  if bool_decide (choice = js "1") then Some script_src
  else if bool_decide (choice = js "2") then Some style_src
  else if bool_decide (choice = js "3") then Some font_src
  else if bool_decide (choice = js "4") then Some connect_src
  else if bool_decide (choice = js "5") then Some img_src
  else if bool_decide (choice = js "6") then Some worker_src
  else None.

(** The names the object inherits from [Object.prototype]. *)
Definition inheritedMembers : list jsstring :=
  [ js "constructor"; js "hasOwnProperty"; js "isPrototypeOf"; js "propertyIsEnumerable";
    js "toLocaleString"; js "toString"; js "valueOf"; js "__proto__";
    js "__defineGetter__"; js "__defineSetter__"; js "__lookupGetter__";
    js "__lookupSetter__" ].

(** [directiveMap[choice]] as the text it stands for in the pattern and
    in the messages: the name of an entry, the text of an inherited member
    (a function or an object, which passes the [!directive] check), or
    [None] for [undefined]. *)
Definition lookupDirective (env : Env) (choice : jsstring) : option jsstring :=
  match directiveMap choice with
  | Some d => Some (directiveName d)
  | None =>
      if bool_decide (choice ∈ inheritedMembers) then Some (memberText env choice) else None
  end.

(** [choice] and [source] are the operator's answers to the two prompts. *)
Definition addCSPSource (env : Env) (choice source : jsstring) : IO Outcome :=
  emit (Console AddSourceBanner);;
  do viteConfigPath <- findViteConfig;
  match viteConfigPath with
  | None => emit (Console NoConfigFileFound);; exit NoConfigFound
  | Some viteConfigPath =>
      do content <- readFileSync viteConfigPath;
      if negb (includes content (js "CSP_POLICY")) then
        emit (Console PolicyNotFound);; exit PolicyMissing
      else
        emit (Console DirectiveMenu);;
        match lookupDirective env (trim choice) with
        | None => emit (Console InvalidChoiceGiven);; exit InvalidChoice
        | Some directive =>
            match trim source with
            | [] => emit (Console NoSourceProvided);; exit EmptySourceInput
            | _ :: _ =>
                backupFile env viteConfigPath;;
                match matchDirective env content directive (quoted (trim source)) with
                | PatternMatch _ content =>
                    writeFileSync env viteConfigPath content;;
                    emit (Console (SourceAddedTo (quoted (trim source)) directive));;
                    ret SourceAdded
                | PatternNoMatch =>
                    emit (Console (CouldNotFind directive));;
                    exit DirectiveNotFound
                | PatternThrows => throw (PatternFailed directive)
                end
            end
        end
  end.

End Cli.

(** ** The editor extension *)

Module Extension.

Definition CSP_POLICY_TEMPLATE : jsstring := joinLines [
  [];
  js "// ============================================================================";
  js "// CONTENT SECURITY POLICY (CSP) CONFIGURATION";
  js "// ============================================================================";
  js "//";
  js "// Debugging CSP errors:";
  js "// 1. Open Chrome DevTools " ++ [8594] ++ js " Console";
  js "// 2. Look for " ++ dq ++ js "Refused to load" ++ dq ++ js " or " ++ dq ++ js "violates Content Security Policy" ++ dq;
  js "// 3. The error tells you which directive blocked the resource";
  js "// 4. Add the source to the appropriate array below";
  js "//";
  js "// ============================================================================";
  [];
  js "const CSP_POLICY = {";
  js "  'default-src': [" ++ dq ++ js "'self'" ++ dq ++ js ", 'http://localhost:*', 'ws://localhost:*'],";
  js "  'script-src': [" ++ dq ++ js "'self'" ++ dq ++ js ", " ++ dq ++ js "'unsafe-inline'" ++ dq ++ js ", " ++ dq ++ js "'unsafe-eval'" ++ dq ++ js ", 'http://localhost:*', 'https://cdn.tailwindcss.com'],";
  js "  'style-src': [" ++ dq ++ js "'self'" ++ dq ++ js ", " ++ dq ++ js "'unsafe-inline'" ++ dq ++ js ", 'https://fonts.googleapis.com'],";
  js "  'font-src': [" ++ dq ++ js "'self'" ++ dq ++ js ", 'https://fonts.gstatic.com', 'data:'],";
  js "  'img-src': [" ++ dq ++ js "'self'" ++ dq ++ js ", 'data:', 'blob:', 'https:', 'http://localhost:*'],";
  js "  'connect-src': [" ++ dq ++ js "'self'" ++ dq ++ js ", 'http://localhost:*', 'ws://localhost:*'],";
  js "  'worker-src': [" ++ dq ++ js "'self'" ++ dq ++ js ", 'blob:'],";
  js "};";
  [];
  js "const buildCSPString = (policy: Record<string, string[]>): string =>";
  js "  Object.entries(policy)";
  js "    .map(([directive, sources]) => `${directive} ${sources.join(' ')}`)";
  js "    .join('; ');";
  []
].

Definition SERVER_CONFIG : jsstring := joinLines [
  [];
  js "  server: {";
  js "    headers: {";
  js "      'Content-Security-Policy': buildCSPString(CSP_POLICY),";
  js "    },";
  js "  },"
].

(** The settings and services the extension reads: [viteCsp.autoBackup],
    [vscode.workspace.workspaceFolders] ([None] for [undefined], else the
    [uri.fsPath] of each folder), the folder part of [path.join], and the
    platform's URL parser, which yields [protocol] and [hostname] or
    throws. *)
Record Settings : Type := MkSettings {
  autoBackup : bool;
  workspaceFolders : option (list string);
  joinedFolder : string -> string;
  parseURL : jsstring -> option (jsstring * jsstring)
}.

(** [path.join(rootPath, file)] for a file name of one segment: the
    folder as the platform normalises it, with its separator (nothing
    for an empty folder), followed by the file name unchanged. *)
Definition path_join (cfg : Settings) (rootPath file : string) : string :=
  (joinedFolder cfg rootPath +:+ file)%string.

Definition possibleFiles : list string :=
  ["vite.config.ts"; "vite.config.js"; "vite.config.mjs"]%string.

Fixpoint firstExisting (cfg : Settings) (rootPath : string) (candidates : list string)
    : IO (option string) :=
  match candidates with
  | [] => ret None
  | file :: rest =>
      let fullPath := path_join cfg rootPath file in
      do found <- existsSync fullPath;
      if found then ret (Some fullPath) else firstExisting cfg rootPath rest
  end.

(** An empty folder list passes the [!workspaceFolders] check, and
    [workspaceFolders[0].uri] throws. *)
Definition findViteConfig (cfg : Settings) : IO (option string) :=
  match workspaceFolders cfg with
  | None => ret None
  | Some [] => throw NoFirstFolder
  | Some (rootPath :: _) => firstExisting cfg rootPath possibleFiles
  end.

(** The file [findViteConfig] returns on a given disk. *)
Definition locate (cfg : Settings) (d : gmap string jsstring) : option string :=
  match workspaceFolders cfg with
  | Some (rootPath :: _) =>
      path_join cfg rootPath <$>
        List.find (fun file => bool_decide (is_Some (d !! path_join cfg rootPath file)))
                  possibleFiles
  | _ => None
  end.

(** The backup step repeated in each command. *)
Definition backupIfEnabled (env : Env) (cfg : Settings) (viteConfigPath : string) : IO unit :=
  if autoBackup cfg then
    copyFileSync env viteConfigPath (backupName viteConfigPath (now env))
  else ret tt.

Definition addCSPConfiguration (env : Env) (cfg : Settings) : IO Outcome :=
  do viteConfigPath <- findViteConfig cfg;
  match viteConfigPath with
  | None => emit (Notified NoConfigFileFound);; exit NoConfigFound
  | Some viteConfigPath =>
      do content <- readFileSync viteConfigPath;
      if includes content (js "CSP_POLICY") then
        emit (Notified ConfigurationExists);; exit AlreadyPatched
      else
        backupIfEnabled env cfg viteConfigPath;;
        let newContent := insertPolicyBlock CSP_POLICY_TEMPLATE content in
        let newContent :=
          if test configRegex newContent then
            replace configRegex 0 newContent (configReplacement SERVER_CONFIG)
          else newContent in
        writeFileSync env viteConfigPath newContent;;
        emit (Notified ConfigurationAdded);;
        emit (Opened viteConfigPath);;
        ret Patched
  end.

(** [addConfiguration] is the operator's answer to the offer made when
    the policy is missing; [directive] and [source] are the results of the
    quick pick and of the input box ([None] when dismissed). *)
Definition addCSPSource (env : Env) (cfg : Settings) (addConfiguration : bool)
    (directive : option Directive) (source : option jsstring) : IO Outcome :=
  do viteConfigPath <- findViteConfig cfg;
  match viteConfigPath with
  | None => emit (Notified NoConfigFileFound);; exit NoConfigFound
  | Some viteConfigPath =>
      do content <- readFileSync viteConfigPath;
      if negb (includes content (js "CSP_POLICY")) then
        emit (Notified PolicyNotFound);;
        if addConfiguration then addCSPConfiguration env cfg else exit PolicyMissing
      else
        match directive with
        | None => exit Cancelled
        | Some directive =>
            match source with
            | None | Some [] => exit Cancelled
            | Some source =>
                backupIfEnabled env cfg viteConfigPath;;
                match appendSource content (directiveName directive) (trim source) with
                | Some content =>
                    writeFileSync env viteConfigPath content;;
                    emit (Notified (SourceAddedTo (quoted (trim source)) (directiveName directive)));;
                    emit (Opened viteConfigPath);;
                    ret SourceAdded
                | None =>
                    emit (Notified (CouldNotFind (directiveName directive)));;
                    exit DirectiveNotFound
                end
            end
        end
  end.

(** The step behind the DevTools-error command, called with the directive
    and the blocked URL extracted from the pasted message. *)
Definition addSourceWithValues (env : Env) (cfg : Settings) (directive source : jsstring)
    : IO Outcome :=
  do viteConfigPath <- findViteConfig cfg;
  match viteConfigPath with
  | None => emit (Notified NoConfigFileFound);; exit NoConfigFound
  | Some viteConfigPath =>
      do content <- readFileSync viteConfigPath;
      if negb (includes content (js "CSP_POLICY")) then
        emit (Notified PolicyNotFound);; exit PolicyMissing
      else
        backupIfEnabled env cfg viteConfigPath;;
        tryCatch
          (match parseURL cfg source with
           | None => throw (InvalidUrlError source)
           | Some (protocol, hostname) =>
               let domain := protocol ++ js "//" ++ hostname in
               let newSource := quoted domain in
               match matchDirective env content directive newSource with
               | PatternThrows => throw (PatternFailed directive)
               | PatternMatch originalArray content =>
                   if includes originalArray newSource then
                     emit (Notified (SourceExists newSource directive));;
                     exit SourceAlreadyPresent
                   else
                     writeFileSync env viteConfigPath content;;
                     emit (Notified (SourceAddedTo newSource directive));;
                     emit (Opened viteConfigPath);;
                     ret SourceAdded
               | PatternNoMatch => exit DirectiveNotFound
               end
           end)
          (emit (Notified InvalidUrlInError);; exit InvalidURL)
  end.

End Extension.

(** ** The invocation surfaces side by side *)

Module Surfaces.

Inductive Surface : Type :=
| CommandLine
| Editor (cfg : Extension.Settings).

(** One entry per command of the two programs, with the operator's
    answers as arguments. *)
Inductive Invocation : Type :=
| CliFullPatch
| CliAddSource (choice source : jsstring)
| EditorFullPatch (cfg : Extension.Settings)
| EditorAddSource (cfg : Extension.Settings) (addConfiguration : bool)
    (directive : option Directive) (source : option jsstring)
| EditorFixError (cfg : Extension.Settings) (directive source : jsstring).

Definition invoke (i : Invocation) (env : Env) : IO Outcome :=
  match i with
  | CliFullPatch => Cli.addCSPConfiguration env
  | CliAddSource choice source => Cli.addCSPSource env choice source
  | EditorFullPatch cfg => Extension.addCSPConfiguration env cfg
  | EditorAddSource cfg addConfiguration directive source =>
      Extension.addCSPSource env cfg addConfiguration directive source
  | EditorFixError cfg directive source =>
      Extension.addSourceWithValues env cfg directive source
  end.

Definition surface (i : Invocation) : Surface :=
  match i with
  | CliFullPatch | CliAddSource _ _ => CommandLine
  | EditorFullPatch cfg | EditorAddSource cfg _ _ _ | EditorFixError cfg _ _ => Editor cfg
  end.

Definition fullPatch (s : Surface) : Invocation :=
  match s with
  | CommandLine => CliFullPatch
  | Editor cfg => EditorFullPatch cfg
  end.

Definition located (s : Surface) (d : gmap string jsstring) : option string :=
  match s with
  | CommandLine => Cli.locate d
  | Editor cfg => Extension.locate cfg d
  end.

(** The command-line script always takes a backup; the extension does so
    when [viteCsp.autoBackup] is set. *)
Definition backupsEnabled (s : Surface) : bool :=
  match s with
  | CommandLine => true
  | Editor cfg => Extension.autoBackup cfg
  end.

Definition policyTemplate (s : Surface) : jsstring :=
  match s with
  | CommandLine => Cli.CSP_POLICY_CODE
  | Editor _ => Extension.CSP_POLICY_TEMPLATE
  end.

Definition serverLiteral (s : Surface) : jsstring :=
  match s with
  | CommandLine => Cli.VITE_CONFIG_SERVER
  | Editor _ => Extension.SERVER_CONFIG
  end.

(** The text a full patch writes for a given original text. *)
Definition patchedText (s : Surface) (content : jsstring) : jsstring :=
  insertServerHeaders (serverLiteral s) (insertPolicyBlock (policyTemplate s) content).

End Surfaces.
Export Surfaces.

(** ** Declarative reading of the import pattern and of the call shape *)

Module Shapes.

(** One repetition of the import pattern: [import], anything, [from],
    white space, a quoted name, an optional semicolon, white space. *)
Definition importStatement (s : jsstring) : Prop :=
  exists mid ws q1 name q2 semi trail,
    s = js "import" ++ mid ++ js "from" ++ ws ++ [q1] ++ name ++ [q2] ++ semi ++ trail /\
    ws <> [] /\ forallb isSpace ws = true /\
    isQuote q1 = true /\ name <> [] /\ forallb notQuote name = true /\ isQuote q2 = true /\
    (semi = [] \/ semi = [59]) /\ forallb isSpace trail = true.

(** One or more repetitions, one after the other. *)
Definition importRun (s : jsstring) : Prop :=
  exists statements, statements <> [] /\ Forall importStatement statements /\
                     s = concat statements.

(** The content of capture group 1 of the import pattern. *)
Definition importBody : regex :=
  sequence [
    literal (js "import");
    Quant (CharSet anyChar) 0 None false [];
    literal (js "from");
    plus isSpace;
    CharSet isQuote;
    plus notQuote;
    CharSet isQuote;
    Quant (chr 59) 0 (Some 1%nat) true [];
    star isSpace ].

(** The text matched by the call-shape pattern. *)
Definition callShape (ws1 ws2 ws3 ws4 : jsstring) : jsstring :=
  js "export" ++ ws1 ++ js "default" ++ ws2 ++ js "defineConfig" ++ ws3 ++ [40] ++ ws4 ++ [123].

Definition callAt (content pre ws1 ws2 ws3 ws4 post : jsstring) : Prop :=
  content = pre ++ callShape ws1 ws2 ws3 ws4 ++ post /\
  ws1 <> [] /\ ws2 <> [] /\
  forallb isSpace ws1 = true /\ forallb isSpace ws2 = true /\
  forallb isSpace ws3 = true /\ forallb isSpace ws4 = true.

(** The first call shape of the text. *)
Definition firstCallAt (content pre ws1 ws2 ws3 ws4 post : jsstring) : Prop :=
  callAt content pre ws1 ws2 ws3 ws4 post /\
  forall pre' ws1' ws2' ws3' ws4' post',
    callAt content pre' ws1' ws2' ws3' ws4' post' -> (length pre <= length pre')%nat.

End Shapes.
Export Shapes.

(** ** The DevTools-error command of the extension *)

Module ErrorCommand.

Definition notLineTerminator (c : jschar) : bool := negb (isLineTerminator c).
Definition notDoubleQuote (c : jschar) : bool := negb (c =? 34).
Definition isLowerLetter (c : jschar) : bool := (97 <=? c) && (c <=? 122).

(** A pattern character under the [i] flag.  Without the [u] flag two
    code units match when their upper-case forms agree, and a code unit
    outside ASCII is never folded onto an ASCII one: an ASCII letter
    matches its two cases, any other ASCII character only itself. *)
Definition chrI (c : jschar) : regex :=
  if isLowerLetter c then CharSet (fun ch => (ch =? c) || (ch =? c - 32)) else chr c.

Definition literalI (s : jsstring) : regex := sequence (map chrI s).

(** The directive pattern of the command, with flag [i]: [violates], a
    greedy run of code units other than line terminators, [directive:],
    optional white space, and capture group 1 between double quotes
    holding one or more code units other than the double quote. *)
Definition violatesRegex : regex :=
  sequence [
    literalI (js "violates");
    star notLineTerminator;
    literalI (js "directive:");
    star isSpace;
    chr 34;
    Group 1 (plus notDoubleQuote);
    chr 34 ].

(** The source pattern: a quote character, capture group 1 holding one
    or more code units other than the two quote characters, a quote
    character. *)
Definition quotedRegex : regex :=
  sequence [ CharSet isQuote; Group 1 (plus notQuote); CharSet isQuote ].

(** The own keys of the object [directiveMap] of the command. *)
Definition directiveMap (directive : jsstring) : option jsstring :=
  if bool_decide (directive = js "script-src") then Some (js "script-src")
  else if bool_decide (directive = js "script-src-elem") then Some (js "script-src")
  else if bool_decide (directive = js "style-src") then Some (js "style-src")
  else if bool_decide (directive = js "style-src-elem") then Some (js "style-src")
  else if bool_decide (directive = js "font-src") then Some (js "font-src")
  else if bool_decide (directive = js "img-src") then Some (js "img-src")
  else if bool_decide (directive = js "connect-src") then Some (js "connect-src")
  else if bool_decide (directive = js "worker-src") then Some (js "worker-src")
  else None.

(** The names the object inherits from [Object.prototype]: looking one
    of them up yields a function or an object, not a directive name. *)
Definition inheritedMembers : list jsstring :=
  [ js "constructor"; js "hasOwnProperty"; js "isPrototypeOf"; js "propertyIsEnumerable";
    js "toLocaleString"; js "toString"; js "valueOf"; js "__proto__";
    js "__defineGetter__"; js "__defineSetter__"; js "__lookupGetter__";
    js "__lookupSetter__" ].

(** [directiveMap[directive] || directive], when that is a string. *)
Definition mappedDirective (directive : jsstring) : option jsstring :=
  if bool_decide (directive ∈ inheritedMembers) then None
  else Some (default directive (directiveMap directive)).

(** The constants [directive] and [source] read from the pasted text:
    [None] when one of the two patterns does not match. *)
Definition parseCSPError (errorText : jsstring) : option (jsstring * jsstring) :=
  match exec violatesRegex 1 errorText, exec quotedRegex 1 errorText with
  | Some directiveMatch, Some sourceMatch =>
      Some (trim (capture1 directiveMatch), capture1 sourceMatch)
  | _, _ => None
  end.

(** Declarative reading of the two patterns.  [lowerAscii] folds the
    ASCII capital letters onto the small ones. *)
Definition isUpperLetter (c : jschar) : bool := (65 <=? c) && (c <=? 90).
Definition lowerAscii (c : jschar) : jschar := if isUpperLetter c then c + 32 else c.

(** A non-empty run free of quote characters between two quote
    characters. *)
Definition quotedAt (text pre : jsstring) (q1 : jschar) (body : jsstring) (q2 : jschar)
    (post : jsstring) : Prop :=
  text = pre ++ [q1] ++ body ++ [q2] ++ post /\
  isQuote q1 = true /\ isQuote q2 = true /\ body <> [] /\ forallb notQuote body = true.

(** The word violates in any case, the rest of the line up to the word
    directive: in any case, white space, and a non-empty run free of
    double quotes between two double quotes. *)
Definition violationAt (text a kw1 gap kw2 ws body b : jsstring) : Prop :=
  text = a ++ kw1 ++ gap ++ kw2 ++ ws ++ [34] ++ body ++ [34] ++ b /\
  map lowerAscii kw1 = js "violates" /\ forallb notLineTerminator gap = true /\
  map lowerAscii kw2 = js "directive:" /\ forallb isSpace ws = true /\
  body <> [] /\ forallb notDoubleQuote body = true.

(** How the command ends: the input box was dismissed or left empty, the
    error message about the unparsable text was shown, the operator did
    not answer [Yes], or the append step ran. *)
Inductive ErrorOutcome : Type :=
| NoInput
| CouldNotParse
| Declined
| Delegated (o : Outcome).

(** [errorText] is the result of the input box, [confirmed] tells
    whether the operator answered [Yes] to the question that names the
    source and the mapped directive.  The messages of the command itself
    are told by the outcome; the machine carries what the append step
    does.  For a directive that names an inherited member the step
    receives the member itself, which stands in the pattern and in the
    messages as its text. *)
Definition fixCSPError (env : Env) (cfg : Extension.Settings)
    (errorText : option jsstring) (confirmed : bool) (files : gmap string jsstring)
    : ErrorOutcome * Machine :=
  match errorText with
  | None | Some [] => (NoInput, MkMachine files [])
  | Some errorText =>
      match parseCSPError errorText with
      | None => (CouldNotParse, MkMachine files [])
      | Some (directive, source) =>
          if confirmed then
            let mapped :=
              match mappedDirective directive with
              | Some mapped => mapped
              | None => memberText env directive
              end in
            let r := run (Extension.addSourceWithValues env cfg mapped source) files in
            (Delegated r.1, r.2)
          else (Declined, MkMachine files [])
      end
  end.

End ErrorCommand.

(** ** Vocabulary of the proofs *)

Module Vocabulary.

(** A matcher [m] is sound for a relation [R] when every result it
    returns comes from a state related by [R] that its continuation
    accepted; it is complete when it succeeds as soon as one such state
    exists. *)
Definition sound (m : Matcher) (R : MatchState -> MatchState -> Prop) : Prop :=
  forall x c z, m x c = Some z -> exists y, R x y /\ c y = Some z.

Definition complete (m : Matcher) (R : MatchState -> MatchState -> Prop) : Prop :=
  forall x y c, R x y -> is_Some (c y) -> is_Some (m x c).

(** [R] only consumes input: the rest after is a suffix of the rest before. *)
Definition advances (R : MatchState -> MatchState -> Prop) : Prop :=
  forall x y, R x y ->
    exists taken, remaining x = taken ++ remaining y /\
                  endIndex y = (endIndex x + length taken)%nat.

(** The code unit before the position reached after reading [pre]. *)
Definition lastOf (last : option jschar) (pre : jsstring) : option jschar :=
  foldl (fun _ c => Some c) last pre.

Definition startState (i : nat) (last : option jschar) (pre suf : jsstring) : MatchState :=
  MkState (i + length pre) (lastOf last pre) suf ∅.

Definition advance (x : MatchState) (taken rest : jsstring) : MatchState :=
  MkState (endIndex x + length taken) (lastOf (lastChar x) taken) rest (captures x).

(** The state in which the directive pattern leaves the matcher. *)
Definition afterArray (d ws body rest : jsstring) (x : MatchState) : MatchState :=
  MkState (endIndex x + length (arrayLiteral d ws body)) (Some 93) rest
    (<[1%nat := ((endIndex x + (length d + length ws + 4))%nat,
                 (endIndex x + (length d + length ws + 4) + length body)%nat)]> (captures x)).

(** What a run has to satisfy for a backup to precede the only write. *)
Definition backedUp (s : Surface) (env : Env) (files : gmap string jsstring)
    (r : Outcome * Machine) : Prop :=
  (forall q, In (Written q) (trace r.2) ->
     exists content,
       located s files = Some q /\ files !! q = Some content /\
       fileEvents (trace r.2) = [Copied q (backupName q (now env)); Written q] /\
       disk r.2 !! backupName q (now env) = Some content) /\
  (forall p, located s files = Some p ->
     writeDenied env (backupName p (now env)) = true ->
     disk r.2 = files /\ fileEvents (trace r.2) = []).

(** The outcome and machine of a command started on a given trace. *)
Definition finish (r : (Outcome + Outcome) * Machine) : Outcome * Machine :=
  match r with
  | (inl o, m) => (o, m)
  | (inr o, m) => (o, m)
  end.

(** The folder list is there and empty. *)
Definition noFirstFolder (cfg : Extension.Settings) : bool :=
  match Extension.workspaceFolders cfg with
  | Some [] => true
  | _ => false
  end.

(** How a command of the extension ends when no file is located. *)
Definition notLocated (cfg : Extension.Settings) (d : gmap string jsstring) (tr : list Event)
    : (Outcome + Outcome) * Machine :=
  if noFirstFolder cfg then (inr (Threw NoFirstFolder), MkMachine d tr)
  else (inr NoConfigFound, MkMachine d (tr ++ [Notified NoConfigFileFound])).

(** Code units that are not surrogates. *)
Definition notSurrogate (c : jschar) : bool :=
  negb (isHighSurrogate c) && negb (isLowSurrogate c).

Definition isCallChar (c : jschar) : bool :=
  isSpace c || existsb (N.eqb c) (js "exportdefaultdefineConfig({").

(** The outcomes of the checks made before any file operation. *)
Definition stopsEarly (o : Outcome) : bool :=
  match o with
  | NoConfigFound | AlreadyPatched | PolicyMissing | InvalidChoice | EmptySourceInput
  | Cancelled => true
  | _ => false
  end.

(** The position behind [pre] is the start of a line: the start of the
    text, or right behind a line terminator. *)
Definition opensLine (pre : jsstring) : Prop :=
  pre = [] \/ exists pre' ch, pre = pre' ++ [ch] /\ isLineTerminator ch = true.

(** Where the text with the block in it is cut: when the text has a run
    of import statements at the start of a line, the block goes in at the
    offset given by the length of such a run, counted from the start of
    the text; when no import statement stands at the start of a line, the
    block goes in front. *)
Definition blockInserted (template content block : jsstring) : Prop :=
  (exists pre imports post,
     content = pre ++ imports ++ post /\ opensLine pre /\ importRun imports /\
     block = take (length imports) content ++ [10] ++ template ++ [10]
             ++ drop (length imports) content) \/
  ((forall pre statement post,
      content = pre ++ statement ++ post -> importStatement statement -> ~ opensLine pre) /\
   block = template ++ [10] ++ content).

End Vocabulary.
Export Vocabulary.

(** ** Inputs used in examples *)

Module Inputs.

(** A configuration file whose first line is a comment. *)
Definition commentedConfig : jsstring :=
  joinLines [
    js "// Vite configuration";
    js "import { defineConfig } from 'vite';";
    [];
    js "export default defineConfig({});";
    [] ].

(** The configuration file of the project template. *)
Definition templateConfig : jsstring :=
  joinLines [
    js "import { defineConfig } from 'vite';";
    js "export default defineConfig({";
    js "  plugins: [],";
    js "});";
    [] ].

Definition minimalConfig : jsstring :=
  js "export default defineConfig({" ++ [10] ++ js "});".

Definition headersKey : jsstring := js "'Content-Security-Policy'".

Definition spacedArrayText : jsstring :=
  js "const CSP_POLICY = { 'connect-src': ['self' ] };".

Definition apiSource : jsstring := js "https://api.example.com".

Definition selfToken : jsstring := dq ++ js "'self'" ++ dq.

(** A policy with an example of the array syntax in a comment above it. *)
Definition commentedPolicy : jsstring :=
  joinLines [
    js "// add sources like this: 'connect-src': []";
    js "const CSP_POLICY = {";
    js "  'connect-src': [" ++ selfToken ++ js "],";
    js "};" ].

Definition selfOnlyPolicy : jsstring :=
  joinLines [
    js "const CSP_POLICY = {";
    js "  'img-src': ['data:'],";
    js "  'connect-src': [" ++ selfToken ++ js "],";
    js "};" ].

(** The loopback address of IP version 6, as a source. *)
Definition loopbackSource : jsstring := js "http://[::1]:5173".

Definition selfArrayText : jsstring := js "'connect-src': ['self']".

(** A policy object without any directive. *)
Definition emptyPolicy : jsstring := js "const CSP_POLICY = {};".

Definition selfPolicy : jsstring := js "const CSP_POLICY = { 'connect-src': ['self'] };".

(** A CommonJS configuration: no [export default defineConfig] call. *)
Definition commonJsConfig : jsstring :=
  joinLines [ js "module.exports = {"; js "  plugins: [],"; js "};"; [] ].

(** An environment in which every write succeeds, an inherited member
    reads as a built-in function does, and no pattern with syntax
    characters matches. *)
Definition someEnv : Env :=
  MkEnv 1700000000000 (fun _ => false)
    (fun name =>
       if bool_decide (name = js "constructor") then js "function Object() { [native code] }"
       else if bool_decide (name = js "__proto__") then js "[object Object]"
       else js "function " ++ name ++ js "() { [native code] }")
    (fun _ _ _ => PatternNoMatch).

Definition cliDisk (content : jsstring) : gmap string jsstring :=
  <["vite.config.js"%string := content]> ∅.

Definition workspaceDisk (content : jsstring) : gmap string jsstring :=
  <["/ws/vite.config.ts"%string := content]> ∅.

(** A workspace in which the extension runs without backups. *)
Definition noBackupSettings : Extension.Settings :=
  Extension.MkSettings false (Some ["/ws"%string]) (fun root => (root +:+ "/")%string)
    (fun _ => None).

Definition backupSettings : Extension.Settings :=
  Extension.MkSettings true (Some ["/ws"%string]) (fun root => (root +:+ "/")%string)
    (fun _ => Some (js "https:", js "api.example.com")).

(** The import line of the project template. *)
Definition importLine : jsstring := js "import { defineConfig } from 'vite';" ++ [10].

(** A call written with unusual white space, behind a comment line. *)
Definition spacedCallConfig : jsstring :=
  (js "// config" ++ [10]) ++ callShape (js "  ") [10] [32] [32; 32] ++ js " plugins: [] });".

(** A source with substitution patterns in it. *)
Definition dollarSource : jsstring := js "https://cdn.example.com/$&/$1".

(** A project directory with a second file next to the configuration. *)
Definition projectDisk : gmap string jsstring :=
  <["package.json"%string := js "{}"]> (cliDisk minimalConfig).

(** An environment in which the configuration file of the workspace is
    read-only. *)
Definition readOnlyEnv : Env :=
  MkEnv 1700000000000 (fun q => bool_decide (q = "/ws/vite.config.ts"%string))
    (memberText someEnv) (foreignPattern someEnv).

(** A message of the kind the browser prints. *)
Definition sampleError : jsstring :=
  js "Refused to load the script 'https://cdn.example.com/a.js' because it violates the following Content Security Policy directive: "
  ++ dq ++ js "script-src-elem " ++ dq ++ js ".".

End Inputs.
Export Inputs.

Local Arguments arrayLiteral : simpl never.
Local Arguments callShape : simpl never.

(** * Facts about string primitives *)

Section StringFacts.
Implicit Types s t search : jsstring.

Lemma startsWith_app search t : startsWith (search ++ t) search = true.
Proof. induction search as [|a l IH]; simpl; [done|]. by rewrite N.eqb_refl. Qed.

Lemma startsWith_inv s search :
  startsWith s search = true -> exists t, s = search ++ t.
Proof.
  revert s. induction search as [|a l IH]; intros s H; simpl in *.
  - by exists s.
  - destruct s as [|b s]; [done|].
    apply andb_true_iff in H as [Hab H]. apply N.eqb_eq in Hab as ->.
    destruct (IH _ H) as [t ->]. by exists t.
Qed.

Lemma includes_here s search : startsWith s search = true -> includes s search = true.
Proof. intros H. destruct s; simpl in *; rewrite H; done. Qed.

Lemma includes_cons c s search : includes s search = true -> includes (c :: s) search = true.
Proof. intros H. simpl. rewrite H. apply orb_true_r. Qed.

Lemma includes_app_r s t search : includes t search = true -> includes (s ++ t) search = true.
Proof. intros H. induction s; simpl; [done|]. fold (includes (s ++ t) search). rewrite IHs. apply orb_true_r. Qed.

Lemma includes_middle s t search : includes (s ++ search ++ t) search = true.
Proof. apply includes_app_r, includes_here, startsWith_app. Qed.

Lemma includes_app_l s t search : includes s search = true -> includes (s ++ t) search = true.
Proof.
  induction s as [|c s IH]; simpl.
  - rewrite orb_false_r. intros H. destruct search; [|done]. by destruct t.
  - intros H. apply orb_true_iff in H as [H|H].
    + apply startsWith_inv in H as [u Hu].
      change (includes ((c :: s) ++ t) search = true). rewrite Hu, <- app_assoc.
      apply includes_here, startsWith_app.
    + fold (includes (s ++ t) search). rewrite (IH H). apply orb_true_r.
Qed.

Lemma includes_inv s search :
  includes s search = true -> exists a b, s = a ++ search ++ b.
Proof.
  induction s as [|c s IH]; simpl.
  - rewrite orb_false_r. intros H. apply startsWith_inv in H as [t Ht]. by exists [], t.
  - intros H. apply orb_true_iff in H as [H|H].
    + apply startsWith_inv in H as [t Ht]. by exists [], t.
    + destruct (IH H) as (a & b & ->). by exists (c :: a), b.
Qed.

Lemma occurrences_app_ge search s t : (occurrences search t <= occurrences search (s ++ t))%nat.
Proof. induction s; simpl; [done|]. fold (occurrences search (s ++ t)). lia. Qed.

Lemma occurrences_here search t :
  search <> [] -> (1 + occurrences search t <= occurrences search (search ++ t))%nat.
Proof.
  intros Hne. destruct search as [|c l]; [done|].
  change (occurrences (c :: l) ((c :: l) ++ t))
    with ((if startsWith ((c :: l) ++ t) (c :: l) then 1 else 0)
          + occurrences (c :: l) (l ++ t))%nat.
  rewrite startsWith_app. pose proof (occurrences_app_ge (c :: l) l t). lia.
Qed.

Lemma take_drop_slices s n : slice_to s n ++ slice_from s n = s.
Proof. apply take_drop. Qed.

Lemma trimEnd_snoc s c : isSpace c = false -> trimEnd (s ++ [c]) = s ++ [c].
Proof.
  intros Hc. induction s as [|a s IH]; simpl.
  - by rewrite Hc.
  - fold (trimEnd (s ++ [c])). rewrite IH. destruct s; done.
Qed.

Lemma trimEnd_app_nonspace s t c :
  isSpace c = false -> trimEnd (s ++ t ++ [c]) = s ++ t ++ [c].
Proof. intros. rewrite app_assoc. by apply trimEnd_snoc. Qed.
End StringFacts.

(** Replacement templates without a dollar sign are taken literally. *)
Lemma GetSubstitution_plain matched str position caps template :
  noDollar template = true ->
  GetSubstitution matched str position caps template = template.
Proof.
  unfold noDollar. induction template as [|c t IH]; simpl; [done|].
  intros H. apply andb_true_iff in H as [Hc Ht]. rewrite Hc.
  fold (GetSubstitution matched str position caps t). by rewrite IH.
Qed.

(** * The backtracking matcher against the declarative semantics *)

Section MatcherCorrect.

Lemma RepeatMatcher_sound m R greedy parens :
  sound m R ->
  forall fuel min max x c z,
    RepeatMatcher m fuel min max greedy parens x c = Some z ->
    exists y, Repeats R parens min max x y /\ c y = Some z.
Proof.
  intros Hm. induction fuel as [|fuel IH]; intros min max x c z H; [done|].
  simpl in H.
  assert (Hstop : c x = Some z -> min = 0%nat \/ max = Some 0%nat ->
                  exists y, Repeats R parens min max x y /\ c y = Some z).
  { intros Hc Hmin. exists x. split; [by constructor | done]. }
  assert (Hstep : max <> Some 0%nat ->
    m (resetCaptures parens x)
      (fun y => if Nat.eqb min 0 && Nat.eqb (endIndex y) (endIndex x) then None
                else RepeatMatcher m fuel (Nat.pred min) (Nat.pred <$> max) greedy parens y c)
      = Some z ->
    exists y, Repeats R parens min max x y /\ c y = Some z).
  { intros Hmax Hz. apply Hm in Hz as (y & Hxy & Hd).
    destruct (Nat.eqb min 0 && Nat.eqb (endIndex y) (endIndex x)) eqn:Hprog; [done|].
    apply IH in Hd as (y' & Hrep & Hc). exists y'. split; [|done].
    eapply Repeats_step; eauto.
    intros ->. simpl in Hprog. by apply Nat.eqb_neq in Hprog. }
  destruct max as [[|k]|].
  - apply Hstop; auto.
  - destruct (Nat.eqb min 0) eqn:Hmin; simpl in H.
    + apply Nat.eqb_eq in Hmin. subst min. destruct greedy; simpl in H.
      * destruct (m _ _) eqn:Hz in H.
        -- inversion H; subst. apply Hstep; [done|]. exact Hz.
        -- apply Hstop; auto.
      * destruct (c x) eqn:Hc.
        -- inversion H; subst. apply Hstop; auto.
        -- apply Hstep; [done|]. exact H.
    + apply Hstep; [done|]. exact H.
  - destruct (Nat.eqb min 0) eqn:Hmin; simpl in H.
    + apply Nat.eqb_eq in Hmin. subst min. destruct greedy; simpl in H.
      * destruct (m _ _) eqn:Hz in H.
        -- inversion H; subst. apply Hstep; [done|]. exact Hz.
        -- apply Hstop; auto.
      * destruct (c x) eqn:Hc.
        -- inversion H; subst. apply Hstop; auto.
        -- apply Hstep; [done|]. exact H.
    + apply Hstep; [done|]. exact H.
Qed.

Lemma CompileSubpattern_sound r : sound (CompileSubpattern r) (Matches r).
Proof.
  induction r as [|A|r1 IH1 r2 IH2|r IH min max greedy parens|n r IH|ml];
    intros x c z H; [simpl in *..| |simpl in *|simpl in *].
  - by exists x.
  - unfold CharacterSetMatcher in H. destruct (remaining x) as [|ch rest] eqn:Hrem; [done|].
    destruct (A ch) eqn:HA; [|done]. eexists. split; [|exact H]. by exists ch, rest.
  - apply IH1 in H as (y & Hxy & H). apply IH2 in H as (y' & Hyy' & H).
    exists y'. split; [|done]. by exists y.
  - exact (RepeatMatcher_sound _ _ greedy parens IH _ _ _ _ _ _ H).
  - apply IH in H as (y & Hxy & H). eexists. split; [|exact H]. by exists y.
  - unfold atLineStart. destruct (lastChar x) as [ch|].
    + destruct (ml && isLineTerminator ch) eqn:E; [|done]. by exists x.
    + by exists x.
Qed.

Lemma Repeats_advances R parens :
  advances R ->
  forall min max x y, Repeats R parens min max x y ->
    exists taken, remaining x = taken ++ remaining y /\
                  endIndex y = (endIndex x + length taken)%nat.
Proof.
  intros HR min max x y H. induction H as [min max x _|min max x y z _ Hxy _ _ IH].
  - exists []. simpl. split; [done|lia].
  - apply HR in Hxy as (t1 & E1 & L1). destruct IH as (t2 & E2 & L2).
    simpl in *. exists (t1 ++ t2). rewrite <- app_assoc, <- E2, length_app. split; [done|lia].
Qed.

Lemma Matches_advances r : advances (Matches r).
Proof.
  induction r as [|A|r1 IH1 r2 IH2|r IH min max greedy parens|n r IH|ml];
    intros x y H; simpl in *.
  - subst. exists []. simpl. split; [done|lia].
  - destruct H as (ch & rest & Hrem & _ & ->). exists [ch]. simpl. split; [done|lia].
  - destruct H as (y' & H1 & H2). apply IH1 in H1 as (t1 & E1 & L1).
    apply IH2 in H2 as (t2 & E2 & L2). exists (t1 ++ t2).
    rewrite <- app_assoc, <- E2, length_app. split; [done|lia].
  - eapply Repeats_advances; eauto.
  - destruct H as (y' & H & ->). apply IH in H as (t & E & L). by exists t.
  - destruct H as [-> _]. exists []. simpl. split; [done|lia].
Qed.

Lemma RepeatMatcher_complete m R greedy parens :
  complete m R -> advances R ->
  forall min max x y, Repeats R parens min max x y ->
  forall fuel c, (min + length (remaining x) < fuel)%nat -> is_Some (c y) ->
    is_Some (RepeatMatcher m fuel min max greedy parens x c).
Proof.
  intros Hm HR min max x y H.
  induction H as [min max x Hstop|min max x y z Hmax Hxy Hprog Hrep IH];
    intros fuel c Hfuel Hc; (destruct fuel as [|fuel]; [lia|]); simpl.
  - destruct max as [[|k]|]; [done| |].
    + destruct Hstop as [->|?]; [|done]. simpl.
      destruct greedy; simpl; [destruct (m _ _); eauto | destruct Hc as [z ->]; eauto].
    + destruct Hstop as [->|?]; [|done]. simpl.
      destruct greedy; simpl; [destruct (m _ _); eauto | destruct Hc as [z ->]; eauto].
  - assert (Hd : is_Some (m (resetCaptures parens x)
      (fun y => if Nat.eqb min 0 && Nat.eqb (endIndex y) (endIndex x) then None
                else RepeatMatcher m fuel (Nat.pred min) (Nat.pred <$> max) greedy parens y c))).
    { eapply Hm; [exact Hxy|].
      destruct (HR _ _ Hxy) as (taken & E & L). simpl in E, L.
      destruct (Nat.eqb min 0) eqn:Hmin; simpl.
      - apply Nat.eqb_eq in Hmin. specialize (Hprog Hmin).
        apply Nat.eqb_neq in Hprog. rewrite Hprog.
        apply IH; [|done]. apply Nat.eqb_neq in Hprog.
        rewrite E, length_app in Hfuel. subst min. simpl in *. lia.
      - apply Nat.eqb_neq in Hmin. apply IH; [|done].
        rewrite E, length_app in Hfuel. lia. }
    destruct max as [[|k]|]; [done| |].
    + destruct Hd as [z' Hd]. destruct (Nat.eqb min 0); simpl in Hd |- *; [|eauto].
      destruct greedy; simpl; [rewrite Hd; eauto | destruct (c x); eauto].
    + destruct Hd as [z' Hd]. destruct (Nat.eqb min 0); simpl in Hd |- *; [|eauto].
      destruct greedy; simpl; [rewrite Hd; eauto | destruct (c x); eauto].
Qed.

Lemma CompileSubpattern_complete r : complete (CompileSubpattern r) (Matches r).
Proof.
  induction r as [|A|r1 IH1 r2 IH2|r IH min max greedy parens|n r IH|ml];
    intros x y c H Hc; [simpl in *..| |simpl in *|simpl in *].
  - by subst.
  - destruct H as (ch & rest & Hrem & HA & ->). unfold CharacterSetMatcher.
    by rewrite Hrem, HA.
  - destruct H as (y' & H1 & H2). eapply IH1; [exact H1|]. eapply IH2; eauto.
  - apply (RepeatMatcher_complete _ _ greedy parens IH (Matches_advances r) _ _ _ _ H);
      [lia | done].
  - destruct H as (y' & H & ->). eapply IH; eauto.
  - destruct H as [-> H]. unfold atLineStart in H. destruct (lastChar x); [|done].
    by rewrite H.
Qed.

End MatcherCorrect.

(** * Scanning for the first match *)

Section Scan.
Variable r : regex.

Lemma scan_Some i last rest j y :
  scan r i last rest = Some (j, y) ->
  exists pre suf, rest = pre ++ suf /\ j = (i + length pre)%nat /\
    Matches r (startState i last pre suf) y /\
    forall pre' suf' y', rest = pre' ++ suf' -> (length pre' < length pre)%nat ->
      ~ Matches r (startState i last pre' suf') y'.
Proof.
  revert i last. induction rest as [|ch rest IH]; intros i last H; simpl in H.
  - destruct (CompileSubpattern r _ Some) as [z|] eqn:Hz; [|done].
    inversion H; subst. apply CompileSubpattern_sound in Hz as (y' & Hy & E).
    inversion E; subst. exists [], []. unfold startState; simpl.
    rewrite Nat.add_0_r. repeat split; auto. intros; lia.
  - destruct (CompileSubpattern r _ Some) as [z|] eqn:Hz.
    + inversion H; subst. apply CompileSubpattern_sound in Hz as (y' & Hy & E).
      inversion E; subst. exists [], (ch :: rest). unfold startState; simpl.
      rewrite Nat.add_0_r. repeat split; auto. intros; lia.
    + apply IH in H as (pre & suf & -> & -> & Hm & Hleft).
      exists (ch :: pre), suf. unfold startState in *; simpl.
      rewrite Nat.add_succ_r. repeat split; auto.
      intros pre' suf' y' E Hlen Hm'. destruct pre' as [|c' pre']; simpl in *.
      * subst suf'. rewrite Nat.add_0_r in Hm'.
        assert (is_Some (CompileSubpattern r (MkState i last (ch :: pre ++ suf) ∅) Some)) as [? ?].
        { eapply CompileSubpattern_complete; eauto. }
        congruence.
      * inversion E; subst. apply (Hleft pre' suf' y'); auto; [lia|].
        by rewrite Nat.add_succ_r in Hm'.
Qed.

Lemma scan_None i last rest :
  scan r i last rest = None ->
  forall pre suf y, rest = pre ++ suf -> ~ Matches r (startState i last pre suf) y.
Proof.
  revert i last. induction rest as [|ch rest IH]; intros i last H pre suf y E Hm; simpl in H.
  - destruct (CompileSubpattern r _ Some) as [z|] eqn:Hz; [done|].
    symmetry in E. apply app_eq_nil in E as [-> ->]. unfold startState in Hm; simpl in Hm.
    rewrite Nat.add_0_r in Hm.
    assert (is_Some (CompileSubpattern r (MkState i last [] ∅) Some)) as [? ?].
    { eapply CompileSubpattern_complete; eauto. }
    congruence.
  - destruct (CompileSubpattern r _ Some) as [z|] eqn:Hz; [done|].
    destruct pre as [|c pre]; unfold startState in Hm; simpl in *.
    + subst suf. rewrite Nat.add_0_r in Hm.
      assert (is_Some (CompileSubpattern r (MkState i last (ch :: rest) ∅) Some)) as [? ?].
      { eapply CompileSubpattern_complete; eauto. }
      congruence.
    + inversion E; subst. apply (IH _ _ H pre suf y); [done|].
      unfold startState. by rewrite Nat.add_succ_r in Hm.
Qed.

Lemma scan_complete i last pre suf y :
  Matches r (startState i last pre suf) y -> is_Some (scan r i last (pre ++ suf)).
Proof.
  intros Hm. destruct (scan r i last (pre ++ suf)) eqn:E; [done|].
  exfalso. eapply scan_None; eauto.
Qed.
End Scan.

(** * The building blocks of the three patterns *)

Lemma advance_nil x : advance x [] (remaining x) = x.
Proof. destruct x. unfold advance; simpl. f_equal. lia. Qed.

Lemma advance_app x s t rest :
  advance (advance x s (t ++ rest)) t rest = advance x (s ++ t) rest.
Proof.
  unfold advance, lastOf; simpl. rewrite length_app, foldl_app. f_equal. lia.
Qed.

Lemma resetCaptures_nil x : resetCaptures [] x = x.
Proof. by destruct x. Qed.

Lemma Matches_CharSet A x y :
  Matches (CharSet A) x y <->
  exists ch rest, remaining x = ch :: rest /\ A ch = true /\ y = advance x [ch] rest.
Proof.
  simpl. unfold advance; simpl. split; intros (ch & rest & E & HA & ->); exists ch, rest;
    repeat split; auto; f_equal; lia.
Qed.

Lemma Matches_chr c x y :
  Matches (chr c) x y <-> exists rest, remaining x = c :: rest /\ y = advance x [c] rest.
Proof.
  unfold chr. rewrite Matches_CharSet. split.
  - intros (ch & rest & E & HA & ->). apply N.eqb_eq in HA as <-. by exists rest.
  - intros (rest & E & ->). exists c, rest. by rewrite N.eqb_refl.
Qed.

Lemma Matches_sequence_cons r rs x z :
  Matches (sequence (r :: rs)) x z <-> exists y, Matches r x y /\ Matches (sequence rs) y z.
Proof. reflexivity. Qed.

Lemma Matches_sequence_nil x z : Matches (sequence []) x z <-> z = x.
Proof. reflexivity. Qed.

Lemma Matches_literal s x y :
  Matches (literal s) x y <-> exists rest, remaining x = s ++ rest /\ y = advance x s rest.
Proof.
  revert x. induction s as [|c s IH]; intros x.
  - unfold literal; simpl. split.
    + intros ->. exists (remaining x). by rewrite advance_nil.
    + intros (rest & <- & ->). by rewrite advance_nil.
  - change (literal (c :: s)) with (Seq (chr c) (literal s)). simpl Matches. split.
    + intros (y' & H1 & H2). apply Matches_chr in H1 as (rest & E & ->).
      apply IH in H2 as (rest' & E' & ->). simpl in E'. subst rest.
      exists rest'. split; [done|]. apply (advance_app x [c] s).
    + intros (rest & E & ->). exists (advance x [c] (s ++ rest)). split.
      * apply Matches_chr. by exists (s ++ rest).
      * apply IH. exists rest. split; [done|]. symmetry. apply (advance_app x [c] s).
Qed.

(** Greedy runs over a character set. *)
Lemma Repeats_CharSet A min x y :
  Repeats (Matches (CharSet A)) [] min None x y <->
  exists run rest, remaining x = run ++ rest /\ forallb A run = true /\
    (min <= length run)%nat /\ y = advance x run rest.
Proof.
  split.
  - intros H. remember None as max eqn:Hmax.
    induction H as [min max x Hstop|min max x y z _ Hxy _ _ IH]; subst.
    + destruct Hstop as [->|?]; [|done]. exists [], (remaining x).
      rewrite advance_nil. simpl. repeat split; auto.
    + rewrite resetCaptures_nil in Hxy. apply Matches_CharSet in Hxy as (ch & rest & E & HA & ->).
      destruct (IH eq_refl) as (run & rest' & E' & Hrun & Hlen & ->). simpl in E'. subst rest.
      exists (ch :: run), rest'. simpl. rewrite HA, Hrun. repeat split; auto; [lia|].
      apply (advance_app x [ch] run).
  - intros (run & rest & E & Hrun & Hlen & ->). revert x min E Hlen.
    induction run as [|ch run IH]; intros x min E Hlen; simpl in *.
    + assert (min = 0%nat) as -> by lia. subst rest. rewrite advance_nil. constructor. by left.
    + apply andb_true_iff in Hrun as [HA Hrun].
      eapply (Repeats_step _ _ _ _ _ (advance x [ch] (run ++ rest))); [done| | |].
      * rewrite resetCaptures_nil. apply Matches_CharSet. by exists ch, (run ++ rest).
      * intros _. simpl. lia.
      * rewrite <- (advance_app x [ch] run). apply IH; auto. simpl. lia.
Qed.

Lemma Matches_star A x y :
  Matches (star A) x y <->
  exists run rest, remaining x = run ++ rest /\ forallb A run = true /\ y = advance x run rest.
Proof.
  change (Matches (star A) x y) with (Repeats (Matches (CharSet A)) [] 0 None x y).
  rewrite Repeats_CharSet. split.
  - intros (run & rest & ? & ? & ? & ?). by exists run, rest.
  - intros (run & rest & ? & ? & ?). exists run, rest. repeat split; auto. lia.
Qed.

Lemma Matches_plus A x y :
  Matches (plus A) x y <->
  exists run rest, remaining x = run ++ rest /\ forallb A run = true /\ run <> [] /\
    y = advance x run rest.
Proof.
  change (Matches (plus A) x y) with (Repeats (Matches (CharSet A)) [] 1 None x y).
  rewrite Repeats_CharSet. split.
  - intros (run & rest & ? & ? & Hlen & ?). exists run, rest. repeat split; auto.
    intros ->. simpl in Hlen. lia.
  - intros (run & rest & ? & ? & Hne & ?). exists run, rest. repeat split; auto.
    destruct run; [done|]. simpl. lia.
Qed.

(** * What the directive pattern and the call-shape pattern match *)

Ltac norm_app := repeat (progress (rewrite <- ?app_assoc; simpl)).

Ltac norm_len := repeat (progress (rewrite ?length_app; simpl)).

Ltac next_term H y Hy := apply Matches_sequence_cons in H as (y & Hy & H).

Lemma lastOf_snoc last s c : lastOf last (s ++ [c]) = Some c.
Proof. unfold lastOf. by rewrite foldl_app. Qed.

Lemma Matches_directiveRegex d x y :
  Matches (directiveRegex d) x y <->
  exists ws body rest,
    remaining x = arrayLiteral d ws body ++ rest /\
    forallb isSpace ws = true /\ forallb notCloseBracket body = true /\
    y = afterArray d ws body rest x.
Proof.
  unfold directiveRegex. split.
  - intros H.
    next_term H x1 H1. apply Matches_chr in H1 as (r1 & E1 & ->).
    next_term H x2 H2. apply Matches_literal in H2 as (r2 & E2 & ->).
    next_term H x3 H3. apply Matches_chr in H3 as (r3 & E3 & ->).
    next_term H x4 H4. apply Matches_chr in H4 as (r4 & E4 & ->).
    next_term H x5 H5. apply Matches_star in H5 as (ws & r5 & E5 & Hws & ->).
    next_term H x6 H6. apply Matches_chr in H6 as (r6 & E6 & ->).
    next_term H x7 H7. destruct H7 as (x7' & H7 & ->).
    apply Matches_star in H7 as (body & r7 & E7 & Hbody & ->).
    next_term H x8 H8. apply Matches_chr in H8 as (r8 & E8 & ->).
    apply Matches_sequence_nil in H as ->.
    simpl in *. subst. exists ws, body, r8. split; [|split; [done|split; [done|]]].
    { rewrite E1. unfold arrayLiteral. by norm_app. }
    unfold afterArray, advance, setCapture, arrayLiteral; simpl.
    norm_len. f_equal; [lia|].
    f_equal. f_equal; lia.
  - intros (ws & body & rest & E & Hws & Hbody & ->). unfold arrayLiteral in E.
    repeat (progress (rewrite <- ?app_assoc in E; simpl in E)).
    apply Matches_sequence_cons. eexists. split.
    { apply Matches_chr. eexists. split; [exact E|reflexivity]. }
    apply Matches_sequence_cons. eexists. split.
    { apply Matches_literal. eexists. split; reflexivity. }
    apply Matches_sequence_cons. eexists. split.
    { apply Matches_chr. eexists. split; reflexivity. }
    apply Matches_sequence_cons. eexists. split.
    { apply Matches_chr. eexists. split; reflexivity. }
    apply Matches_sequence_cons. eexists. split.
    { apply Matches_star. exists ws. eexists. split; [reflexivity|]. split; [done|reflexivity]. }
    apply Matches_sequence_cons. eexists. split.
    { apply Matches_chr. eexists. split; reflexivity. }
    apply Matches_sequence_cons. eexists. split.
    { eexists. split; [|reflexivity].
      apply Matches_star. exists body. eexists. split; [reflexivity|]. split; [done|reflexivity]. }
    apply Matches_sequence_cons. eexists. split.
    { apply Matches_chr. eexists. split; reflexivity. }
    apply Matches_sequence_nil.
    unfold afterArray, advance, setCapture, arrayLiteral; simpl.
    norm_len. f_equal; [lia|].
    f_equal. f_equal; lia.
Qed.

(** * Locating the directive array *)

Lemma substring_middle (s a b c : jsstring) i j :
  s = a ++ b ++ c -> i = length a -> j = (i + length b)%nat -> substring s i j = b.
Proof.
  intros -> -> ->. unfold substring. rewrite drop_app_length.
  replace (length a + length b - length a)%nat with (length b) by lia.
  apply take_app_length.
Qed.

(** A run of code units satisfying [P] followed by one that does not can
    be read off a text in one way only. *)
Lemma span_unique (P : jschar -> bool) l1 l2 a b r1 r2 :
  forallb P l1 = true -> forallb P l2 = true -> P a = false -> P b = false ->
  l1 ++ a :: r1 = l2 ++ b :: r2 -> l1 = l2 /\ a = b /\ r1 = r2.
Proof.
  revert l2. induction l1 as [|c l1 IH]; intros [|c2 l2] H1 H2 Ha Hb E; simpl in *.
  - by inversion E.
  - inversion E; subst. apply andb_true_iff in H2 as [H2 _]. congruence.
  - inversion E; subst. apply andb_true_iff in H1 as [H1 _]. congruence.
  - inversion E; subst. apply andb_true_iff in H1 as [_ H1]. apply andb_true_iff in H2 as [_ H2].
    destruct (IH l2 H1 H2 Ha Hb H3) as (-> & -> & ->). done.
Qed.

Lemma arrayLiteral_unique d ws body post ws' body' post' :
  forallb isSpace ws = true -> forallb notCloseBracket body = true ->
  forallb isSpace ws' = true -> forallb notCloseBracket body' = true ->
  arrayLiteral d ws body ++ post = arrayLiteral d ws' body' ++ post' ->
  ws = ws' /\ body = body' /\ post = post'.
Proof.
  intros Hws Hbody Hws' Hbody' E. unfold arrayLiteral in E.
  repeat (progress (rewrite <- ?app_assoc in E; simpl in E)).
  inversion E as [E1]. apply app_inv_head in E1. inversion E1 as [E2].
  apply (span_unique isSpace) in E2 as (-> & _ & E3); auto.
  apply (span_unique notCloseBracket) in E3 as (-> & _ & E4); auto.
Qed.

Lemma arrayAt_same_position s d pre ws body post pre' ws' body' post' :
  arrayAt s d pre ws body post -> arrayAt s d pre' ws' body' post' ->
  length pre = length pre' ->
  pre = pre' /\ ws = ws' /\ body = body' /\ post = post'.
Proof.
  intros (E & Hws & Hbody) (E' & Hws' & Hbody') Hlen. rewrite E in E'.
  apply app_inj_1 in E' as [-> E']; [|done]. split; [done|].
  eapply arrayLiteral_unique; eauto.
Qed.

Lemma exec_directive_Some d s m :
  exec (directiveRegex d) 1 s = Some m ->
  exists pre ws body post,
    firstArrayAt s d pre ws body post /\
    m = MkResult (length pre) (arrayLiteral d ws body) [Some body].
Proof.
  unfold exec. destruct (scan _ _ _ _) as [[j y]|] eqn:Hscan; [|done].
  intros H. inversion H; subst m; clear H.
  apply scan_Some in Hscan as (pre & suf & -> & -> & Hm & Hleft).
  apply Matches_directiveRegex in Hm as (ws & body & post & E & Hws & Hbody & ->).
  change (suf = arrayLiteral d ws body ++ post) in E. subst suf.
  exists pre, ws, body, post. split; [split|].
  - done.
  - intros pre' ws' body' post' (E' & Hws' & Hbody').
    destruct (decide (length pre' < length pre)%nat) as [Hlt|]; [|lia].
    exfalso. eapply (Hleft pre' _ _ E' Hlt).
    apply Matches_directiveRegex. exists ws', body', post'. repeat split; eauto.
  - unfold afterArray, startState; cbn [endIndex captures Nat.add]. f_equal.
    + apply (substring_middle _ pre _ post); [done|lia..].
    + rewrite lookup_insert_eq. cbn [fmap option_fmap option_map fst snd]. f_equal. f_equal.
      apply (substring_middle _ (pre ++ [39] ++ d ++ [39; 58] ++ ws ++ [91]) body ([93] ++ post));
        [unfold arrayLiteral; by norm_app | norm_len; lia..].
Qed.

Lemma exec_directive_None d s :
  exec (directiveRegex d) 1 s = None -> ~ containsDirectiveArray s d.
Proof.
  unfold exec. destruct (scan _ _ _ _) as [[j y]|] eqn:Hscan; [done|]. intros _.
  intros (pre & ws & body & post & E & Hws & Hbody).
  eapply (scan_None _ _ _ _ Hscan pre _ _ E).
  apply Matches_directiveRegex. exists ws, body, post. repeat split; eauto.
Qed.

Lemma exec_directive_first d s pre ws body post :
  firstArrayAt s d pre ws body post ->
  exec (directiveRegex d) 1 s = Some (MkResult (length pre) (arrayLiteral d ws body) [Some body]).
Proof.
  intros [Hat Hfirst]. destruct (exec (directiveRegex d) 1 s) as [m|] eqn:Hexec.
  - apply exec_directive_Some in Hexec as (pre1 & ws1 & body1 & post1 & [Hat1 Hfirst1] & ->).
    assert (length pre1 = length pre) as Hlen.
    { apply Nat.le_antisymm; eauto. }
    destruct (arrayAt_same_position _ _ _ _ _ _ _ _ _ _ Hat1 Hat Hlen) as (-> & -> & -> & ->).
    done.
  - exfalso. apply exec_directive_None in Hexec. apply Hexec. by exists pre, ws, body, post.
Qed.

Lemma containsDirectiveArray_first d s :
  containsDirectiveArray s d -> exists pre ws body post, firstArrayAt s d pre ws body post.
Proof.
  intros H. destruct (exec (directiveRegex d) 1 s) as [m|] eqn:Hexec.
  - apply exec_directive_Some in Hexec as (pre & ws & body & post & Hfirst & _). eauto.
  - by apply exec_directive_None in Hexec.
Qed.

(** * Replacing the located array *)

Lemma noDollar_app s t : noDollar (s ++ t) = noDollar s && noDollar t.
Proof. apply forallb_app. Qed.

Lemma forallb_trimEnd (P : jschar -> bool) s :
  forallb P s = true -> forallb P (trimEnd s) = true.
Proof.
  induction s as [|c s IH]; simpl; [done|]. intros H.
  apply andb_true_iff in H as [Hc Hs]. specialize (IH Hs).
  destruct (trimEnd s); [destruct (isSpace c); simpl; by rewrite ?Hc|].
  simpl in *. by rewrite Hc, IH.
Qed.

Lemma replace_first_array d s pre ws body post value :
  firstArrayAt s d pre ws body post -> noDollar value = true ->
  replace (directiveRegex d) 1 s value = pre ++ value ++ post.
Proof.
  intros Hfirst Hval. unfold replace. rewrite (exec_directive_first _ _ _ _ _ _ Hfirst).
  cbn [index matched groups]. rewrite GetSubstitution_plain by done.
  destruct Hfirst as [(-> & _ & _) _].
  rewrite take_app_length. f_equal. f_equal.
  rewrite app_assoc, <- length_app. apply drop_app_length.
Qed.

(** The text produced by the append step when no substitution pattern
    is involved: the array literal is rewritten with one space after the
    colon and the updated content. *)
Lemma appendSource_first_array d s pre ws body post source :
  firstArrayAt s d pre ws body post ->
  noDollar d = true -> noDollar body = true -> noDollar source = true ->
  appendSource s d source =
    Some (pre ++ arrayLiteral d [32] (updatedArray body (quoted source)) ++ post).
Proof.
  intros Hfirst Hd Hbody Hsrc. unfold appendSource.
  rewrite (exec_directive_first _ _ _ _ _ _ Hfirst). unfold spliceSource, capture1.
  cbn [groups lookup list_lookup mjoin option_join default from_option id].
  rewrite (replace_first_array d s pre ws body post); [|done|].
  - reflexivity.
  - unfold updatedArray, quoted. rewrite !noDollar_app.
    assert (noDollar (trimEnd body) = true) as -> by (by apply forallb_trimEnd).
    rewrite Hd, Hsrc. reflexivity.
Qed.

(** * The first array stays the first after it is rewritten *)

Lemma first_close (l : jsstring) :
  In 93 l -> exists b q, l = b ++ 93 :: q /\ forallb notCloseBracket b = true.
Proof.
  induction l as [|c l IH]; intros Hin; [done|].
  destruct (N.eqb_spec c 93) as [->|Hne].
  - by exists [], l.
  - destruct Hin as [->|Hin]; [done|]. destruct (IH Hin) as (b & q & -> & Hb).
    exists (c :: b), q. split; [done|]. simpl. rewrite Hb.
    unfold notCloseBracket. apply N.eqb_neq in Hne. by rewrite Hne.
Qed.

Lemma span_split (P : jschar -> bool) l1 a r1 t a' l' :
  forallb P l1 = true -> P a' = false ->
  l1 ++ a :: r1 = t ++ a' :: l' ->
  (t = l1 /\ a = a' /\ r1 = l') \/ (exists t', t = l1 ++ a :: t' /\ r1 = t' ++ a' :: l').
Proof.
  revert t. induction l1 as [|c l1 IH]; intros [|c2 t] H1 Ha' E; simpl in *.
  - left. by inversion E.
  - right. inversion E; subst. by exists t.
  - inversion E; subst. apply andb_true_iff in H1 as [H1 _]. congruence.
  - inversion E; subst. apply andb_true_iff in H1 as [_ H1].
    destruct (IH t H1 Ha' H2) as [(-> & -> & ->)|(t' & -> & ->)]; [by left|right; by exists t'].
Qed.

Lemma forallb_In (P : jschar -> bool) l c : forallb P l = true -> In c l -> P c = true.
Proof. intros H Hin. rewrite List.forallb_forall in H. exact (H c Hin). Qed.

Lemma arrayLiteral_has_close d ws body : In 93 (arrayLiteral d ws body).
Proof. unfold arrayLiteral. rewrite !in_app_iff. do 6 right. by left. Qed.

Lemma firstArrayAt_rewrite d pre ws body post ws' body' :
  plainName d = true ->
  firstArrayAt (pre ++ arrayLiteral d ws body ++ post) d pre ws body post ->
  forallb isSpace ws' = true -> forallb notCloseBracket body' = true ->
  firstArrayAt (pre ++ arrayLiteral d ws' body' ++ post) d pre ws' body' post.
Proof.
  intros Hd [_ Hfirst] Hws' Hbody'. split; [done|].
  intros p2 w2 b2 q2 (E2 & Hw2 & Hb2).
  destruct (decide (length p2 < length pre)%nat) as [Hlt|]; [exfalso|lia].
  apply andb_true_iff in Hd as [Hquote Hcolon].
  (* the earlier array starts inside [pre] *)
  apply app_eq_app in E2 as [t [[-> E2]|[-> E2]]]; [|rewrite length_app in Hlt; lia].
  assert (t <> []) as Ht by (intros ->; rewrite length_app in Hlt; simpl in Hlt; lia).
  assert (Hcase : forall l, t = (39 :: d ++ 39 :: 58 :: w2 ++ [91]) ++ l -> False).
  { intros l ->.
    destruct (first_close (l ++ arrayLiteral d ws body ++ post)) as (b & q & Eb & Hb).
    { rewrite !in_app_iff. right. left. apply arrayLiteral_has_close. }
    assert (arrayAt ((p2 ++ (39 :: d ++ 39 :: 58 :: w2 ++ [91]) ++ l)
                     ++ arrayLiteral d ws body ++ post) d p2 w2 b q) as Hat.
    { split; [|done]. rewrite <- !app_assoc. rewrite Eb. unfold arrayLiteral. by norm_app. }
    apply Hfirst in Hat. rewrite !length_app in Hat. simpl in Hat. lia. }
  assert (t ++ arrayLiteral d ws' body' ++ post
          = (39 :: d ++ 39 :: 58 :: w2 ++ [91]) ++ b2 ++ 93 :: q2) as E2'.
  { rewrite <- E2. unfold arrayLiteral. by norm_app. }
  clear E2. rename E2' into E2.
  apply app_eq_app in E2 as [l [[-> E2]|[E2 E3]]]; [exact (Hcase l eq_refl)|].
  destruct l as [|c l].
  { apply (Hcase []). rewrite app_nil_r in *. by symmetry. }
  unfold arrayLiteral in E3. simpl in E3. inversion E3 as [[Hc E4]]. subst c.
  destruct t as [|c t]; [done|]. simpl in E2. inversion E2 as [[Hc E5]]. subst c.
  apply (span_split (fun c => negb (c =? 39))) in E5
    as [(-> & _ & <-)|(t' & -> & E6)]; [| |done|done].
  - (* the key would have to start with a colon *)
    rewrite <- !app_assoc in E4. destruct d as [|c d]; simpl in *; [by inversion E4|].
    inversion E4; subst. simpl in Hcolon. discriminate.
  - (* a quote would have to occur among colon, white space and bracket *)
    assert (In 39 (58 :: w2 ++ [91])) as Hin by (rewrite E6, in_app_iff; right; by left).
    destruct Hin as [?|Hin]; [done|]. apply in_app_iff in Hin as [Hin|[?|[]]]; [|done].
    by apply (forallb_In _ _ _ Hw2) in Hin.
Qed.

(** All names of the policy object are plain and free of dollar signs. *)
Lemma directiveName_plain d : plainName (directiveName d) = true.
Proof. by destruct d. Qed.

Lemma directiveName_noDollar d : noDollar (directiveName d) = true.
Proof. by destruct d. Qed.

(** * The call-shape pattern *)

Lemma Matches_configRegex x :
  (exists y, Matches configRegex x y) <->
  exists ws1 ws2 ws3 ws4 rest,
    remaining x = js "export" ++ ws1 ++ js "default" ++ ws2 ++ js "defineConfig"
                  ++ ws3 ++ [40] ++ ws4 ++ [123] ++ rest /\
    ws1 <> [] /\ ws2 <> [] /\
    forallb isSpace ws1 = true /\ forallb isSpace ws2 = true /\
    forallb isSpace ws3 = true /\ forallb isSpace ws4 = true.
Proof.
  unfold configRegex. split.
  - intros [y H].
    next_term H x1 H1. apply Matches_literal in H1 as (r1 & E1 & ->).
    next_term H x2 H2. apply Matches_plus in H2 as (ws1 & r2 & E2 & Hws1 & Hne1 & ->).
    next_term H x3 H3. apply Matches_literal in H3 as (r3 & E3 & ->).
    next_term H x4 H4. apply Matches_plus in H4 as (ws2 & r4 & E4 & Hws2 & Hne2 & ->).
    next_term H x5 H5. apply Matches_literal in H5 as (r5 & E5 & ->).
    next_term H x6 H6. apply Matches_star in H6 as (ws3 & r6 & E6 & Hws3 & ->).
    next_term H x7 H7. apply Matches_chr in H7 as (r7 & E7 & ->).
    next_term H x8 H8. apply Matches_star in H8 as (ws4 & r8 & E8 & Hws4 & ->).
    next_term H x9 H9. apply Matches_chr in H9 as (r9 & E9 & ->).
    cbn [remaining advance] in *. subst.
    exists ws1, ws2, ws3, ws4, r9. repeat split; auto.
  - intros (ws1 & ws2 & ws3 & ws4 & rest & E & Hne1 & Hne2 & Hws1 & Hws2 & Hws3 & Hws4).
    eexists.
    apply Matches_sequence_cons. eexists. split.
    { apply Matches_literal. eexists. split; [exact E|reflexivity]. }
    apply Matches_sequence_cons. eexists. split.
    { apply Matches_plus. exists ws1. eexists. split; [reflexivity|]. by repeat split. }
    apply Matches_sequence_cons. eexists. split.
    { apply Matches_literal. eexists. split; reflexivity. }
    apply Matches_sequence_cons. eexists. split.
    { apply Matches_plus. exists ws2. eexists. split; [reflexivity|]. by repeat split. }
    apply Matches_sequence_cons. eexists. split.
    { apply Matches_literal. eexists. split; reflexivity. }
    apply Matches_sequence_cons. eexists. split.
    { apply Matches_star. exists ws3. eexists. split; [reflexivity|]. by repeat split. }
    apply Matches_sequence_cons. eexists. split.
    { apply Matches_chr. eexists. split; reflexivity. }
    apply Matches_sequence_cons. eexists. split.
    { apply Matches_star. exists ws4. eexists. split; [reflexivity|]. by repeat split. }
    apply Matches_sequence_cons. eexists. split.
    { apply Matches_chr. eexists. split; reflexivity. }
    apply Matches_sequence_nil. reflexivity.
Qed.

Lemma test_configRegex s : test configRegex s = true <-> containsDefineConfigCall s.
Proof.
  unfold test, containsDefineConfigCall. split.
  - destruct (scan _ _ _ _) as [[j y]|] eqn:Hscan; [intros _|done].
    apply scan_Some in Hscan as (pre & suf & -> & _ & Hm & _).
    destruct (proj1 (Matches_configRegex _) (ex_intro _ y Hm))
      as (ws1 & ws2 & ws3 & ws4 & rest & E & H).
    cbn [remaining startState] in E. subst suf.
    exists pre, ws1, ws2, ws3, ws4, rest. split; [done|exact H].
  - intros (pre & ws1 & ws2 & ws3 & ws4 & post & -> & H).
    destruct (proj2 (Matches_configRegex (startState 0 None pre _))
                (ex_intro _ ws1 (ex_intro _ ws2 (ex_intro _ ws3 (ex_intro _ ws4
                  (ex_intro _ post (conj eq_refl H))))))) as [y Hy].
    destruct (scan_complete _ _ _ _ _ _ Hy) as [[j z] Hz]. cbn [remaining startState] in Hz.
    by rewrite Hz.
Qed.

(** * Paths, backups and the located file *)

Lemma string_app_assoc (a b c : string) : ((a +:+ b) +:+ c = a +:+ (b +:+ c))%string.
Proof.
  induction a as [|x a IH]; [reflexivity|].
  change (String x ((a +:+ b) +:+ c) = String x (a +:+ b +:+ c)). by f_equal.
Qed.

Lemma string_app_length (a b : string) :
  String.length (a +:+ b) = (String.length a + String.length b)%nat.
Proof.
  induction a as [|x a IH]; [reflexivity|].
  change (S (String.length (a +:+ b)) = S (String.length a + String.length b)). by f_equal.
Qed.

Lemma backupName_ne p t : backupName p t <> p.
Proof.
  unfold backupName. intros E. apply (f_equal String.length) in E.
  rewrite !string_app_length in E. simpl in E. lia.
Qed.

Lemma Cli_backup_not_candidate p q t :
  In p Cli.possibleFiles -> In q Cli.possibleFiles -> backupName p t <> q.
Proof.
  unfold backupName. simpl.
  intros [<-|[<-|[<-|[]]]] [<-|[<-|[<-|[]]]]; simpl; discriminate.
Qed.

Lemma Extension_backup_not_candidate cfg root p q t :
  In p Extension.possibleFiles -> In q Extension.possibleFiles ->
  backupName (Extension.path_join cfg root p) t <> Extension.path_join cfg root q.
Proof.
  unfold backupName, Extension.path_join. intros Hp Hq E.
  rewrite !string_app_assoc in E. apply String.app_inj in E. revert E.
  destruct Hp as [<-|[<-|[<-|[]]]], Hq as [<-|[<-|[<-|[]]]]; simpl; discriminate.
Qed.

Lemma path_join_inj cfg root p q :
  Extension.path_join cfg root p = Extension.path_join cfg root q -> p = q.
Proof. unfold Extension.path_join. intros E. by apply String.app_inj in E. Qed.

Lemma find_ext_in {A} (f g : A -> bool) l :
  (forall x, In x l -> f x = g x) -> List.find f l = List.find g l.
Proof.
  induction l as [|a l IH]; intros H; simpl; [done|].
  rewrite (H a) by (by left). destruct (g a); [done|]. apply IH. intros x Hx. apply H. by right.
Qed.

(** ** The command-line script finds the same file after a patch *)

Lemma Cli_findViteConfig m : Cli.findViteConfig m = (inl (Cli.locate (disk m)), m).
Proof.
  unfold Cli.findViteConfig, Cli.locate. induction Cli.possibleFiles as [|f l IH]; simpl; [done|].
  unfold bind, existsSync. destruct (bool_decide _); [done|]. apply IH.
Qed.

Lemma Cli_locate_Some d p : Cli.locate d = Some p -> In p Cli.possibleFiles /\ is_Some (d !! p).
Proof.
  intros H. apply find_some in H as [Hin H]. split; [done|]. by apply bool_decide_eq_true in H.
Qed.

Lemma Cli_locate_stable d p t c new :
  Cli.locate d = Some p ->
  Cli.locate (<[p := new]> (<[backupName p t := c]> d)) = Some p /\
  Cli.locate (<[backupName p t := c]> d) = Some p.
Proof.
  intros H. pose proof (Cli_locate_Some _ _ H) as [Hin Hp]. rewrite <- H. unfold Cli.locate.
  split; apply find_ext_in; intros q Hq; apply bool_decide_ext.
  - destruct (decide (p = q)) as [->|Hne].
    + rewrite lookup_insert_eq. split; eauto.
    + rewrite lookup_insert_ne by done.
      rewrite lookup_insert_ne by (by apply Cli_backup_not_candidate). done.
  - rewrite lookup_insert_ne by (by apply Cli_backup_not_candidate). done.
Qed.

(** ** The same for the extension *)

Lemma Extension_findViteConfig cfg m :
  Extension.findViteConfig cfg m =
  match Extension.locate cfg (disk m) with
  | Some p => (inl (Some p), m)
  | None => if noFirstFolder cfg then (inr (Threw NoFirstFolder), m) else (inl None, m)
  end.
Proof.
  unfold Extension.findViteConfig, Extension.locate, noFirstFolder.
  destruct (Extension.workspaceFolders cfg) as [[|root folders]|]; [done| |done].
  induction Extension.possibleFiles as [|f l IH]; simpl; [done|].
  unfold bind, existsSync. destruct (bool_decide _); [done|]. apply IH.
Qed.

Lemma Extension_locate_Some cfg d p :
  Extension.locate cfg d = Some p ->
  exists root folders f,
    Extension.workspaceFolders cfg = Some (root :: folders) /\
    p = Extension.path_join cfg root f /\
    In f Extension.possibleFiles /\ is_Some (d !! p).
Proof.
  unfold Extension.locate.
  destruct (Extension.workspaceFolders cfg) as [[|root folders]|]; [done| |done].
  destruct (find _ _) as [f|] eqn:Hf; [|done]. intros H. inversion H; subst.
  apply find_some in Hf as [Hin Hf]. apply bool_decide_eq_true in Hf. by exists root, folders, f.
Qed.

Lemma Extension_locate_stable cfg d p t c new :
  Extension.locate cfg d = Some p ->
  Extension.locate cfg (<[p := new]> (<[backupName p t := c]> d)) = Some p /\
  Extension.locate cfg (<[backupName p t := c]> d) = Some p /\
  Extension.locate cfg (<[p := new]> d) = Some p.
Proof.
  intros H. destruct (Extension_locate_Some _ _ _ H)
    as (root & folders & f & Hroot & -> & Hin & Hp).
  rewrite <- H. unfold Extension.locate. rewrite Hroot.
  repeat split; f_equal; apply find_ext_in; intros q Hq; apply bool_decide_ext.
  - destruct (decide (f = q)) as [->|Hne].
    + rewrite lookup_insert_eq. split; eauto.
    + rewrite lookup_insert_ne by (intros E; by apply path_join_inj in E).
      rewrite lookup_insert_ne by (by apply Extension_backup_not_candidate). done.
  - rewrite lookup_insert_ne by (by apply Extension_backup_not_candidate). done.
  - destruct (decide (f = q)) as [->|Hne].
    + rewrite lookup_insert_eq. split; eauto.
    + rewrite lookup_insert_ne by (intros E; by apply path_join_inj in E). done.
Qed.

(** * The commands, case by case *)

Ltac io_unfold :=
  unfold bind, emit, exit, throw, ret, readFileSync, copyFileSync, writeFileSync,
    Cli.backupFile, Extension.backupIfEnabled, tryCatch.

Ltac io_simpl := io_unfold; cbn [disk trace fst snd].

Lemma insertServerHeaders_unfold server c :
  (if test configRegex c then replace configRegex 0 c (configReplacement server) else c)
  = insertServerHeaders server c.
Proof. reflexivity. Qed.

(** The directive pattern of the menus' names is the modelled one. *)
Lemma directiveName_patternCharacters d : patternCharacters (directiveName d) = true.
Proof. by destruct d. Qed.

Lemma matchDirective_plain env content directive newSource :
  patternCharacters directive = true ->
  matchDirective env content directive newSource =
  match exec (directiveRegex directive) 1 content with
  | Some m => PatternMatch (capture1 m) (spliceSource content directive (capture1 m) newSource)
  | None => PatternNoMatch
  end.
Proof. intros H. unfold matchDirective. by rewrite H. Qed.

Lemma matchDirective_appendSource env content directive source :
  patternCharacters directive = true ->
  matchDirective env content directive (quoted source) =
  match appendSource content directive source with
  | Some new => PatternMatch (default [] (directiveArray content directive)) new
  | None => PatternNoMatch
  end.
Proof.
  intros H. rewrite matchDirective_plain by done. unfold appendSource, directiveArray.
  by destruct (exec _ _ _).
Qed.

Lemma Cli_lookupDirective_known env choice d :
  Cli.directiveMap choice = Some d -> Cli.lookupDirective env choice = Some (directiveName d).
Proof. intros H. unfold Cli.lookupDirective. by rewrite H. Qed.

Lemma Cli_addCSPConfiguration_run env d :
  run (Cli.addCSPConfiguration env) d =
  match Cli.locate d with
  | None => (NoConfigFound, MkMachine d [Console Banner; Console NoConfigFileFound])
  | Some p =>
      let found := [Console Banner; Console (FoundConfig p)] in
      match d !! p with
      | None => (Threw (ReadFailed p), MkMachine d found)
      | Some content =>
          if isAlreadyPatched content then
            (AlreadyPatched, MkMachine d (found ++ [Console ConfigurationExists]))
          else
            let b := backupName p (now env) in
            let block := insertPolicyBlock Cli.CSP_POLICY_CODE content in
            let backed := found ++ [Copied p b; Console (BackupCreated b)]
                          ++ (if test configRegex block then []
                              else [Console CouldNotAddHeaders;
                                    Console (Printed Cli.VITE_CONFIG_SERVER)]) in
            if writeDenied env b then (Threw (CopyFailed p b), MkMachine d found)
            else if writeDenied env p then
              (Threw (WriteFailed p), MkMachine (<[b := content]> d) backed)
            else
              (Patched,
               MkMachine (<[p := toWellFormed
                                   (insertServerHeaders Cli.VITE_CONFIG_SERVER block)]>
                            (<[b := content]> d))
                         (backed ++ [Written p; Console ConfigurationAdded]))
      end
  end.
Proof.
  unfold run, Cli.addCSPConfiguration. io_simpl. rewrite Cli_findViteConfig. cbn [disk trace].
  destruct (Cli.locate d) as [p|]; [|done]. io_simpl.
  destruct (d !! p) as [content|] eqn:Hp; [|done]. cbn [disk trace].
  unfold isAlreadyPatched, MARKER. destruct (includes content _); [done|].
  cbn [disk trace]. rewrite Hp.
  destruct (writeDenied env (backupName p (now env))); [done|]. cbn [disk trace].
  unfold insertServerHeaders.
  destruct (test configRegex _); cbn [disk trace];
    destruct (writeDenied env p); reflexivity.
Qed.

Lemma Cli_addCSPSource_run env choice source d :
  run (Cli.addCSPSource env choice source) d =
  match Cli.locate d with
  | None => (NoConfigFound, MkMachine d [Console AddSourceBanner; Console NoConfigFileFound])
  | Some p =>
      match d !! p with
      | None => (Threw (ReadFailed p), MkMachine d [Console AddSourceBanner])
      | Some content =>
          if negb (isAlreadyPatched content) then
            (PolicyMissing, MkMachine d [Console AddSourceBanner; Console PolicyNotFound])
          else
            let asked := [Console AddSourceBanner; Console DirectiveMenu] in
            match Cli.lookupDirective env (trim choice) with
            | None => (InvalidChoice, MkMachine d (asked ++ [Console InvalidChoiceGiven]))
            | Some directive =>
                match trim source with
                | [] => (EmptySourceInput, MkMachine d (asked ++ [Console NoSourceProvided]))
                | _ :: _ =>
                    let b := backupName p (now env) in
                    let backed := asked ++ [Copied p b; Console (BackupCreated b)] in
                    if writeDenied env b then (Threw (CopyFailed p b), MkMachine d asked)
                    else
                      match matchDirective env content directive (quoted (trim source)) with
                      | PatternThrows =>
                          (Threw (PatternFailed directive), MkMachine (<[b := content]> d) backed)
                      | PatternNoMatch =>
                          (DirectiveNotFound,
                           MkMachine (<[b := content]> d)
                             (backed ++ [Console (CouldNotFind directive)]))
                      | PatternMatch _ new =>
                          if writeDenied env p then
                            (Threw (WriteFailed p), MkMachine (<[b := content]> d) backed)
                          else
                            (SourceAdded,
                             MkMachine (<[p := toWellFormed new]> (<[b := content]> d))
                               (backed ++ [Written p;
                                           Console (SourceAddedTo (quoted (trim source))
                                                      directive)]))
                      end
                end
            end
      end
  end.
Proof.
  unfold run, Cli.addCSPSource. io_simpl. rewrite Cli_findViteConfig. cbn [disk trace].
  destruct (Cli.locate d) as [p|]; [|done]. io_simpl.
  destruct (d !! p) as [content|] eqn:Hp; [|done]. cbn [disk trace].
  unfold isAlreadyPatched, MARKER. destruct (includes content _); [|done].
  cbn [negb disk trace]. destruct (Cli.lookupDirective _ _) as [directive|]; [|done].
  destruct (trim source) as [|c s]; [done|]. cbn [disk trace]. rewrite Hp.
  destruct (writeDenied env (backupName p (now env))); [done|]. cbn [disk trace].
  destruct (matchDirective _ _ _ _) as [| |orig new]; [done|done|]. cbn [disk trace].
  destruct (writeDenied env p); reflexivity.
Qed.

(** The closed form for a choice that is an entry of the menu. *)
Lemma Cli_addCSPSource_known env choice source d directive :
  Cli.directiveMap (trim choice) = Some directive ->
  run (Cli.addCSPSource env choice source) d =
  match Cli.locate d with
  | None => (NoConfigFound, MkMachine d [Console AddSourceBanner; Console NoConfigFileFound])
  | Some p =>
      match d !! p with
      | None => (Threw (ReadFailed p), MkMachine d [Console AddSourceBanner])
      | Some content =>
          if negb (isAlreadyPatched content) then
            (PolicyMissing, MkMachine d [Console AddSourceBanner; Console PolicyNotFound])
          else
            let asked := [Console AddSourceBanner; Console DirectiveMenu] in
            match trim source with
            | [] => (EmptySourceInput, MkMachine d (asked ++ [Console NoSourceProvided]))
            | _ :: _ =>
                let b := backupName p (now env) in
                let backed := asked ++ [Copied p b; Console (BackupCreated b)] in
                if writeDenied env b then (Threw (CopyFailed p b), MkMachine d asked)
                else
                  match appendSource content (directiveName directive) (trim source) with
                  | None =>
                      (DirectiveNotFound,
                       MkMachine (<[b := content]> d)
                         (backed ++ [Console (CouldNotFind (directiveName directive))]))
                  | Some new =>
                      if writeDenied env p then
                        (Threw (WriteFailed p), MkMachine (<[b := content]> d) backed)
                      else
                        (SourceAdded,
                         MkMachine (<[p := toWellFormed new]> (<[b := content]> d))
                           (backed ++ [Written p;
                                       Console (SourceAddedTo (quoted (trim source))
                                                  (directiveName directive))]))
                  end
            end
      end
  end.
Proof.
  intros Hdir. rewrite Cli_addCSPSource_run, (Cli_lookupDirective_known _ _ _ Hdir).
  destruct (Cli.locate d) as [p|]; [|done]. destruct (d !! p) as [content|]; [|done].
  destruct (negb _); [done|]. cbv zeta. destruct (trim source) as [|c s]; [done|].
  destruct (writeDenied env (backupName p (now env))); [done|].
  rewrite matchDirective_appendSource by apply directiveName_patternCharacters.
  by destruct (appendSource _ _ _).
Qed.

(** The backup step of the extension, as a function of the setting. *)
Lemma Extension_backupIfEnabled env cfg p content d tr :
  d !! p = Some content ->
  Extension.backupIfEnabled env cfg p (MkMachine d tr) =
  let b := backupName p (now env) in
  if Extension.autoBackup cfg then
    if writeDenied env b then (inr (Threw (CopyFailed p b)), MkMachine d tr)
    else (inl tt, MkMachine (<[b := content]> d) (tr ++ [Copied p b]))
  else (inl tt, MkMachine d tr).
Proof.
  intros Hp. unfold Extension.backupIfEnabled. destruct (Extension.autoBackup cfg); [|done].
  unfold copyFileSync. cbn [disk trace]. by rewrite Hp.
Qed.

Lemma Extension_addCSPConfiguration_from env cfg d tr :
  Extension.addCSPConfiguration env cfg (MkMachine d tr) =
  match Extension.locate cfg d with
  | None => notLocated cfg d tr
  | Some p =>
      match d !! p with
      | None => (inr (Threw (ReadFailed p)), MkMachine d tr)
      | Some content =>
          if isAlreadyPatched content then
            (inr AlreadyPatched, MkMachine d (tr ++ [Notified ConfigurationExists]))
          else
            let b := backupName p (now env) in
            let new := insertServerHeaders Extension.SERVER_CONFIG
                         (insertPolicyBlock Extension.CSP_POLICY_TEMPLATE content) in
            if Extension.autoBackup cfg && writeDenied env b then
              (inr (Threw (CopyFailed p b)), MkMachine d tr)
            else
              let d1 := if Extension.autoBackup cfg then <[b := content]> d else d in
              let t1 := tr ++ (if Extension.autoBackup cfg then [Copied p b] else []) in
              if writeDenied env p then (inr (Threw (WriteFailed p)), MkMachine d1 t1)
              else
                (inl Patched,
                 MkMachine (<[p := toWellFormed new]> d1)
                   (t1 ++ [Written p; Notified ConfigurationAdded; Opened p]))
      end
  end.
Proof.
  unfold Extension.addCSPConfiguration. unfold bind at 1. rewrite Extension_findViteConfig.
  cbn [disk trace]. unfold notLocated.
  destruct (Extension.locate cfg d) as [p|]; [|by destruct (noFirstFolder cfg)].
  unfold bind at 1. unfold readFileSync. cbn [disk trace].
  destruct (d !! p) as [content|] eqn:Hp; [|done].
  unfold isAlreadyPatched, MARKER. destruct (includes content _); [done|].
  unfold bind at 1. rewrite (Extension_backupIfEnabled _ _ _ _ _ _ Hp). cbn zeta.
  destruct (Extension.autoBackup cfg); cbn [andb].
  - destruct (writeDenied env (backupName p (now env))); [done|].
    io_simpl. rewrite insertServerHeaders_unfold.
    destruct (writeDenied env p); [done|]. cbn [disk trace]. by rewrite <- !app_assoc.
  - io_simpl. rewrite insertServerHeaders_unfold. rewrite app_nil_r.
    destruct (writeDenied env p); [done|]. cbn [disk trace]. by rewrite <- !app_assoc.
Qed.

Lemma Extension_addCSPSource_from env cfg addConfiguration directive source d tr :
  Extension.addCSPSource env cfg addConfiguration directive source (MkMachine d tr) =
  match Extension.locate cfg d with
  | None => notLocated cfg d tr
  | Some p =>
      match d !! p with
      | None => (inr (Threw (ReadFailed p)), MkMachine d tr)
      | Some content =>
          if negb (isAlreadyPatched content) then
            if addConfiguration then
              Extension.addCSPConfiguration env cfg (MkMachine d (tr ++ [Notified PolicyNotFound]))
            else (inr PolicyMissing, MkMachine d (tr ++ [Notified PolicyNotFound]))
          else
            match directive, source with
            | None, _ | Some _, None | Some _, Some [] => (inr Cancelled, MkMachine d tr)
            | Some directive, Some ((_ :: _) as source) =>
                let b := backupName p (now env) in
                if Extension.autoBackup cfg && writeDenied env b then
                  (inr (Threw (CopyFailed p b)), MkMachine d tr)
                else
                  let d1 := if Extension.autoBackup cfg then <[b := content]> d else d in
                  let t1 := tr ++ (if Extension.autoBackup cfg then [Copied p b] else []) in
                  match appendSource content (directiveName directive) (trim source) with
                  | None =>
                      (inr DirectiveNotFound,
                       MkMachine d1 (t1 ++ [Notified (CouldNotFind (directiveName directive))]))
                  | Some new =>
                      if writeDenied env p then (inr (Threw (WriteFailed p)), MkMachine d1 t1)
                      else
                        (inl SourceAdded,
                         MkMachine (<[p := toWellFormed new]> d1)
                           (t1 ++ [Written p;
                                   Notified (SourceAddedTo (quoted (trim source))
                                               (directiveName directive));
                                   Opened p]))
                  end
            end
      end
  end.
Proof.
  unfold Extension.addCSPSource. unfold bind at 1. rewrite Extension_findViteConfig.
  cbn [disk trace]. unfold notLocated.
  destruct (Extension.locate cfg d) as [p|]; [|by destruct (noFirstFolder cfg)].
  unfold bind at 1. unfold readFileSync. cbn [disk trace].
  destruct (d !! p) as [content|] eqn:Hp; [|done].
  unfold isAlreadyPatched, MARKER. destruct (includes content _); cbn [negb].
  2:{ unfold bind at 1. unfold emit. cbn [disk trace]. by destruct addConfiguration. }
  destruct directive as [directive|]; [|done].
  destruct source as [[|c source]|]; [done| |done].
  unfold bind at 1. rewrite (Extension_backupIfEnabled _ _ _ _ _ _ Hp). cbn zeta.
  destruct (Extension.autoBackup cfg); cbn [andb].
  - destruct (writeDenied env (backupName p (now env))); [done|].
    destruct (appendSource _ _ _) as [new|]; io_simpl; [|by rewrite <- !app_assoc].
    destruct (writeDenied env p); [done|]. cbn [disk trace]. by rewrite <- !app_assoc.
  - rewrite app_nil_r.
    destruct (appendSource _ _ _) as [new|]; io_simpl; [|done].
    destruct (writeDenied env p); [done|]. cbn [disk trace]. by rewrite <- !app_assoc.
Qed.

Lemma Extension_addSourceWithValues_from env cfg directive source d tr :
  Extension.addSourceWithValues env cfg directive source (MkMachine d tr) =
  match Extension.locate cfg d with
  | None => notLocated cfg d tr
  | Some p =>
      match d !! p with
      | None => (inr (Threw (ReadFailed p)), MkMachine d tr)
      | Some content =>
          if negb (isAlreadyPatched content) then
            (inr PolicyMissing, MkMachine d (tr ++ [Notified PolicyNotFound]))
          else
            let b := backupName p (now env) in
            if Extension.autoBackup cfg && writeDenied env b then
              (inr (Threw (CopyFailed p b)), MkMachine d tr)
            else
              let d1 := if Extension.autoBackup cfg then <[b := content]> d else d in
              let t1 := tr ++ (if Extension.autoBackup cfg then [Copied p b] else []) in
              let invalid := (inr InvalidURL, MkMachine d1 (t1 ++ [Notified InvalidUrlInError])) in
              match Extension.parseURL cfg source with
              | None => invalid
              | Some (protocol, hostname) =>
                  let newSource := quoted (protocol ++ js "//" ++ hostname) in
                  match matchDirective env content directive newSource with
                  | PatternThrows => invalid
                  | PatternNoMatch => (inr DirectiveNotFound, MkMachine d1 t1)
                  | PatternMatch originalArray new =>
                      if includes originalArray newSource then
                        (inr SourceAlreadyPresent,
                         MkMachine d1 (t1 ++ [Notified (SourceExists newSource directive)]))
                      else if writeDenied env p then invalid
                      else
                        (inl SourceAdded,
                         MkMachine (<[p := toWellFormed new]> d1)
                           (t1 ++ [Written p; Notified (SourceAddedTo newSource directive);
                                   Opened p]))
                  end
              end
      end
  end.
Proof.
  unfold Extension.addSourceWithValues. unfold bind at 1. rewrite Extension_findViteConfig.
  cbn [disk trace]. unfold notLocated.
  destruct (Extension.locate cfg d) as [p|]; [|by destruct (noFirstFolder cfg)].
  unfold bind at 1. unfold readFileSync. cbn [disk trace].
  destruct (d !! p) as [content|] eqn:Hp; [|done].
  unfold isAlreadyPatched, MARKER. destruct (includes content _); cbn [negb]; [|done].
  unfold bind at 1. rewrite (Extension_backupIfEnabled _ _ _ _ _ _ Hp). cbn zeta.
  destruct (Extension.autoBackup cfg); cbn [andb].
  - destruct (writeDenied env (backupName p (now env))); [done|].
    unfold tryCatch. destruct (Extension.parseURL cfg source) as [[protocol hostname]|]; [|done].
    destruct (matchDirective _ _ _ _) as [| |orig new]; [done|done|].
    destruct (includes orig _); [io_simpl; done|].
    io_simpl. destruct (writeDenied env p); [done|]. cbn [disk trace]. by rewrite <- !app_assoc.
  - rewrite app_nil_r.
    unfold tryCatch. destruct (Extension.parseURL cfg source) as [[protocol hostname]|]; [|done].
    destruct (matchDirective _ _ _ _) as [| |orig new]; [done|done|].
    destruct (includes orig _); [io_simpl; done|].
    io_simpl. destruct (writeDenied env p); [done|]. cbn [disk trace]. by rewrite <- !app_assoc.
Qed.

(** The same step for a directive of pattern characters. *)
Lemma Extension_addSourceWithValues_plain env cfg directive source d tr :
  patternCharacters directive = true ->
  Extension.addSourceWithValues env cfg directive source (MkMachine d tr) =
  match Extension.locate cfg d with
  | None => notLocated cfg d tr
  | Some p =>
      match d !! p with
      | None => (inr (Threw (ReadFailed p)), MkMachine d tr)
      | Some content =>
          if negb (isAlreadyPatched content) then
            (inr PolicyMissing, MkMachine d (tr ++ [Notified PolicyNotFound]))
          else
            let b := backupName p (now env) in
            if Extension.autoBackup cfg && writeDenied env b then
              (inr (Threw (CopyFailed p b)), MkMachine d tr)
            else
              let d1 := if Extension.autoBackup cfg then <[b := content]> d else d in
              let t1 := tr ++ (if Extension.autoBackup cfg then [Copied p b] else []) in
              let invalid := (inr InvalidURL, MkMachine d1 (t1 ++ [Notified InvalidUrlInError])) in
              match Extension.parseURL cfg source with
              | None => invalid
              | Some (protocol, hostname) =>
                  let newSource := quoted (protocol ++ js "//" ++ hostname) in
                  match exec (directiveRegex directive) 1 content with
                  | None => (inr DirectiveNotFound, MkMachine d1 t1)
                  | Some m =>
                      if includes (capture1 m) newSource then
                        (inr SourceAlreadyPresent,
                         MkMachine d1 (t1 ++ [Notified (SourceExists newSource directive)]))
                      else if writeDenied env p then invalid
                      else
                        (inl SourceAdded,
                         MkMachine
                           (<[p := toWellFormed
                                     (spliceSource content directive (capture1 m) newSource)]> d1)
                           (t1 ++ [Written p; Notified (SourceAddedTo newSource directive);
                                   Opened p]))
                  end
              end
      end
  end.
Proof.
  intros Hplain. rewrite Extension_addSourceWithValues_from.
  destruct (Extension.locate cfg d) as [p|]; [|done]. destruct (d !! p) as [content|]; [|done].
  destruct (negb _); [done|]. cbv zeta.
  destruct (Extension.autoBackup cfg && _); [done|].
  destruct (Extension.parseURL cfg source) as [[protocol hostname]|]; [|done].
  rewrite matchDirective_plain by done. by destruct (exec _ _ _).
Qed.

(** * Texts as they are stored *)

Lemma nextIsLow_app_plain a c b :
  isLowSurrogate c = false -> nextIsLow (a ++ c :: b) = nextIsLow a.
Proof. intros Hc. destruct a; simpl; [exact Hc|done]. Qed.

Lemma wellFormedFrom_app_plain prev a c b :
  notSurrogate c = true ->
  wellFormedFrom prev (a ++ c :: b) = wellFormedFrom prev a ++ c :: wellFormedFrom false b.
Proof.
  intros Hc. apply andb_true_iff in Hc as [Hh Hl].
  apply negb_true_iff in Hh. apply negb_true_iff in Hl.
  revert prev. induction a as [|x a IH]; intros prev; simpl.
  - by rewrite Hl, Hh.
  - rewrite IH, nextIsLow_app_plain by done. reflexivity.
Qed.

Lemma wellFormedFrom_plain prev t :
  forallb notSurrogate t = true -> wellFormedFrom prev t = t.
Proof.
  revert prev. induction t as [|c t IH]; intros prev H; simpl in *; [done|].
  apply andb_true_iff in H as [Hc Ht]. apply andb_true_iff in Hc as [Hh Hl].
  apply negb_true_iff in Hh. apply negb_true_iff in Hl. rewrite Hl, Hh. f_equal. by apply IH.
Qed.

Lemma wellFormedFrom_plain_app prev t b :
  forallb notSurrogate t = true -> t <> [] ->
  wellFormedFrom prev (t ++ b) = t ++ wellFormedFrom false b.
Proof.
  revert prev. induction t as [|c t IH]; intros prev H Hne; [done|]. simpl in *.
  apply andb_true_iff in H as [Hc Ht]. apply andb_true_iff in Hc as [Hh Hl].
  apply negb_true_iff in Hh. apply negb_true_iff in Hl. rewrite Hl, Hh. f_equal.
  destruct t as [|c' t]; [reflexivity|]. by apply IH.
Qed.

(** A text without surrogates, not empty, is stored where and as it was. *)
Lemma toWellFormed_middle a t b :
  forallb notSurrogate t = true -> t <> [] ->
  toWellFormed (a ++ t ++ b) = toWellFormed a ++ t ++ wellFormedFrom false b.
Proof.
  intros Ht Hne. destruct t as [|c t]; [done|]. simpl in Ht.
  apply andb_true_iff in Ht as [Hc Ht]. unfold toWellFormed.
  change (a ++ (c :: t) ++ b) with (a ++ c :: (t ++ b)).
  rewrite wellFormedFrom_app_plain by done. f_equal. simpl. f_equal.
  destruct t as [|c' t]; [reflexivity|]. by apply wellFormedFrom_plain_app.
Qed.

Lemma toWellFormed_plain t : forallb notSurrogate t = true -> toWellFormed t = t.
Proof. apply wellFormedFrom_plain. Qed.

Lemma length_wellFormedFrom prev s : length (wellFormedFrom prev s) = length s.
Proof. revert prev. induction s as [|c s IH]; intros prev; simpl; [done|]. by rewrite IH. Qed.

Lemma forallb_wellFormedFrom (P : jschar -> bool) prev s :
  P 65533 = true -> forallb P s = true -> forallb P (wellFormedFrom prev s) = true.
Proof.
  intros HP. revert prev. induction s as [|c s IH]; intros prev H; simpl in *; [done|].
  apply andb_true_iff in H as [Hc Hs]. rewrite (IH _ Hs), andb_true_r.
  destruct (isLowSurrogate c); [by destruct prev|].
  destruct (isHighSurrogate c); [by destruct (nextIsLow s)|done].
Qed.

Lemma includes_toWellFormed s search :
  forallb notSurrogate search = true -> search <> [] ->
  includes s search = true -> includes (toWellFormed s) search = true.
Proof.
  intros Hs Hne H. apply includes_inv in H as (a & b & ->).
  rewrite toWellFormed_middle by done. apply includes_middle.
Qed.

Lemma isAlreadyPatched_toWellFormed s :
  isAlreadyPatched s = true -> isAlreadyPatched (toWellFormed s) = true.
Proof. unfold isAlreadyPatched. by apply includes_toWellFormed. Qed.

Lemma isSpace_notSurrogate c : isSpace c = true -> notSurrogate c = true.
Proof.
  intros H. destruct (notSurrogate c) eqn:E; [done|]. exfalso.
  unfold notSurrogate, isHighSurrogate, isLowSurrogate in E.
  assert (55296 <= c <= 57343) as Hrange.
  { apply andb_false_iff in E as [E|E]; apply negb_false_iff in E;
      apply andb_true_iff in E as [E1 E2]; apply N.leb_le in E1; apply N.leb_le in E2; lia. }
  unfold isSpace, isWhiteSpace, isLineTerminator in H.
  repeat (apply orb_true_iff in H as [H|H]);
    try (apply N.eqb_eq in H; lia);
    try (apply andb_true_iff in H as [H1 H2]; apply N.leb_le in H1; apply N.leb_le in H2; lia).
Qed.

Lemma forallb_isSpace_notSurrogate ws :
  forallb isSpace ws = true -> forallb notSurrogate ws = true.
Proof.
  intros H. apply forallb_forall. intros c Hc. apply isSpace_notSurrogate.
  eapply forallb_In; eauto.
Qed.

(** The array literal of a directive without surrogates survives the
    storing of the text. *)
Lemma containsDirectiveArray_toWellFormed s d :
  forallb notSurrogate d = true ->
  containsDirectiveArray s d -> containsDirectiveArray (toWellFormed s) d.
Proof.
  intros Hd (pre & ws & body & post & -> & Hws & Hbody).
  exists (toWellFormed pre), ws, (wellFormedFrom false body), (wellFormedFrom false post).
  split; [|split; [done|by apply forallb_wellFormedFrom]].
  assert (pre ++ arrayLiteral d ws body ++ post
          = pre ++ ([39] ++ d ++ [39; 58] ++ ws ++ [91]) ++ (body ++ 93 :: post)) as ->.
  { unfold arrayLiteral. by rewrite <- !app_assoc. }
  rewrite toWellFormed_middle.
  - rewrite wellFormedFrom_app_plain by done. unfold arrayLiteral. by rewrite <- !app_assoc.
  - rewrite !forallb_app, Hd, (forallb_isSpace_notSurrogate _ Hws). reflexivity.
  - done.
Qed.

Lemma directiveName_notSurrogate d : forallb notSurrogate (directiveName d) = true.
Proof. by destruct d. Qed.

(** * Insertion of the policy block *)

(** Whatever the import pattern finds, the original text is cut in two
    and both halves are kept. *)
Lemma insertPolicyBlock_keeps_text template content :
  exists n,
    (insertPolicyBlock template content
       = take n content ++ [10] ++ template ++ [10] ++ drop n content
     \/ insertPolicyBlock template content = template ++ [10] ++ content) /\
    take n content ++ drop n content = content.
Proof.
  unfold insertPolicyBlock, slice_to, slice_from.
  destruct (exec importRegex 1 content) as [m|].
  - exists (length (matched m)). split; [by left|apply take_drop].
  - exists 0%nat. split; [by right|done].
Qed.

(** When the imports open the file, the block lands right behind the
    matched text. *)
Lemma insertPolicyBlock_after_leading_imports template content m :
  exec importRegex 1 content = Some m -> index m = 0%nat ->
  exists rest, content = matched m ++ rest /\
    insertPolicyBlock template content = matched m ++ [10] ++ template ++ [10] ++ rest.
Proof.
  intros Hexec Hidx. unfold insertPolicyBlock, slice_to, slice_from. rewrite Hexec.
  unfold exec in Hexec. destruct (scan _ _ _ _) as [[j y]|]; [|done].
  inversion Hexec; subst; clear Hexec. simpl in Hidx. subst j.
  unfold substring. cbn [matched]. rewrite drop_0, Nat.sub_0_r.
  assert (take (length (take (endIndex y) content)) content = take (endIndex y) content) as Hk.
  { rewrite length_take. destruct (Nat.min_spec (endIndex y) (length content)) as [[_ ->]|[Hle ->]];
      [done|]. rewrite firstn_all. symmetry. by apply take_ge. }
  exists (drop (length (take (endIndex y) content)) content). split.
  - rewrite <- Hk at 1. symmetry. apply take_drop.
  - by rewrite Hk.
Qed.

Lemma insertPolicyBlock_no_import template content :
  exec importRegex 1 content = None ->
  insertPolicyBlock template content = template ++ [10] ++ content.
Proof. intros H. unfold insertPolicyBlock. by rewrite H. Qed.

(** C1.  The import pattern matches the import line of [commentedConfig]
    at index 22, behind the comment, and the insert point is the length of
    the matched text, 38, counted from the start of the file: the policy
    block is put inside the import statement instead of after it. *)
Theorem insertPolicyBlock_splits_import_after_comment :
  exec importRegex 1 commentedConfig
    = Some (MkResult 22 (js "import { defineConfig } from 'vite';" ++ [10; 10])
                     [Some (js "import { defineConfig } from 'vite';" ++ [10; 10])]) /\
  insertPolicyBlock Cli.CSP_POLICY_CODE commentedConfig
    = js "// Vite configuration" ++ [10] ++ js "import { defineC"
      ++ [10] ++ Cli.CSP_POLICY_CODE ++ [10]
      ++ js "onfig } from 'vite';" ++ [10; 10]
      ++ js "export default defineConfig({});" ++ [10].
Proof. split; vm_compute; reflexivity. Qed.

(** The standard case: the policy block goes between the import line and
    [export default], and the headers object becomes the first key of the
    [defineConfig] call. *)
Example full_patch_of_template_config :
  insertServerHeaders Cli.VITE_CONFIG_SERVER
    (insertPolicyBlock Cli.CSP_POLICY_CODE templateConfig)
  = js "import { defineConfig } from 'vite';" ++ [10]
    ++ [10] ++ Cli.CSP_POLICY_CODE ++ [10]
    ++ js "export default defineConfig({" ++ Cli.VITE_CONFIG_SERVER ++ [10]
    ++ js "  plugins: []," ++ [10] ++ js "});" ++ [10].
Proof. vm_compute. reflexivity. Qed.

(** The [worker-src] array of the freshly patched file, and the array
    after one append: the line break and indentation before the closing
    bracket are trimmed away. *)
Example append_to_patched_template :
  directiveArray (insertPolicyBlock Cli.CSP_POLICY_CODE templateConfig) (js "worker-src")
    = Some ([10] ++ js "    " ++ dq ++ js "'self'" ++ dq ++ js "," ++ [10]
            ++ js "    'blob:',  // Required for libraries like gif.js" ++ [10] ++ js "  ") /\
  (appendSource (insertPolicyBlock Cli.CSP_POLICY_CODE templateConfig) (js "worker-src")
                (js "https://cdn.example.com")
     ≫= fun new => directiveArray new (js "worker-src"))
    = Some ([10] ++ js "    " ++ dq ++ js "'self'" ++ dq ++ js "," ++ [10]
            ++ js "    'blob:',  // Required for libraries like gif.js," ++ [10]
            ++ js "    'https://cdn.example.com',").
Proof. split; vm_compute; reflexivity. Qed.

(** * Appending a source *)

(** C5 as stated fails: the marker does not occur exactly once in the
    patched minimal configuration. *)
Lemma minimal_config_marker_not_once :
  ~ (occurrences MARKER (patchedText CommandLine minimalConfig) = 1%nat /\
     occurrences headersKey (patchedText CommandLine minimalConfig) = 1%nat).
Proof. vm_compute. intros [H _]. discriminate H. Qed.

(** C5, amended.  Patching the minimal configuration yields a text with
    exactly one occurrence of the headers key; the marker occurs three
    times with the template of the command-line script (declaration,
    comment above [buildCSPString], reference inside the headers object)
    and twice with the template of the extension. *)
Theorem minimal_config_occurrences cfg :
  occurrences MARKER (patchedText CommandLine minimalConfig) = 3%nat /\
  occurrences headersKey (patchedText CommandLine minimalConfig) = 1%nat /\
  occurrences MARKER (patchedText (Editor cfg) minimalConfig) = 2%nat /\
  occurrences headersKey (patchedText (Editor cfg) minimalConfig) = 1%nat.
Proof. repeat split; vm_compute; reflexivity. Qed.

(** An array located by the pattern is the first array of the text. *)
Lemma firstArrayAt_of_exec d pre ws body post :
  exec (directiveRegex d) 1 (pre ++ arrayLiteral d ws body ++ post)
    = Some (MkResult (length pre) (arrayLiteral d ws body) [Some body]) ->
  firstArrayAt (pre ++ arrayLiteral d ws body ++ post) d pre ws body post.
Proof.
  intros H. apply exec_directive_Some in H as (pre' & ws' & body' & post' & Hfirst & E).
  injection E as Hlen HL Hbody. subst body'.
  assert (ws = ws') as ->.
  { apply app_inv_head in HL. injection HL as HL. change (ws ++ [91] ++ body ++ [93] = ws' ++ [91] ++ body ++ [93]) in HL.
    by apply app_inv_tail in HL. }
  pose proof Hfirst as [(Es & _) _].
  apply app_inj_1 in Es as [-> Es]; [|done]. by apply app_inv_head in Es as <-.
Qed.

Lemma directiveArray_first d s pre ws body post :
  firstArrayAt s d pre ws body post -> directiveArray s d = Some body.
Proof. intros H. unfold directiveArray. by rewrite (exec_directive_first _ _ _ _ _ _ H). Qed.

Lemma directiveArray_Some d s body :
  directiveArray s d = Some body ->
  exists pre ws post, firstArrayAt s d pre ws body post.
Proof.
  unfold directiveArray. destruct (exec _ _ _) as [m|] eqn:Hexec; [|done].
  apply exec_directive_Some in Hexec as (pre & ws & body' & post & Hfirst & ->).
  intros H. inversion H; subst. eauto.
Qed.

(** The text after one append, and where its array is. *)
Lemma appendSource_then_first d s pre ws body post source :
  firstArrayAt s d pre ws body post -> plainName d = true ->
  noDollar d = true -> noDollar body = true -> noDollar source = true ->
  forallb notCloseBracket source = true ->
  let once := pre ++ arrayLiteral d [32] (updatedArray body (quoted source)) ++ post in
  appendSource s d source = Some once /\
  firstArrayAt once d pre [32] (updatedArray body (quoted source)) post.
Proof.
  intros Hfirst Hplain Hd Hbody Hsrc Hclose once. split.
  - by apply (appendSource_first_array d s pre ws body post source).
  - pose proof Hfirst as [(-> & _ & Hb) _].
    apply (firstArrayAt_rewrite d pre ws body post); auto.
    unfold updatedArray, quoted. rewrite !forallb_app.
    rewrite (forallb_trimEnd _ _ Hb), Hclose. reflexivity.
Qed.

(** C4 as stated fails: the array content ['self' ] ends with a space,
    and after the append the array no longer starts with that content. *)
Lemma appendSource_drops_trailing_space :
  directiveArray spacedArrayText (js "connect-src") = Some (js "'self' ") /\
  exists new,
    appendSource spacedArrayText (js "connect-src") apiSource = Some new /\
    directiveArray new (js "connect-src")
      = Some (js "'self'," ++ [10] ++ js "    'https://api.example.com',") /\
    ~ exists suffix, directiveArray new (js "connect-src") = Some (js "'self' " ++ suffix).
Proof.
  split; [vm_compute; reflexivity|]. eexists.
  split; [vm_compute; reflexivity|]. split; [vm_compute; reflexivity|].
  intros [suffix H]. vm_compute in H. discriminate H.
Qed.

(** A dollar sign in the array content is read as a substitution
    pattern by [replace]: here [$&] is expanded to the matched text. *)
Example appendSource_expands_dollar_patterns :
  appendSource (js "'img-src': ['$&']") (js "img-src") (js "data:")
  = Some (js "'img-src': [''img-src': ['$&']'," ++ [10] ++ js "    'data:',]").
Proof. vm_compute. reflexivity. Qed.

(** C4, amended.  For a text whose first array literal of the directive
    has the content [body], and with no dollar sign in [body] or in the
    source, the append step keeps everything before and after the
    literal, keeps [body] up to its trailing white space, and puts a
    comma, a line break, four spaces, the quoted source and a comma
    behind it. *)
Theorem appendSource_appends_after_trimmed_content
    content d source pre ws body post :
  firstArrayAt content (directiveName d) pre ws body post ->
  noDollar body = true -> noDollar source = true ->
  appendSource content (directiveName d) source
    = Some (pre ++ arrayLiteral (directiveName d) [32]
                     (trimEnd body ++ js "," ++ [10] ++ js "    "
                      ++ quoted source ++ js ",")
                ++ post).
Proof.
  intros Hfirst Hbody Hsrc.
  apply (appendSource_first_array _ _ pre ws body post); auto using directiveName_noDollar.
Qed.

Lemma appendSource_appends_after_trimmed_content_witness :
  appendSource spacedArrayText (js "connect-src") apiSource
  = Some (js "const CSP_POLICY = { 'connect-src': ['self',"
          ++ [10] ++ js "    'https://api.example.com',] };").
Proof.
  apply (appendSource_appends_after_trimmed_content
           (js "const CSP_POLICY = { " ++ arrayLiteral (js "connect-src") [32] (js "'self' ")
            ++ js " };")
           connect_src apiSource (js "const CSP_POLICY = { ") [32] (js "'self' ") (js " };")).
  - apply firstArrayAt_of_exec. vm_compute. reflexivity.
  - reflexivity.
  - reflexivity.
Defined.

(** C7 as stated fails on a text that contains the array literal behind
    an earlier one: the pattern takes the first literal it finds, here the
    one in the comment, and the array that holds ['self'] is left without
    the new source. *)
Lemma connect_src_append_rewrites_earlier_literal :
  includes commentedPolicy (js "'connect-src': [" ++ selfToken ++ js "]") = true /\
  appendSource commentedPolicy (js "connect-src") apiSource
  = Some (joinLines [
            js "// add sources like this: 'connect-src': [,";
            js "    'https://api.example.com',]";
            js "const CSP_POLICY = {";
            js "  'connect-src': [" ++ selfToken ++ js "],";
            js "};" ]).
Proof. split; vm_compute; reflexivity. Qed.

(** C7, amended.  On a text whose first [connect-src] array literal is
    ["'self'"], appending [https://api.example.com] yields the same text
    with that array rewritten to hold ['self'] first and the new quoted
    source after it; the text before and after the array literal, and with
    it every other directive, is untouched. *)
Theorem connect_src_append_keeps_self_first content :
  directiveArray content (js "connect-src") = Some selfToken ->
  exists pre ws post,
    content = pre ++ arrayLiteral (js "connect-src") ws selfToken ++ post /\
    let newArray := selfToken ++ js "," ++ [10] ++ js "    'https://api.example.com'," in
    let new := pre ++ arrayLiteral (js "connect-src") [32] newArray ++ post in
    appendSource content (js "connect-src") apiSource = Some new /\
    directiveArray new (js "connect-src") = Some newArray.
Proof.
  intros H. apply directiveArray_Some in H as (pre & ws & post & Hfirst).
  exists pre, ws, post. split; [by destruct Hfirst as [[? _] _]|].
  destruct (appendSource_then_first (js "connect-src") content pre ws selfToken post apiSource)
    as [Happ Hnew]; auto.
  split; [exact Happ|]. by apply directiveArray_first in Hnew.
Qed.

Lemma connect_src_append_keeps_self_first_witness :
  directiveArray selfOnlyPolicy (js "connect-src") = Some selfToken /\
  exists pre ws post,
    selfOnlyPolicy = pre ++ arrayLiteral (js "connect-src") ws selfToken ++ post /\
    let newArray := selfToken ++ js "," ++ [10] ++ js "    'https://api.example.com'," in
    let new := pre ++ arrayLiteral (js "connect-src") [32] newArray ++ post in
    appendSource selfOnlyPolicy (js "connect-src") apiSource = Some new /\
    directiveArray new (js "connect-src") = Some newArray.
Proof.
  split; [vm_compute; reflexivity|].
  apply (connect_src_append_keeps_self_first selfOnlyPolicy). vm_compute. reflexivity.
Defined.

(** * Appending the same source twice *)

Lemma updatedArray_trimmed body token : trimEnd (updatedArray body token) = updatedArray body token.
Proof.
  unfold updatedArray.
  replace (trimEnd body ++ js "," ++ [10] ++ js "    " ++ token ++ js ",")
    with ((trimEnd body ++ js "," ++ [10] ++ js "    " ++ token) ++ [44])
    by (by rewrite <- !app_assoc).
  by apply trimEnd_snoc.
Qed.

Lemma occurrences_two token a b c :
  token <> [] -> (2 <= occurrences token (a ++ token ++ b ++ token ++ c))%nat.
Proof.
  intros Hne.
  pose proof (occurrences_app_ge token a (token ++ b ++ token ++ c)).
  pose proof (occurrences_here token (b ++ token ++ c) Hne).
  pose proof (occurrences_app_ge token b (token ++ c)).
  pose proof (occurrences_here token c Hne). lia.
Qed.

(** C9 as stated fails for a source with a closing bracket: the second
    append reads the array only up to the bracket inside the token added
    first, and the quoted source occurs once afterwards. *)
Lemma append_twice_bracket_source_once :
  exists once twice,
    appendSource selfArrayText (js "connect-src") loopbackSource = Some once /\
    appendSource once (js "connect-src") loopbackSource = Some twice /\
    twice = js "'connect-src': ['self'," ++ [10] ++ js "    'http://[::1," ++ [10]
            ++ js "    'http://[::1]:5173',]:5173',]" /\
    occurrences (quoted loopbackSource) twice = 1%nat.
Proof.
  eexists. eexists. split; [vm_compute; reflexivity|].
  split; [vm_compute; reflexivity|]. split; vm_compute; reflexivity.
Qed.

(** C9, amended.  For a source without closing bracket and dollar sign,
    and array content without dollar sign, two appends of the same source
    both succeed and leave the quoted source twice in the text; nothing is
    de-duplicated.  The step behind the DevTools-error command, run on the
    text after the first append with a URL of that origin, finds the
    quoted source in the array and leaves the file as it is. *)
Theorem append_twice_inserts_twice content d source pre ws body post :
  firstArrayAt content (directiveName d) pre ws body post ->
  noDollar body = true -> noDollar source = true ->
  forallb notCloseBracket source = true ->
  let separator := js "," ++ [10] ++ js "    " in
  let once : jsstring := pre ++ arrayLiteral (directiveName d) [32]
                       (trimEnd body ++ separator ++ quoted source ++ js ",") ++ post in
  let twice : jsstring := pre ++ arrayLiteral (directiveName d) [32]
                        (trimEnd body ++ separator ++ quoted source ++ js ","
                         ++ separator ++ quoted source ++ js ",") ++ post in
  appendSource content (directiveName d) source = Some once /\
  appendSource once (directiveName d) source = Some twice /\
  (2 <= occurrences (quoted source) twice)%nat /\
  forall env cfg (files : gmap string jsstring) p url protocol hostname,
    Extension.locate cfg files = Some p -> files !! p = Some once ->
    isAlreadyPatched once = true ->
    Extension.parseURL cfg url = Some (protocol, hostname) ->
    protocol ++ js "//" ++ hostname = source ->
    Extension.autoBackup cfg && writeDenied env (backupName p (now env)) = false ->
    let r := run (Extension.addSourceWithValues env cfg (directiveName d) url) files in
    r.1 = SourceAlreadyPresent /\ disk r.2 !! p = Some once /\
    ~ In (Written p) (trace r.2).
Proof.
  intros Hfirst Hbody Hsrc Hclose separator once twice.
  pose proof (directiveName_plain d) as Hplain. pose proof (directiveName_noDollar d) as Hd.
  destruct (appendSource_then_first _ _ _ _ _ _ source Hfirst Hplain Hd Hbody Hsrc Hclose)
    as [Honce Hfirst1].
  change (pre ++ arrayLiteral (directiveName d) [32] (updatedArray body (quoted source)) ++ post)
    with once in Honce, Hfirst1.
  assert (noDollar (updatedArray body (quoted source)) = true) as Hbody1.
  { unfold updatedArray, quoted. rewrite !noDollar_app.
    assert (noDollar (trimEnd body) = true) as -> by (by apply forallb_trimEnd).
    by rewrite Hsrc. }
  destruct (appendSource_then_first _ _ _ _ _ _ source Hfirst1 Hplain Hd Hbody1 Hsrc Hclose)
    as [Htwice _].
  assert (pre ++ arrayLiteral (directiveName d) [32]
                   (updatedArray (updatedArray body (quoted source)) (quoted source)) ++ post
          = twice) as Etwice.
  { unfold twice. f_equal. f_equal. f_equal. unfold updatedArray at 1.
    rewrite updatedArray_trimmed. unfold updatedArray, separator. by rewrite <- !app_assoc. }
  rewrite Etwice in Htwice. split; [exact Honce|]. split; [exact Htwice|]. split.
  - assert (twice = (pre ++ [39] ++ directiveName d ++ [39; 58] ++ [32] ++ [91]
                       ++ trimEnd body ++ separator)
                    ++ quoted source ++ (js "," ++ separator)
                    ++ quoted source ++ (js "," ++ [93] ++ post)) as ->.
    { unfold twice, arrayLiteral. by rewrite <- !app_assoc. }
    apply occurrences_two. unfold quoted. by destruct source.
  - intros env cfg files p url protocol hostname Hloc Hp Hmark Hurl Horigin Hbackup r.
    subst r. unfold run.
    rewrite Extension_addSourceWithValues_plain by apply directiveName_patternCharacters.
    rewrite Hloc. cbn beta iota. rewrite Hp. cbn beta iota. rewrite Hmark.
    cbn [negb]. cbv zeta. rewrite Hbackup, Hurl. cbn beta iota. rewrite Horigin.
    rewrite (exec_directive_first _ _ _ _ _ _ Hfirst1). cbn beta iota.
    replace (includes (capture1 _) (quoted source)) with true.
    2:{ symmetry. unfold capture1. cbn [groups lookup list_lookup mjoin option_join default
                                         from_option id].
        unfold updatedArray. rewrite (app_assoc (js ",")), (app_assoc (js "," ++ [10])).
        rewrite app_assoc. apply includes_middle. }
    cbn [fst snd disk trace]. split; [done|]. split.
    + destruct (Extension.autoBackup cfg); [|done].
      rewrite lookup_insert_ne by apply backupName_ne. done.
    + destruct (Extension.autoBackup cfg); simpl; intuition discriminate.
Qed.

(** * The full patch *)

Lemma includes_insertPolicyBlock template content search :
  includes template search = true ->
  includes (insertPolicyBlock template content) search = true.
Proof.
  intros H. unfold insertPolicyBlock. destruct (exec importRegex 1 content) as [m|].
  - apply includes_app_r, includes_app_r, includes_app_l, H.
  - apply includes_app_l, H.
Qed.

Lemma replace_plain r n s value :
  noDollar value = true ->
  replace r n s value = s \/ exists a b, replace r n s value = a ++ value ++ b.
Proof.
  intros H. unfold replace. destruct (exec r n s) as [m|]; [right|by left].
  rewrite GetSubstitution_plain by done. eauto.
Qed.

Lemma includes_insertServerHeaders server content search :
  noDollar (configReplacement server) = true ->
  includes (configReplacement server) search = true ->
  includes content search = true ->
  includes (insertServerHeaders server content) search = true.
Proof.
  intros Hplain Hserver Hcontent. unfold insertServerHeaders.
  destruct (test configRegex content); [|done].
  destruct (replace_plain configRegex 0 content _ Hplain) as [->|(a & b & ->)]; [done|].
  apply includes_app_r, includes_app_l, Hserver.
Qed.

(** Every patched text carries the marker. *)
Lemma patchedText_marked s content : isAlreadyPatched (patchedText s content) = true.
Proof.
  unfold isAlreadyPatched, patchedText.
  apply includes_insertServerHeaders; [| |apply includes_insertPolicyBlock];
    destruct s; vm_compute; reflexivity.
Qed.

(** The headers step does nothing on a text without the call shape. *)
Lemma insertServerHeaders_without_call server content :
  ~ containsDefineConfigCall content -> insertServerHeaders server content = content.
Proof.
  intros H. unfold insertServerHeaders. destruct (test configRegex content) eqn:E; [|done].
  by apply test_configRegex in E.
Qed.

(** * Backups *)

Ltac written_leaf Hin :=
  first
    [ discriminate Hin
    | exfalso; exact Hin
    | injection Hin as <-; eexists; split; [reflexivity|]; split; [eassumption|];
      split; [reflexivity|];
      rewrite lookup_insert_ne by (apply not_eq_sym, backupName_ne);
      apply lookup_insert_eq ].

Ltac solve_backedUp :=
  split;
  [ intros q Hin; simpl in Hin;
    repeat (destruct Hin as [Hin|Hin]; [written_leaf Hin|]); written_leaf Hin
  | intros p' Hloc' Hdenied; simplify_eq; first [done | congruence] ].

Lemma Cli_addCSPConfiguration_backedUp env (files : gmap string jsstring) :
  backedUp CommandLine env files (run (Cli.addCSPConfiguration env) files).
Proof.
  rewrite Cli_addCSPConfiguration_run. unfold backedUp. cbn [located].
  destruct (Cli.locate files) as [p|] eqn:Hloc; [|solve_backedUp].
  cbv zeta. destruct (files !! p) as [content|] eqn:Hp; [|solve_backedUp].
  destruct (isAlreadyPatched content); [solve_backedUp|].
  destruct (writeDenied env (backupName p (now env))) eqn:Hb; [solve_backedUp|].
  destruct (writeDenied env p); destruct (test configRegex _); cbn [fst snd disk trace];
    solve_backedUp.
Qed.

Lemma Cli_addCSPSource_backedUp env choice source (files : gmap string jsstring) :
  backedUp CommandLine env files (run (Cli.addCSPSource env choice source) files).
Proof.
  rewrite Cli_addCSPSource_run. unfold backedUp. cbn [located].
  destruct (Cli.locate files) as [p|] eqn:Hloc; [|solve_backedUp].
  destruct (files !! p) as [content|] eqn:Hp; [|solve_backedUp].
  destruct (isAlreadyPatched content); cbn [negb]; [|solve_backedUp].
  cbv zeta. destruct (Cli.lookupDirective _ _) as [directive|]; [|solve_backedUp].
  destruct (trim source) as [|c t]; [solve_backedUp|].
  destruct (writeDenied env (backupName p (now env))) eqn:Hb; [solve_backedUp|].
  destruct (matchDirective _ _ _ _) as [| |orig new]; [solve_backedUp|solve_backedUp|].
  destruct (writeDenied env p); cbn [fst snd disk trace]; solve_backedUp.
Qed.

Lemma run_finish p d : run p d = finish (p (MkMachine d [])).
Proof. reflexivity. Qed.

Lemma Extension_addCSPConfiguration_backedUp env cfg (files : gmap string jsstring) tr :
  Extension.autoBackup cfg = true -> tr = [] \/ tr = [Notified PolicyNotFound] ->
  backedUp (Editor cfg) env files
    (finish (Extension.addCSPConfiguration env cfg (MkMachine files tr))).
Proof.
  intros Hauto Htr. rewrite Extension_addCSPConfiguration_from. unfold backedUp. cbn [located].
  destruct (Extension.locate cfg files) as [p|] eqn:Hloc;
    [|unfold notLocated; destruct (noFirstFolder cfg); destruct Htr as [-> | ->];
      solve_backedUp].
  destruct (files !! p) as [content|] eqn:Hp; [|destruct Htr as [-> | ->]; solve_backedUp].
  destruct (isAlreadyPatched content); [destruct Htr as [-> | ->]; solve_backedUp|].
  cbv zeta. rewrite Hauto. cbn [andb].
  destruct (writeDenied env (backupName p (now env))) eqn:Hb;
    [destruct Htr as [-> | ->]; solve_backedUp|].
  destruct (writeDenied env p); cbn [finish fst snd disk trace];
    destruct Htr as [-> | ->]; solve_backedUp.
Qed.

Lemma Extension_addCSPSource_backedUp env cfg addConfiguration directive source
    (files : gmap string jsstring) :
  Extension.autoBackup cfg = true ->
  backedUp (Editor cfg) env files
    (run (Extension.addCSPSource env cfg addConfiguration directive source) files).
Proof.
  intros Hauto. rewrite run_finish, Extension_addCSPSource_from.
  destruct (Extension.locate cfg files) as [p|] eqn:Hloc.
  2:{ unfold backedUp, notLocated. cbn [located]. rewrite Hloc.
      destruct (noFirstFolder cfg); solve_backedUp. }
  destruct (files !! p) as [content|] eqn:Hp.
  2:{ unfold backedUp. cbn [located]. rewrite Hloc. solve_backedUp. }
  destruct (isAlreadyPatched content); cbn [negb].
  2:{ destruct addConfiguration.
      - apply Extension_addCSPConfiguration_backedUp; auto.
      - unfold backedUp. cbn [located]. rewrite Hloc. solve_backedUp. }
  unfold backedUp. cbn [located]. rewrite Hloc.
  destruct directive as [directive|]; [|solve_backedUp].
  destruct source as [[|c source]|]; [solve_backedUp| |solve_backedUp].
  cbv zeta. rewrite Hauto. cbn [andb].
  destruct (writeDenied env (backupName p (now env))) eqn:Hb; [solve_backedUp|].
  destruct (appendSource _ _ _) as [new|]; [|solve_backedUp].
  destruct (writeDenied env p); cbn [finish fst snd disk trace]; solve_backedUp.
Qed.

Lemma Extension_addSourceWithValues_backedUp env cfg directive source
    (files : gmap string jsstring) :
  Extension.autoBackup cfg = true ->
  backedUp (Editor cfg) env files
    (run (Extension.addSourceWithValues env cfg directive source) files).
Proof.
  intros Hauto. rewrite run_finish, Extension_addSourceWithValues_from.
  unfold backedUp. cbn [located].
  destruct (Extension.locate cfg files) as [p|] eqn:Hloc;
    [|unfold notLocated; destruct (noFirstFolder cfg); solve_backedUp].
  destruct (files !! p) as [content|] eqn:Hp; [|solve_backedUp].
  destruct (isAlreadyPatched content); cbn [negb]; [|solve_backedUp].
  cbv zeta. rewrite Hauto. cbn [andb].
  destruct (writeDenied env (backupName p (now env))) eqn:Hb; [solve_backedUp|].
  destruct (Extension.parseURL cfg source) as [[protocol hostname]|]; [|solve_backedUp].
  destruct (matchDirective _ _ _ _) as [| |orig new]; [solve_backedUp|solve_backedUp|].
  destruct (includes _ _); [solve_backedUp|].
  destruct (writeDenied env p); cbn [finish fst snd disk trace]; solve_backedUp.
Qed.

(** C3 as stated fails: with [viteCsp.autoBackup] switched off the
    extension overwrites the configuration file and no backup exists. *)
Lemma extension_overwrites_without_backup :
  let r := run (Extension.addCSPConfiguration someEnv noBackupSettings)
               (workspaceDisk minimalConfig) in
  r.1 = Patched /\
  fileEvents (trace r.2) = [Written "/ws/vite.config.ts"%string] /\
  disk r.2 = workspaceDisk (patchedText (Editor noBackupSettings) minimalConfig).
Proof. vm_compute. repeat split; reflexivity. Qed.

(** C3, amended.  On the command line always, and in the extension when
    [viteCsp.autoBackup] is set: an invocation that overwrites a file
    overwrites the located configuration file only, after exactly one
    copy of it to the backup path, and that copy holds the original
    content when the invocation ends; if the backup path cannot be
    written, the invocation leaves the whole disk as it was. *)
Theorem backup_precedes_every_write i env (files : gmap string jsstring) :
  backupsEnabled (surface i) = true ->
  let r := run (invoke i env) files in
  (forall q, In (Written q) (trace r.2) ->
     exists content,
       located (surface i) files = Some q /\ files !! q = Some content /\
       fileEvents (trace r.2) = [Copied q (backupName q (now env)); Written q] /\
       disk r.2 !! backupName q (now env) = Some content) /\
  (forall p, located (surface i) files = Some p ->
     writeDenied env (backupName p (now env)) = true ->
     disk r.2 = files /\ fileEvents (trace r.2) = []).
Proof.
  intros Hauto r. subst r. destruct i; cbn [invoke surface backupsEnabled] in *.
  - apply Cli_addCSPConfiguration_backedUp.
  - apply Cli_addCSPSource_backedUp.
  - rewrite run_finish. apply Extension_addCSPConfiguration_backedUp; auto.
  - by apply Extension_addCSPSource_backedUp.
  - by apply Extension_addSourceWithValues_backedUp.
Qed.

(** * A directive that is not there *)

Lemma appendSource_None content d source :
  ~ containsDirectiveArray content d -> appendSource content d source = None.
Proof.
  intros H. unfold appendSource. destruct (exec _ _ _) as [m|] eqn:E; [|done].
  exfalso. apply H. apply exec_directive_Some in E as (pre & ws & body & post & [Hat _] & _).
  by exists pre, ws, body, post.
Qed.

(** C6.  On a text without an array literal for the directive the append
    step fails and produces no text; the commands that reach it then
    leave the configuration file as it was and write nothing to it, and
    the two interactive ones end with [DirectiveNotFound] when the
    operator's answers and the backup let them reach that step. *)
Theorem appendSource_without_directive_array content d :
  ~ containsDirectiveArray content (directiveName d) ->
  (forall source, appendSource content (directiveName d) source = None) /\
  (forall env choice source (files : gmap string jsstring) p,
     Cli.locate files = Some p -> files !! p = Some content ->
     Cli.directiveMap (trim choice) = Some d ->
     let r := run (Cli.addCSPSource env choice source) files in
     disk r.2 !! p = Some content /\ ~ In (Written p) (trace r.2) /\
     (isAlreadyPatched content = true -> trim source <> [] ->
      writeDenied env (backupName p (now env)) = false -> r.1 = DirectiveNotFound)) /\
  (forall env cfg addConfiguration source (files : gmap string jsstring) p,
     Extension.locate cfg files = Some p -> files !! p = Some content ->
     isAlreadyPatched content = true ->
     let r := run (Extension.addCSPSource env cfg addConfiguration (Some d) (Some source))
                  files in
     disk r.2 !! p = Some content /\ ~ In (Written p) (trace r.2) /\
     (source <> [] ->
      Extension.autoBackup cfg && writeDenied env (backupName p (now env)) = false ->
      r.1 = DirectiveNotFound)) /\
  (forall env cfg url (files : gmap string jsstring) p,
     Extension.locate cfg files = Some p -> files !! p = Some content ->
     let r := run (Extension.addSourceWithValues env cfg (directiveName d) url) files in
     disk r.2 !! p = Some content /\ ~ In (Written p) (trace r.2)).
Proof.
  intros Hnone. split; [intros; by apply appendSource_None|]. split; [|split].
  - intros env choice source files p Hloc Hp Hdir r. subst r.
    rewrite (Cli_addCSPSource_known _ _ _ _ _ Hdir).
    rewrite Hloc. cbn beta iota. rewrite Hp. cbn beta iota.
    destruct (isAlreadyPatched content); cbn [negb].
    2:{ cbn [fst snd disk trace]. split; [done|]. split; [|done]. simpl. intuition discriminate. }
    cbv zeta.
    destruct (trim source) as [|c t] eqn:Hsrc.
    { cbn [fst snd disk trace]. split; [done|]. split; [|done]. simpl. intuition discriminate. }
    destruct (writeDenied env (backupName p (now env))).
    { cbn [fst snd disk trace]. split; [done|]. split; [|done]. simpl. intuition discriminate. }
    rewrite (appendSource_None _ _ _ Hnone). cbn [fst snd disk trace].
    split; [by rewrite lookup_insert_ne by apply backupName_ne|].
    split; [simpl; intuition discriminate|done].
  - intros env cfg addConfiguration source files p Hloc Hp Hmark r. subst r.
    rewrite run_finish, Extension_addCSPSource_from.
    rewrite Hloc. cbn beta iota. rewrite Hp. cbn beta iota. rewrite Hmark. cbn [negb].
    destruct source as [|c source].
    { cbn [finish fst snd disk trace]. split; [done|]. split; [|done]. simpl. tauto. }
    cbv zeta. rewrite (appendSource_None _ _ _ Hnone).
    destruct (Extension.autoBackup cfg); cbn [andb].
    + destruct (writeDenied env (backupName p (now env))); cbn [finish fst snd disk trace].
      * split; [done|]. split; [|done]. simpl. tauto.
      * split; [by rewrite lookup_insert_ne by apply backupName_ne|].
        split; [simpl; intuition discriminate|done].
    + cbn [finish fst snd disk trace]. split; [done|].
      split; [simpl; intuition discriminate|done].
  - intros env cfg url files p Hloc Hp r. subst r.
    rewrite run_finish.
    rewrite Extension_addSourceWithValues_plain by apply directiveName_patternCharacters.
    rewrite Hloc. cbn beta iota. rewrite Hp. cbn beta iota.
    assert (exec (directiveRegex (directiveName d)) 1 content = None) as ->.
    { destruct (exec _ _ _) as [m|] eqn:E; [|done]. exfalso. apply Hnone.
      apply exec_directive_Some in E as (pre & ws & body & post & [Hat _] & _).
      by exists pre, ws, body, post. }
    destruct (isAlreadyPatched content); cbn [negb].
    2:{ cbn [finish fst snd disk trace]. split; [done|]. simpl. intuition discriminate. }
    cbv zeta. destruct (Extension.autoBackup cfg); cbn [andb].
    + destruct (writeDenied env (backupName p (now env))).
      { cbn [finish fst snd disk trace]. split; [done|]. simpl. tauto. }
      destruct (Extension.parseURL cfg url) as [[protocol hostname]|];
        cbn [finish fst snd disk trace];
        (split; [by rewrite lookup_insert_ne by apply backupName_ne|]);
        simpl; intuition discriminate.
    + destruct (Extension.parseURL cfg url) as [[protocol hostname]|];
        cbn [finish fst snd disk trace]; (split; [done|]); simpl; intuition discriminate.
Qed.

(** C10.  When the command-line [--add-source] mode ends with
    [DirectiveNotFound], the backup copy has been made (the copy precedes
    the message about the missing directive in the trace), the disk
    differs from the original one by the backup file alone, and the
    configuration file still has its content.  The directive named in the
    message is what the menu table gave for the choice: the name of one
    of its six entries or the text of a member it inherits. *)
Theorem cli_add_source_backs_up_before_directive_check
    env choice source (files : gmap string jsstring) :
  (run (Cli.addCSPSource env choice source) files).1 = DirectiveNotFound ->
  exists p content directive,
    Cli.locate files = Some p /\ files !! p = Some content /\
    Cli.lookupDirective env (trim choice) = Some directive /\
    (forall d, Cli.directiveMap (trim choice) = Some d -> directive = directiveName d) /\
    let b := backupName p (now env) in
    let r := run (Cli.addCSPSource env choice source) files in
    disk r.2 = <[b := content]> files /\
    disk r.2 !! b = Some content /\
    disk r.2 !! p = Some content /\
    trace r.2 = [Console AddSourceBanner; Console DirectiveMenu; Copied p b;
                 Console (BackupCreated b); Console (CouldNotFind directive)].
Proof.
  rewrite Cli_addCSPSource_run.
  destruct (Cli.locate files) as [p|] eqn:Hloc; [|done].
  destruct (files !! p) as [content|] eqn:Hp; [|done].
  destruct (isAlreadyPatched content); cbn [negb]; [|done].
  cbv zeta. destruct (Cli.lookupDirective _ _) as [directive|] eqn:Hdir; [|done].
  destruct (trim source) as [|c t]; [done|].
  destruct (writeDenied env (backupName p (now env))); [done|].
  destruct (matchDirective _ _ _ _) as [| |orig new]; [done| |].
  2:{ destruct (writeDenied env p); done. }
  intros _. exists p, content, directive. cbn [fst snd disk trace].
  split; [done|]. split; [done|]. split; [done|]. split.
  { intros d Hd. rewrite (Cli_lookupDirective_known _ _ _ Hd) in Hdir. congruence. }
  repeat split; auto.
  - apply lookup_insert_eq.
  - by rewrite lookup_insert_ne by apply backupName_ne.
Qed.

(** * Configurations without the call shape *)

(** The command-line script prints the headers literal whenever the
    patched text lacks the call shape. *)
Lemma cli_prints_manual_instructions env (files : gmap string jsstring) p content :
  Cli.locate files = Some p -> files !! p = Some content ->
  isAlreadyPatched content = false ->
  writeDenied env (backupName p (now env)) = false ->
  ~ containsDefineConfigCall (insertPolicyBlock Cli.CSP_POLICY_CODE content) ->
  In (Console (Printed Cli.VITE_CONFIG_SERVER))
     (trace (run (Cli.addCSPConfiguration env) files).2).
Proof.
  intros Hloc Hp Hmark Hb Hcall. rewrite Cli_addCSPConfiguration_run.
  rewrite Hloc. cbn beta iota zeta. rewrite Hp. cbn beta iota. rewrite Hmark, Hb.
  destruct (test configRegex _) eqn:E; [by apply test_configRegex in E|].
  destruct (writeDenied env p); cbn [snd trace]; simpl; tauto.
Qed.

(** C8.  On [commonJsConfig] the headers step changes nothing on either
    surface.  The command-line script then prints the headers literal;
    the extension writes the file, reports success and shows neither a
    warning nor the literal. *)
Theorem extension_skips_manual_instructions :
  ~ containsDefineConfigCall (insertPolicyBlock Extension.CSP_POLICY_TEMPLATE commonJsConfig) /\
  (let r := run (Cli.addCSPConfiguration someEnv) (cliDisk commonJsConfig) in
   r.1 = Patched /\
   trace r.2 = [Console Banner; Console (FoundConfig "vite.config.js");
                Copied "vite.config.js" "vite.config.js.backup.1700000000000";
                Console (BackupCreated "vite.config.js.backup.1700000000000");
                Console CouldNotAddHeaders; Console (Printed Cli.VITE_CONFIG_SERVER);
                Written "vite.config.js"; Console ConfigurationAdded]%string) /\
  (let r := run (Extension.addCSPConfiguration someEnv backupSettings)
                (workspaceDisk commonJsConfig) in
   r.1 = Patched /\
   trace r.2 = [Copied "/ws/vite.config.ts" "/ws/vite.config.ts.backup.1700000000000";
                Written "/ws/vite.config.ts"; Notified ConfigurationAdded;
                Opened "/ws/vite.config.ts"]%string /\
   disk r.2 !! "/ws/vite.config.ts"%string
     = Some (Extension.CSP_POLICY_TEMPLATE ++ [10] ++ commonJsConfig)).
Proof.
  split; [|split].
  - intros H. apply test_configRegex in H. vm_compute in H. discriminate H.
  - vm_compute. split; reflexivity.
  - vm_compute. repeat split; reflexivity.
Qed.

(** * The theorems at concrete inputs *)

Lemma backup_precedes_every_write_witness :
  exists content,
    located CommandLine (cliDisk minimalConfig) = Some "vite.config.js"%string /\
    cliDisk minimalConfig !! "vite.config.js"%string = Some content /\
    fileEvents (trace (run (invoke CliFullPatch someEnv) (cliDisk minimalConfig)).2)
      = [Copied "vite.config.js" (backupName "vite.config.js" (now someEnv));
         Written "vite.config.js"]%string /\
    disk (run (invoke CliFullPatch someEnv) (cliDisk minimalConfig)).2
      !! backupName "vite.config.js" (now someEnv) = Some content.
Proof.
  apply (proj1 (backup_precedes_every_write CliFullPatch someEnv (cliDisk minimalConfig)
                  eq_refl) "vite.config.js"%string).
  vm_compute. tauto.
Defined.

Lemma appendSource_without_directive_array_witness :
  appendSource emptyPolicy (directiveName connect_src) apiSource = None /\
  (run (Cli.addCSPSource someEnv (js "4") apiSource) (cliDisk emptyPolicy)).1
    = DirectiveNotFound.
Proof.
  assert (~ containsDirectiveArray emptyPolicy (directiveName connect_src)) as Hnone.
  { apply exec_directive_None. vm_compute. reflexivity. }
  destruct (appendSource_without_directive_array emptyPolicy connect_src Hnone)
    as (Htext & Hcli & _ & _).
  split; [apply Htext|].
  apply (Hcli someEnv (js "4") apiSource (cliDisk emptyPolicy) "vite.config.js"%string);
    try (vm_compute; reflexivity).
  vm_compute. discriminate.
Defined.

Lemma cli_add_source_backs_up_before_directive_check_witness :
  exists p content directive,
    Cli.locate (cliDisk emptyPolicy) = Some p /\ cliDisk emptyPolicy !! p = Some content /\
    Cli.lookupDirective someEnv (trim (js "constructor")) = Some directive /\
    (forall d, Cli.directiveMap (trim (js "constructor")) = Some d ->
               directive = directiveName d) /\
    let b := backupName p (now someEnv) in
    let r := run (Cli.addCSPSource someEnv (js "constructor") apiSource)
                 (cliDisk emptyPolicy) in
    disk r.2 = <[b := content]> (cliDisk emptyPolicy) /\
    disk r.2 !! b = Some content /\
    disk r.2 !! p = Some content /\
    trace r.2 = [Console AddSourceBanner; Console DirectiveMenu; Copied p b;
                 Console (BackupCreated b); Console (CouldNotFind directive)].
Proof.
  apply (cli_add_source_backs_up_before_directive_check someEnv (js "constructor") apiSource
           (cliDisk emptyPolicy)).
  vm_compute. reflexivity.
Defined.

(** The same run, read off: the message names the text of the inherited
    member, and the backup is on the disk. *)
Example cli_add_source_with_inherited_member :
  let r := run (Cli.addCSPSource someEnv (js "constructor") apiSource) (cliDisk emptyPolicy) in
  r.1 = DirectiveNotFound /\
  trace r.2 = [Console AddSourceBanner; Console DirectiveMenu;
               Copied "vite.config.js" "vite.config.js.backup.1700000000000";
               Console (BackupCreated "vite.config.js.backup.1700000000000");
               Console (CouldNotFind (js "function Object() { [native code] }"))]%string /\
  disk r.2 !! "vite.config.js.backup.1700000000000"%string = Some emptyPolicy.
Proof. vm_compute. repeat split; reflexivity. Qed.

Lemma append_twice_inserts_twice_witness :
  exists once twice,
    appendSource selfPolicy (directiveName connect_src) apiSource = Some once /\
    appendSource once (directiveName connect_src) apiSource = Some twice /\
    (2 <= occurrences (quoted apiSource) twice)%nat /\
    (run (Extension.addSourceWithValues someEnv backupSettings (directiveName connect_src)
            (js "https://api.example.com/v1/users?id=1"))
         (workspaceDisk once)).1 = SourceAlreadyPresent.
Proof.
  destruct (append_twice_inserts_twice
              (js "const CSP_POLICY = { " ++ arrayLiteral (js "connect-src") [32] (js "'self'")
               ++ js " };")
              connect_src apiSource (js "const CSP_POLICY = { ") [32] (js "'self'") (js " };"))
    as (Honce & Htwice & Hcount & Hdev).
  - apply firstArrayAt_of_exec. vm_compute. reflexivity.
  - reflexivity.
  - reflexivity.
  - reflexivity.
  - eexists. eexists. split; [exact Honce|]. split; [exact Htwice|]. split; [exact Hcount|].
    apply (Hdev someEnv backupSettings _ "/ws/vite.config.ts"%string
             (js "https://api.example.com/v1/users?id=1") (js "https:") (js "api.example.com"));
      vm_compute; reflexivity.
Defined.

(** * Locating the configuration file *)

Lemma find_first {A} (f : A -> bool) l x :
  List.find f l = Some x ->
  exists before after, l = before ++ x :: after /\ f x = true /\
                       forall y, In y before -> f y = false.
Proof.
  induction l as [|a l IH]; [done|]. simpl. destruct (f a) eqn:Ha.
  - intros E. inversion E; subst. exists [], l. repeat split; auto. intros y [].
  - intros E. destruct (IH E) as (before & after & -> & Hx & Hbefore).
    exists (a :: before), after. repeat split; auto. intros y [<-|Hy]; auto.
Qed.

(** X1.  [findViteConfig] changes nothing and returns the first of
    [vite.config.ts], [vite.config.js], [vite.config.mjs] that exists:
    the file returned exists and every candidate listed before it is
    absent; nothing is returned exactly when none of the three exists.
    The extension does the same below its first workspace folder, with
    the paths [path.join] gives; it returns nothing when the folder list
    is undefined, and throws when the list is empty. *)
Theorem findViteConfig_first_existing (m : Machine) :
  (exists found, Cli.findViteConfig m = (inl found, m) /\
     match found with
     | Some p =>
         exists before after, Cli.possibleFiles = before ++ p :: after /\
           is_Some (disk m !! p) /\ forall q, In q before -> disk m !! q = None
     | None => forall q, In q Cli.possibleFiles -> disk m !! q = None
     end) /\
  (forall cfg,
     match Extension.workspaceFolders cfg with
     | None => Extension.findViteConfig cfg m = (inl None, m)
     | Some [] => Extension.findViteConfig cfg m = (inr (Threw NoFirstFolder), m)
     | Some (root :: _) =>
         exists found, Extension.findViteConfig cfg m = (inl found, m) /\
           match found with
           | Some p =>
               exists before file after,
                 Extension.possibleFiles = before ++ file :: after /\
                 p = Extension.path_join cfg root file /\ is_Some (disk m !! p) /\
                 forall q, In q before -> disk m !! Extension.path_join cfg root q = None
           | None =>
               forall q, In q Extension.possibleFiles ->
                         disk m !! Extension.path_join cfg root q = None
           end
     end).
Proof.
  split.
  - exists (Cli.locate (disk m)). split; [apply Cli_findViteConfig|].
    unfold Cli.locate. destruct (find _ _) as [p|] eqn:E.
    + apply find_first in E as (before & after & E & Hp & Hbefore).
      exists before, after. split; [done|]. split; [by apply bool_decide_eq_true in Hp|].
      intros q Hq. specialize (Hbefore q Hq). apply bool_decide_eq_false in Hbefore.
      by apply eq_None_not_Some.
    + intros q Hq. pose proof (find_none _ _ E q Hq) as H. apply bool_decide_eq_false in H.
      by apply eq_None_not_Some.
  - intros cfg. pose proof (Extension_findViteConfig cfg m) as Hfind.
    unfold Extension.locate, noFirstFolder in Hfind.
    destruct (Extension.workspaceFolders cfg) as [[|root folders]|]; [exact Hfind| |exact Hfind].
    destruct (find _ _) as [file|] eqn:E; cbn [fmap option_fmap option_map] in Hfind.
    + eexists. split; [exact Hfind|].
      apply find_first in E as (before & after & E & Hp & Hbefore).
      exists before, file, after. split; [done|]. split; [done|].
      split; [by apply bool_decide_eq_true in Hp|].
      intros q Hq. specialize (Hbefore q Hq). apply bool_decide_eq_false in Hbefore.
      by apply eq_None_not_Some.
    + eexists. split; [exact Hfind|].
      intros q Hq. pose proof (find_none _ _ E q Hq) as H. apply bool_decide_eq_false in H.
      by apply eq_None_not_Some.
Qed.

(** * Backup names *)

(** X2.  The backup path differs from the path it is derived from, and
    two backups of one file taken at different clock values have
    different paths: an invocation overwrites an earlier backup only
    when [Date.now()] returns the same number. *)
Theorem backupName_distinct p t t' :
  backupName p t <> p /\ (backupName p t = backupName p t' <-> t = t').
Proof.
  split; [apply backupName_ne|]. split; [|by intros ->].
  unfold backupName. intros E. apply String.app_inj in E. apply String.app_inj in E.
  apply Unsigned.to_uint_inj.
  pose proof (NilEmpty.usu (N.to_uint t)) as H1. pose proof (NilEmpty.usu (N.to_uint t')) as H2.
  rewrite E in H1. congruence.
Qed.

(** * Greedy repetition takes every iteration it can *)

Section Greedy.
Variable m : Matcher.
Variable R : MatchState -> MatchState -> Prop.
Variable parens : list nat.
Hypothesis m_sound : sound m R.
Hypothesis m_complete : complete m R.
Hypothesis R_advances : advances R.

(** With a continuation that accepts every state, a greedy unbounded
    repetition stops only where no further iteration that consumes
    input is possible. *)
Lemma RepeatMatcher_greedy_stops fuel :
  forall min x z,
    (min + length (remaining x) < fuel)%nat ->
    RepeatMatcher m fuel min None true parens x (fun y => Some y) = Some z ->
    forall w, R (resetCaptures parens z) w -> endIndex w = endIndex z.
Proof.
  induction fuel as [|fuel IH]; intros min x z Hfuel H; [done|].
  simpl in H. destruct (Nat.eqb min 0) eqn:Hmin; simpl in H.
  - apply Nat.eqb_eq in Hmin. subst min.
    destruct (m (resetCaptures parens x) _) as [z0|] eqn:Hz.
    + injection H as ->. apply m_sound in Hz as (y & Hxy & Hd).
      destruct (Nat.eqb (endIndex y) (endIndex x)) eqn:Hprog; [done|].
      apply Nat.eqb_neq in Hprog. apply R_advances in Hxy as (taken & E & L).
      simpl in E, L. apply (IH 0%nat y z); [|exact Hd].
      rewrite E, length_app in Hfuel. destruct taken; simpl in *; lia.
    + injection H as <-. intros w Hw.
      destruct (decide (endIndex w = endIndex x)) as [|Hprog]; [done|]. exfalso.
      match type of Hz with
      | ?t = None => assert (is_Some t) as [? Hsome]; [|congruence]
      end.
      eapply m_complete; [exact Hw|]. cbn beta.
      apply Nat.eqb_neq in Hprog. rewrite Hprog. apply Nat.eqb_neq in Hprog.
      apply (RepeatMatcher_complete m R true parens m_complete R_advances 0%nat None w w).
      * constructor. by left.
      * apply R_advances in Hw as (taken & E & L). simpl in E, L.
        rewrite E, length_app in Hfuel. destruct taken; simpl in *; lia.
      * done.
  - apply Nat.eqb_neq in Hmin. apply m_sound in H as (y & Hxy & Hd).
    apply R_advances in Hxy as (taken & E & L). simpl in E, L.
    apply (IH (Nat.pred min) y z); [|exact Hd].
    rewrite E, length_app in Hfuel. lia.
Qed.
End Greedy.

(** The matcher run behind a successful scan. *)
Lemma scan_Some_run r i last rest j y :
  scan r i last rest = Some (j, y) ->
  exists pre suf, rest = pre ++ suf /\ j = (i + length pre)%nat /\
    CompileSubpattern r (startState i last pre suf) (fun z => Some z) = Some y.
Proof.
  revert i last. induction rest as [|ch rest IH]; intros i last H; simpl in H.
  - destruct (CompileSubpattern r _ Some) as [z|] eqn:Hz; [|done].
    injection H as <- <-. exists [], []. unfold startState; simpl.
    rewrite Nat.add_0_r. by repeat split.
  - destruct (CompileSubpattern r _ Some) as [z|] eqn:Hz.
    + injection H as <- <-. exists [], (ch :: rest). unfold startState; simpl.
      rewrite Nat.add_0_r. by repeat split.
    + apply IH in H as (pre & suf & -> & -> & Hrun).
      exists (ch :: pre), suf. unfold startState in *; simpl.
      rewrite Nat.add_succ_r. by repeat split.
Qed.

(** * What the import pattern matches *)

Lemma importRegex_unfold :
  importRegex = sequence [LineStart true; Quant (Group 1 importBody) 1 None true [1%nat]].
Proof. reflexivity. Qed.

Lemma Matches_optional A x y :
  Matches (Quant (CharSet A) 0 (Some 1%nat) true []) x y <->
  y = x \/ exists ch rest, remaining x = ch :: rest /\ A ch = true /\ y = advance x [ch] rest.
Proof.
  change (Matches (Quant (CharSet A) 0 (Some 1%nat) true []) x y)
    with (Repeats (Matches (CharSet A)) [] 0 (Some 1%nat) x y).
  split.
  - intros H. inversion H as [? ? ? _|? ? ? y' ? _ Hxy _ Hrest]; subst; [by left|right].
    rewrite resetCaptures_nil in Hxy. apply Matches_CharSet in Hxy as (ch & rest & E & HA & ->).
    exists ch, rest. split; [done|]. split; [done|]. simpl in Hrest.
    inversion Hrest as [|? ? ? ? ? Hmax]; subst; [done|]. by destruct Hmax.
  - intros [->|(ch & rest & E & HA & ->)]; [constructor; by left|].
    eapply (Repeats_step _ _ _ _ _ (advance x [ch] rest)); [done| | |].
    + rewrite resetCaptures_nil. apply Matches_CharSet. by exists ch, rest.
    + intros _. simpl. lia.
    + constructor. by right.
Qed.

Lemma Matches_lazy_any x y :
  Matches (Quant (CharSet anyChar) 0 None false []) x y <->
  exists run rest, remaining x = run ++ rest /\ y = advance x run rest.
Proof.
  change (Matches (Quant (CharSet anyChar) 0 None false []) x y)
    with (Repeats (Matches (CharSet anyChar)) [] 0 None x y).
  rewrite Repeats_CharSet. split.
  - intros (run & rest & ? & ? & ? & ?). by exists run, rest.
  - intros (run & rest & ? & ?). exists run, rest. repeat split; auto; [|lia].
    by apply forallb_forall.
Qed.

Lemma remaining_advance x s rest : remaining (advance x s rest) = rest.
Proof. reflexivity. Qed.

Lemma endIndex_advance x s rest : endIndex (advance x s rest) = (endIndex x + length s)%nat.
Proof. reflexivity. Qed.

(** One pass through the body of the group reads one import statement. *)
Lemma Matches_importBody x y :
  Matches importBody x y ->
  exists s, importStatement s /\ remaining x = s ++ remaining y /\
            endIndex y = (endIndex x + length s)%nat /\ captures y = captures x.
Proof.
  unfold importBody. intros H.
  next_term H x1 H1. apply Matches_literal in H1 as (r1 & E1 & ->).
  next_term H x2 H2. apply Matches_lazy_any in H2 as (mid & r2 & E2 & ->).
  next_term H x3 H3. apply Matches_literal in H3 as (r3 & E3 & ->).
  next_term H x4 H4. apply Matches_plus in H4 as (ws & r4 & E4 & Hws & Hne & ->).
  next_term H x5 H5. apply Matches_CharSet in H5 as (q1 & r5 & E5 & Hq1 & ->).
  next_term H x6 H6. apply Matches_plus in H6 as (name & r6 & E6 & Hname & Hnn & ->).
  next_term H x7 H7. apply Matches_CharSet in H7 as (q2 & r7 & E7 & Hq2 & ->).
  next_term H x8 H8. apply Matches_optional in H8.
  next_term H x9 H9. apply Matches_star in H9 as (trail & r9 & E9 & Htrail & ->).
  apply Matches_sequence_nil in H as ->.
  rewrite !remaining_advance in *. subst r1 r2 r3 r4 r5 r6.
  destruct H8 as [->|(ch & r8 & E8 & Hch & ->)].
  - rewrite remaining_advance in E9. subst r7.
    exists (js "import" ++ mid ++ js "from" ++ ws ++ [q1] ++ name ++ [q2] ++ [] ++ trail).
    split; [|split; [|split]].
    + exists mid, ws, q1, name, q2, [], trail. repeat split; auto.
    + rewrite E1. by norm_app.
    + rewrite !endIndex_advance. norm_len. unfold jsstring, jschar in *. lia.
    + reflexivity.
  - rewrite remaining_advance in E9. subst r7 r8. apply N.eqb_eq in Hch as <-.
    exists (js "import" ++ mid ++ js "from" ++ ws ++ [q1] ++ name ++ [q2] ++ [59] ++ trail).
    split; [|split; [|split]].
    + exists mid, ws, q1, name, q2, [59], trail. repeat split; auto.
    + rewrite E1. by norm_app.
    + rewrite !endIndex_advance. norm_len. unfold jsstring, jschar in *. lia.
    + reflexivity.
Qed.

(** Conversely every import statement can be read by the body. *)
Lemma importBody_reads s x rest :
  importStatement s -> remaining x = s ++ rest ->
  exists y, Matches importBody x y /\ remaining y = rest.
Proof.
  intros (mid & ws & q1 & name & q2 & semi & trail & -> & Hne & Hws & Hq1 & Hnn & Hname & Hq2
          & Hsemi & Htrail) E.
  destruct Hsemi as [->| ->]; rewrite <- ?app_assoc in E;
  unfold importBody; (eexists; split; [|shelve]);
  (apply Matches_sequence_cons; eexists; split;
    [apply Matches_literal; eexists; split; [exact E|reflexivity]|]);
  (apply Matches_sequence_cons; eexists; split;
    [apply Matches_lazy_any; exists mid; eexists; split; reflexivity|]);
  (apply Matches_sequence_cons; eexists; split;
    [apply Matches_literal; eexists; split; reflexivity|]);
  (apply Matches_sequence_cons; eexists; split;
    [apply Matches_plus; exists ws; eexists; split; [reflexivity|by repeat split]|]);
  (apply Matches_sequence_cons; eexists; split;
    [apply Matches_CharSet; exists q1; eexists; split; [reflexivity|by split]|]);
  (apply Matches_sequence_cons; eexists; split;
    [apply Matches_plus; exists name; eexists; split; [reflexivity|by repeat split]|]);
  (apply Matches_sequence_cons; eexists; split;
    [apply Matches_CharSet; exists q2; eexists; split; [reflexivity|by split]|]).
  - apply Matches_sequence_cons; eexists; split.
    { apply Matches_optional. left. reflexivity. }
    apply Matches_sequence_cons; eexists; split.
    { apply Matches_star. exists trail. eexists. split; [reflexivity|by split]. }
    apply Matches_sequence_nil. reflexivity.
  - apply Matches_sequence_cons; eexists; split.
    { apply Matches_optional. right. exists 59. eexists. split; [reflexivity|by split]. }
    apply Matches_sequence_cons; eexists; split.
    { apply Matches_star. exists trail. eexists. split; [reflexivity|by split]. }
    apply Matches_sequence_nil. reflexivity.
  Unshelve. all: reflexivity.
Qed.

Lemma Repeats_importGroup min max x y :
  Repeats (Matches (Group 1 importBody)) [1%nat] min max x y -> max = None ->
  exists l, Forall importStatement l /\ (min <= length l)%nat /\
            remaining x = concat l ++ remaining y /\
            endIndex y = (endIndex x + length (concat l))%nat.
Proof.
  induction 1 as [min max x Hstop|min max x y z Hmax Hxy Hprog Hrest IH]; intros ->.
  - destruct Hstop as [->|?]; [|done]. exists []. simpl. repeat split; auto.
  - destruct IH as (l & Hl & Hmin & Hrem & Hend); [done|].
    destruct Hxy as (y0 & Hbody & ->).
    apply Matches_importBody in Hbody as (s & Hs & Hrem0 & Hend0 & _).
    exists (s :: l). cbn [concat setCapture resetCaptures remaining endIndex] in *.
    split; [by constructor|]. split; [simpl; lia|]. split.
    + by rewrite Hrem0, Hrem, app_assoc.
    + rewrite Hend, Hend0, length_app. lia.
Qed.

Lemma importStatement_reads_group s x rest :
  importStatement s -> remaining x = s ++ rest ->
  exists y, Matches importRegex x y \/ atLineStart true x = false.
Proof.
  intros Hs E. destruct (atLineStart true x) eqn:Hline; [|by exists x; right].
  destruct (importBody_reads s (resetCaptures [1%nat] x) rest Hs E) as (y & Hy & Hrest).
  exists (setCapture 1 (resetCaptures [1%nat] x) y). left.
  rewrite importRegex_unfold. apply Matches_sequence_cons. exists x. split; [by split|].
  apply Matches_sequence_cons. eexists. split; [|by apply Matches_sequence_nil].
  change (Repeats (Matches (Group 1 importBody)) [1%nat] 1 None x
            (setCapture 1 (resetCaptures [1%nat] x) y)).
  eapply Repeats_step; [done| |done|].
  - exists y. split; [exact Hy|reflexivity].
  - constructor. by left.
Qed.

Lemma importStatement_nonempty s : importStatement s -> s <> [].
Proof. by intros (mid & ws & q1 & name & q2 & semi & trail & -> & _). Qed.

Lemma CompileSubpattern_importRegex x c :
  CompileSubpattern importRegex x c =
  let run := RepeatMatcher (CompileSubpattern (Group 1 importBody))
               (S (1 + length (remaining x))) 1 None true [1%nat] x c in
  match lastChar x with
  | None => run
  | Some ch => if isLineTerminator ch then run else None
  end.
Proof. reflexivity. Qed.

(** No import statement can be read right behind a greedy run of them. *)
Lemma importRegex_run_maximal x y :
  CompileSubpattern importRegex x (fun z => Some z) = Some y ->
  forall s t, importStatement s -> remaining y <> s ++ t.
Proof.
  intros Hrun s t Hs E.
  assert (RepeatMatcher (CompileSubpattern (Group 1 importBody))
            (S (1 + length (remaining x))) 1 None true [1%nat] x (fun z => Some z) = Some y)
    as Hrep.
  { rewrite CompileSubpattern_importRegex in Hrun. cbv zeta in Hrun.
    destruct (lastChar x) as [ch|]; [|exact Hrun].
    destruct (isLineTerminator ch); [exact Hrun|done]. }
  pose proof (RepeatMatcher_greedy_stops _ _ [1%nat]
                (CompileSubpattern_sound (Group 1 importBody))
                (CompileSubpattern_complete (Group 1 importBody))
                (Matches_advances (Group 1 importBody))
                (S (1 + length (remaining x))) 1%nat x y) as Hstop.
  specialize (Hstop ltac:(lia) Hrep).
  destruct (importBody_reads s (resetCaptures [1%nat] y) t Hs E) as (w & Hw & Hrest).
  specialize (Hstop (setCapture 1 (resetCaptures [1%nat] y) w)).
  cbn [setCapture endIndex] in Hstop.
  destruct (Matches_advances importBody _ _ Hw) as (taken & Et & Lt).
  cbn [resetCaptures remaining endIndex] in Et, Lt.
  rewrite E, Hrest in Et. apply app_inv_tail in Et. subst taken.
  assert (endIndex w = endIndex y) as Heq.
  { apply Hstop. exists w. split; [exact Hw|reflexivity]. }
  apply importStatement_nonempty in Hs. destruct s; [done|]. simpl in Lt. lia.
Qed.

(** What a match of the import pattern looks like: the matched text is a
    run of import statements, it starts at the beginning of the text or
    right behind a line terminator, and no import statement follows it
    directly. *)
Lemma exec_importRegex_Some content m :
  exec importRegex 1 content = Some m ->
  exists pre post,
    content = pre ++ matched m ++ post /\ index m = length pre /\
    importRun (matched m) /\
    (pre = [] \/ exists pre' ch, pre = pre' ++ [ch] /\ isLineTerminator ch = true) /\
    (forall s t, importStatement s -> post <> s ++ t).
Proof.
  unfold exec. destruct (scan _ _ _ _) as [[j y]|] eqn:Hscan; [|done].
  intros H. inversion H; subst m; clear H. cbn [matched index].
  apply scan_Some_run in Hscan as (pre & suf & -> & -> & Hrun).
  pose proof (importRegex_run_maximal _ _ Hrun) as Hmax.
  apply CompileSubpattern_sound in Hrun as (y' & Hm & Hy'). injection Hy' as Hy'. subst y'.
  rewrite importRegex_unfold in Hm.
  next_term Hm x1 H1. destruct H1 as [-> Hline].
  next_term Hm x2 H2. apply Matches_sequence_nil in Hm as ->.
  apply Repeats_importGroup in H2 as (l & Hl & Hmin & Hrem & Hend); [|done].
  cbn [startState remaining endIndex] in *. subst suf.
  exists pre, (remaining x2).
  assert (substring (pre ++ concat l ++ remaining x2) (0 + length pre) (endIndex x2) = concat l)
    as ->.
  { eapply substring_middle; [reflexivity|lia|]. rewrite Hend. lia. }
  split; [done|]. split; [done|]. split; [|split; [|exact Hmax]].
  - exists l. split; [|done]. intros ->. simpl in Hmin. lia.
  - unfold atLineStart, startState in Hline. cbn [lastChar] in Hline.
    destruct pre as [|c pre] using rev_ind; [by left|right].
    exists pre, c. split; [done|]. unfold lastOf in Hline. rewrite foldl_app in Hline.
    simpl in Hline. exact Hline.
Qed.

(** A text that opens with an import statement is matched at index 0. *)
Lemma exec_importRegex_start s rest :
  importStatement s ->
  exists m, exec importRegex 1 (s ++ rest) = Some m /\ index m = 0%nat.
Proof.
  intros Hs.
  destruct (importStatement_reads_group s (startState 0 None [] (s ++ rest)) rest Hs eq_refl)
    as (y & [Hy|Hline]); [|done].
  unfold exec. destruct (scan importRegex 0 None (s ++ rest)) as [[j z]|] eqn:Hscan.
  - eexists. split; [reflexivity|]. cbn [index].
    apply scan_Some in Hscan as (pre & suf & E & -> & _ & Hleft).
    destruct pre as [|c pre]; [done|]. exfalso.
    apply (Hleft [] (s ++ rest) y); [done|simpl; lia|exact Hy].
  - exfalso. by apply (scan_None _ _ _ _ Hscan [] (s ++ rest) y).
Qed.

Lemma importStatement_includes s :
  importStatement s -> includes s (js "import") = true /\ includes s (js "from") = true.
Proof.
  intros (mid & ws & q1 & name & q2 & semi & trail & -> & _). split.
  - apply includes_here, startsWith_app.
  - rewrite (app_assoc (js "import") mid). apply includes_middle.
Qed.

Lemma importRun_includes s :
  importRun s -> includes s (js "import") = true /\ includes s (js "from") = true.
Proof.
  intros (l & Hne & Hl & ->). destruct l as [|s l]; [done|].
  apply Forall_cons in Hl as [Hs _]. apply importStatement_includes in Hs as [H1 H2].
  simpl. split; by apply includes_app_l.
Qed.

(** X3.  A text in which the word import or the word from does not occur
    has nothing the import pattern can match: the policy block, followed
    by a line feed, is put in front of the unchanged text. *)
Theorem insertPolicyBlock_without_imports template content :
  includes content (js "import") = false \/ includes content (js "from") = false ->
  insertPolicyBlock template content = template ++ [10] ++ content.
Proof.
  intros H. apply insertPolicyBlock_no_import.
  destruct (exec importRegex 1 content) as [m|] eqn:Hexec; [exfalso|done].
  apply exec_importRegex_Some in Hexec as (pre & post & E & _ & Hrun & _).
  apply importRun_includes in Hrun as [H1 H2].
  assert (includes content (js "import") = true) as H1'.
  { rewrite E. by apply includes_app_r, includes_app_l. }
  assert (includes content (js "from") = true) as H2'.
  { rewrite E. by apply includes_app_r, includes_app_l. }
  destruct H; congruence.
Qed.

Lemma insertPolicyBlock_without_imports_witness :
  insertPolicyBlock Cli.CSP_POLICY_CODE commonJsConfig
    = Cli.CSP_POLICY_CODE ++ [10] ++ commonJsConfig.
Proof.
  apply (insertPolicyBlock_without_imports Cli.CSP_POLICY_CODE commonJsConfig).
  left. vm_compute. reflexivity.
Defined.

(** X4.  When the text opens with an import statement, the policy block
    goes behind the import statements at the head of the text: the result
    is a run of import statements, a line feed, the block, a line feed,
    and then the rest of the text unchanged, and that rest does not begin
    with another import statement. *)
Theorem insertPolicyBlock_after_import_run template s rest :
  importStatement s ->
  exists run rest',
    s ++ rest = run ++ rest' /\ importRun run /\
    (forall s' t, importStatement s' -> rest' <> s' ++ t) /\
    insertPolicyBlock template (s ++ rest) = run ++ [10] ++ template ++ [10] ++ rest'.
Proof.
  intros Hs. destruct (exec_importRegex_start s rest Hs) as (m & Hexec & Hidx).
  destruct (insertPolicyBlock_after_leading_imports template _ m Hexec Hidx) as (rest' & E & Hins).
  apply exec_importRegex_Some in Hexec as (pre & post & E' & Hpre & Hrun & _ & Hmax).
  rewrite Hidx in Hpre. destruct pre; [|done]. simpl in E'. rewrite E in E'.
  apply app_inv_head in E'. subst post.
  by exists (matched m), rest'.
Qed.

Lemma insertPolicyBlock_after_import_run_witness :
  exists run rest',
    importLine ++ js "export default defineConfig({});" = run ++ rest' /\ importRun run /\
    (forall s' t, importStatement s' -> rest' <> s' ++ t) /\
    insertPolicyBlock Cli.CSP_POLICY_CODE (importLine ++ js "export default defineConfig({});")
    = run ++ [10] ++ Cli.CSP_POLICY_CODE ++ [10] ++ rest'.
Proof.
  apply (insertPolicyBlock_after_import_run Cli.CSP_POLICY_CODE importLine
           (js "export default defineConfig({});")).
  exists (js " { defineConfig } "), [32], 39, (js "vite"), 39, [59], [10].
  split; [reflexivity|]. repeat split; first [done | by right].
Defined.

(** * The headers step *)

Lemma Matches_configRegex_end x y :
  Matches configRegex x y ->
  exists ws1 ws2 ws3 ws4 rest,
    remaining x = callShape ws1 ws2 ws3 ws4 ++ rest /\
    ws1 <> [] /\ ws2 <> [] /\
    forallb isSpace ws1 = true /\ forallb isSpace ws2 = true /\
    forallb isSpace ws3 = true /\ forallb isSpace ws4 = true /\
    endIndex y = (endIndex x + length (callShape ws1 ws2 ws3 ws4))%nat.
Proof.
  unfold configRegex. intros H.
  next_term H x1 H1. apply Matches_literal in H1 as (r1 & E1 & ->).
  next_term H x2 H2. apply Matches_plus in H2 as (ws1 & r2 & E2 & Hws1 & Hne1 & ->).
  next_term H x3 H3. apply Matches_literal in H3 as (r3 & E3 & ->).
  next_term H x4 H4. apply Matches_plus in H4 as (ws2 & r4 & E4 & Hws2 & Hne2 & ->).
  next_term H x5 H5. apply Matches_literal in H5 as (r5 & E5 & ->).
  next_term H x6 H6. apply Matches_star in H6 as (ws3 & r6 & E6 & Hws3 & ->).
  next_term H x7 H7. apply Matches_chr in H7 as (r7 & E7 & ->).
  next_term H x8 H8. apply Matches_star in H8 as (ws4 & r8 & E8 & Hws4 & ->).
  next_term H x9 H9. apply Matches_chr in H9 as (r9 & E9 & ->).
  apply Matches_sequence_nil in H as ->.
  cbn [remaining advance] in *. subst.
  exists ws1, ws2, ws3, ws4, r9. unfold callShape. repeat split; auto.
  - rewrite E1. by rewrite <- !app_assoc.
  - rewrite !endIndex_advance, !length_app. unfold jsstring, jschar in *. simpl. lia.
Qed.

Lemma callShape_unique ws1 ws2 ws3 ws4 post ws1' ws2' ws3' ws4' post' :
  forallb isSpace ws1 = true -> forallb isSpace ws2 = true ->
  forallb isSpace ws3 = true -> forallb isSpace ws4 = true ->
  forallb isSpace ws1' = true -> forallb isSpace ws2' = true ->
  forallb isSpace ws3' = true -> forallb isSpace ws4' = true ->
  callShape ws1 ws2 ws3 ws4 ++ post = callShape ws1' ws2' ws3' ws4' ++ post' ->
  ws1 = ws1' /\ ws2 = ws2' /\ ws3 = ws3' /\ ws4 = ws4' /\ post = post'.
Proof.
  intros H1 H2 H3 H4 H1' H2' H3' H4' E. unfold callShape in E.
  rewrite <- !app_assoc in E. apply app_inv_head in E.
  apply (span_unique isSpace ws1 ws1' 100 100
           (js "efault" ++ ws2 ++ js "defineConfig" ++ ws3 ++ [40] ++ ws4 ++ [123] ++ post)
           (js "efault" ++ ws2' ++ js "defineConfig" ++ ws3' ++ [40] ++ ws4' ++ [123] ++ post'))
    in E as (-> & _ & E); [|done..].
  apply app_inv_head in E.
  apply (span_unique isSpace ws2 ws2' 100 100
           (js "efineConfig" ++ ws3 ++ [40] ++ ws4 ++ [123] ++ post)
           (js "efineConfig" ++ ws3' ++ [40] ++ ws4' ++ [123] ++ post'))
    in E as (-> & _ & E); [|done..].
  apply app_inv_head in E.
  apply (span_unique isSpace ws3 ws3' 40 40 (ws4 ++ [123] ++ post) (ws4' ++ [123] ++ post'))
    in E as (-> & _ & E); [|done..].
  apply (span_unique isSpace ws4 ws4' 123 123 post post') in E as (-> & _ & ->); done.
Qed.

Lemma callAt_same_position s pre ws1 ws2 ws3 ws4 post pre' ws1' ws2' ws3' ws4' post' :
  callAt s pre ws1 ws2 ws3 ws4 post -> callAt s pre' ws1' ws2' ws3' ws4' post' ->
  length pre = length pre' ->
  pre = pre' /\ callShape ws1 ws2 ws3 ws4 = callShape ws1' ws2' ws3' ws4' /\ post = post'.
Proof.
  intros (E & _ & _ & H1 & H2 & H3 & H4) (E' & _ & _ & H1' & H2' & H3' & H4') Hlen.
  rewrite E in E'. apply app_inj_1 in E' as [-> E']; [|done]. split; [done|].
  apply callShape_unique in E' as (-> & -> & -> & -> & ->); auto.
Qed.

Lemma callAt_Matches pre ws1 ws2 ws3 ws4 post s :
  callAt s pre ws1 ws2 ws3 ws4 post ->
  exists y, Matches configRegex (startState 0 None pre (callShape ws1 ws2 ws3 ws4 ++ post)) y.
Proof.
  intros (E & H). apply Matches_configRegex. exists ws1, ws2, ws3, ws4, post.
  split; [|exact H]. cbn [remaining startState]. unfold callShape. by rewrite <- !app_assoc.
Qed.

Lemma exec_configRegex_Some s m :
  exec configRegex 0 s = Some m ->
  exists pre ws1 ws2 ws3 ws4 post,
    firstCallAt s pre ws1 ws2 ws3 ws4 post /\
    m = MkResult (length pre) (callShape ws1 ws2 ws3 ws4) [].
Proof.
  unfold exec. destruct (scan _ _ _ _) as [[j y]|] eqn:Hscan; [|done].
  intros H. inversion H; subst m; clear H.
  apply scan_Some in Hscan as (pre & suf & -> & -> & Hm & Hleft).
  apply Matches_configRegex_end in Hm
    as (ws1 & ws2 & ws3 & ws4 & post & E & Hne1 & Hne2 & H1 & H2 & H3 & H4 & Hend).
  cbn [remaining startState endIndex] in *. subst suf.
  exists pre, ws1, ws2, ws3, ws4, post. split; [split|].
  - by repeat split.
  - intros pre' ws1' ws2' ws3' ws4' post' Hat.
    destruct (decide (length pre' < length pre)%nat) as [Hlt|]; [|lia].
    exfalso. destruct (callAt_Matches _ _ _ _ _ _ _ Hat) as [y' Hy'].
    destruct Hat as [E' _]. exact (Hleft pre' _ y' E' Hlt Hy').
  - cbn [seq map]. f_equal.
    apply (substring_middle _ pre _ post); [done|lia|]. rewrite Hend. lia.
Qed.

Lemma exec_configRegex_first s pre ws1 ws2 ws3 ws4 post :
  firstCallAt s pre ws1 ws2 ws3 ws4 post ->
  exec configRegex 0 s = Some (MkResult (length pre) (callShape ws1 ws2 ws3 ws4) []).
Proof.
  intros [Hat Hfirst]. destruct (exec configRegex 0 s) as [m|] eqn:Hexec.
  - apply exec_configRegex_Some in Hexec
      as (pre1 & a1 & a2 & a3 & a4 & post1 & [Hat1 Hfirst1] & ->).
    assert (length pre1 = length pre) as Hlen by (apply Nat.le_antisymm; eauto).
    destruct (callAt_same_position _ _ _ _ _ _ _ _ _ _ _ _ _ Hat1 Hat Hlen) as (-> & -> & ->).
    done.
  - exfalso. unfold exec in Hexec.
    destruct (scan configRegex 0 None s) as [[j y]|] eqn:Hscan; [done|].
    destruct (callAt_Matches _ _ _ _ _ _ _ Hat) as [y Hy]. destruct Hat as [E _].
    exact (scan_None _ _ _ _ Hscan pre _ y E Hy).
Qed.

Lemma firstCallAt_contains s pre ws1 ws2 ws3 ws4 post :
  firstCallAt s pre ws1 ws2 ws3 ws4 post -> containsDefineConfigCall s.
Proof.
  intros [(E & H) _]. exists pre, ws1, ws2, ws3, ws4, post. split; [|exact H].
  rewrite E. unfold callShape. by rewrite <- !app_assoc.
Qed.

Lemma containsDefineConfigCall_first s :
  containsDefineConfigCall s -> exists pre ws1 ws2 ws3 ws4 post, firstCallAt s pre ws1 ws2 ws3 ws4 post.
Proof.
  intros H. apply test_configRegex in H. unfold test in H.
  destruct (exec configRegex 0 s) as [m|] eqn:Hexec.
  - apply exec_configRegex_Some in Hexec as (pre & a1 & a2 & a3 & a4 & post & Hfirst & _).
    by exists pre, a1, a2, a3, a4, post.
  - unfold exec in Hexec. by destruct (scan configRegex 0 None s) as [[j y]|].
Qed.

(** The headers step at the first call shape. *)
Lemma insertServerHeaders_first_call server content pre ws1 ws2 ws3 ws4 post :
  firstCallAt content pre ws1 ws2 ws3 ws4 post ->
  noDollar server = true ->
  insertServerHeaders server content = pre ++ configReplacement server ++ post.
Proof.
  intros Hfirst Hplain. unfold insertServerHeaders.
  assert (test configRegex content = true) as ->.
  { apply test_configRegex. eapply firstCallAt_contains; eauto. }
  unfold replace. rewrite (exec_configRegex_first _ _ _ _ _ _ _ Hfirst).
  cbn [index matched groups]. rewrite GetSubstitution_plain.
  - destruct Hfirst as [(-> & _) _]. rewrite take_app_length. f_equal. f_equal.
    rewrite app_assoc, <- length_app. apply drop_app_length.
  - unfold configReplacement. by rewrite noDollar_app, Hplain.
Qed.

(** X5.  The headers step rewrites the first call shape of the text and
    nothing else: whatever white space the call was written with, it is
    replaced by the fixed opening [export default defineConfig({]
    followed by the server literal, and the text before and after it is
    kept.  (The server literal has no dollar sign, so it is spliced in
    literally.) *)
Theorem insertServerHeaders_at_first_call server content pre ws1 ws2 ws3 ws4 post :
  firstCallAt content pre ws1 ws2 ws3 ws4 post ->
  noDollar server = true ->
  insertServerHeaders server content = pre ++ configReplacement server ++ post.
Proof. apply insertServerHeaders_first_call. Qed.

(** * Where a match can lie *)

(** A text that avoids a separator lies on one side of it. *)
Lemma split_at_separator (A B x m y : jsstring) sep :
  A ++ sep :: B = x ++ m ++ y -> m <> [] -> ~ In sep m ->
  (exists A', A = x ++ m ++ A' /\ y = A' ++ sep :: B) \/
  (exists B', B = B' ++ m ++ y /\ x = A ++ sep :: B').
Proof.
  intros E Hne Hsep. apply app_eq_app in E as [l [[-> E]|[-> E]]].
  - apply app_eq_app in E as [l2 [[Hm E]|[-> E]]].
    + destruct l2 as [|c l2].
      * left. exists []. rewrite app_nil_r in Hm. subst m. by rewrite app_nil_r.
      * exfalso. inversion E; subst. apply Hsep, in_app_iff. right. by left.
    + left. by exists l2.
  - destruct l as [|c l]; simpl in E.
    + exfalso. destruct m as [|c m]; [done|]. inversion E; subst. apply Hsep. by left.
    + inversion E; subst. right. by exists l.
Qed.

Lemma callShape_chars ws1 ws2 ws3 ws4 :
  forallb isSpace ws1 = true -> forallb isSpace ws2 = true ->
  forallb isSpace ws3 = true -> forallb isSpace ws4 = true ->
  forallb isCallChar (callShape ws1 ws2 ws3 ws4) = true.
Proof.
  intros H1 H2 H3 H4.
  assert (forall ws, forallb isSpace ws = true -> forallb isCallChar ws = true) as Hws.
  { intros ws H. apply forallb_forall. intros c Hc. unfold isCallChar.
    by rewrite (forallb_In _ _ _ H Hc). }
  unfold callShape. rewrite !forallb_app, (Hws ws1 H1), (Hws ws2 H2), (Hws ws3 H3), (Hws ws4 H4). reflexivity.
Qed.

Lemma callShape_avoids c ws1 ws2 ws3 ws4 :
  forallb isSpace ws1 = true -> forallb isSpace ws2 = true ->
  forallb isSpace ws3 = true -> forallb isSpace ws4 = true ->
  isCallChar c = false -> ~ In c (callShape ws1 ws2 ws3 ws4).
Proof.
  intros H1 H2 H3 H4 Hc Hin.
  pose proof (forallb_In _ _ _ (callShape_chars _ _ _ _ H1 H2 H3 H4) Hin). congruence.
Qed.

Lemma callShape_export ws1 ws2 ws3 ws4 :
  exists t, callShape ws1 ws2 ws3 ws4 = js "export" ++ t.
Proof. eexists. reflexivity. Qed.

Lemma includes_infix (s a b search t : jsstring) :
  s = a ++ (search ++ t) ++ b -> includes s search = true.
Proof. intros ->. rewrite <- app_assoc. apply includes_middle. Qed.

(** The headers step keeps the array literal of every directive whose
    name does not contain the word export. *)
Lemma insertServerHeaders_keeps_array server content d :
  noDollar server = true -> forallb notCloseBracket server = true ->
  includes d (js "export") = false ->
  containsDirectiveArray content d ->
  containsDirectiveArray (insertServerHeaders server content) d.
Proof.
  intros Hplain Hserver Hd Harr.
  destruct (test configRegex content) eqn:Htest.
  2:{ unfold insertServerHeaders. by rewrite Htest. }
  apply test_configRegex, containsDefineConfigCall_first in Htest
    as (pre & ws1 & ws2 & ws3 & ws4 & post & Hfirst).
  rewrite (insertServerHeaders_first_call _ _ _ _ _ _ _ _ Hfirst Hplain).
  destruct Hfirst as [(E & Hne1 & _ & H1 & H2 & H3 & H4) _].
  destruct Harr as (P & ws & body & S & -> & Hws & Hbody).
  set (m := callShape ws1 ws2 ws3 ws4) in *.
  assert (m <> []) as Hm by done.
  assert (forall c, isCallChar c = false -> ~ In c m) as Havoid.
  { intros c Hc. by apply callShape_avoids. }
  destruct (callShape_export ws1 ws2 ws3 ws4) as [t Ht]. fold m in Ht.
  unfold arrayLiteral in E. rewrite <- !app_assoc in E.
  change (P ++ 39 :: (d ++ 39 :: 58 :: ws ++ 91 :: body ++ 93 :: S) = pre ++ m ++ post) in E.
  apply split_at_separator in E as [(P' & -> & ->)|(R & E & ->)]; [| |done|by apply Havoid].
  { exists (pre ++ configReplacement server ++ P'), ws, body, S.
    split; [|done]. unfold arrayLiteral. by rewrite <- !app_assoc. }
  apply split_at_separator in E as [(D' & E & _)|(R1 & E & ->)]; [| |done|by apply Havoid].
  { exfalso. rewrite Ht in E.
    assert (includes d (js "export") = true) by (eapply includes_infix; eauto). congruence. }
  change ([] ++ 58 :: (ws ++ 91 :: body ++ 93 :: S) = R1 ++ m ++ post) in E.
  apply split_at_separator in E as [(? & E & _)|(R2 & E & ->)]; [| |done|by apply Havoid].
  { exfalso. symmetry in E. apply app_eq_nil in E as [_ E]. apply app_eq_nil in E as [E _].
    done. }
  apply split_at_separator in E as [(W' & E & _)|(R3 & E & ->)]; [| |done|by apply Havoid].
  { exfalso. rewrite Ht in E. subst ws. rewrite !forallb_app in Hws.
    apply andb_true_iff in Hws as [_ Hws]. apply andb_true_iff in Hws as [Hws _].
    simpl in Hws. done. }
  change (body ++ 93 :: S = R3 ++ m ++ post) in E.
  apply split_at_separator in E as [(B' & -> & ->)|(R4 & -> & ->)]; [| |done|by apply Havoid].
  - exists P, ws, (R3 ++ configReplacement server ++ B'), S. split; [|split; [done|]].
    + unfold arrayLiteral. by repeat (progress (rewrite <- ?app_assoc; cbn [app])).
    + rewrite !forallb_app in *. apply andb_true_iff in Hbody as [Hb1 Hbody].
      apply andb_true_iff in Hbody as [_ Hb2]. rewrite Hb1, Hb2. unfold configReplacement.
      rewrite forallb_app, Hserver. reflexivity.
  - exists P, ws, body, (R4 ++ configReplacement server ++ post). split; [|done].
    unfold arrayLiteral. by repeat (progress (rewrite <- ?app_assoc; cbn [app])).
Qed.

Lemma containsDirectiveArray_app a s b d :
  containsDirectiveArray s d -> containsDirectiveArray (a ++ s ++ b) d.
Proof.
  intros (pre & ws & body & post & -> & H). exists (a ++ pre), ws, body, (post ++ b).
  split; [|exact H]. by rewrite <- !app_assoc.
Qed.

Lemma exec_directive_contains d s :
  is_Some (exec (directiveRegex d) 1 s) <-> containsDirectiveArray s d.
Proof.
  split.
  - intros [m Hm]. apply exec_directive_Some in Hm as (pre & ws & body & post & [Hat _] & _).
    by exists pre, ws, body, post.
  - intros H. destruct (exec (directiveRegex d) 1 s) as [m|] eqn:E; [done|].
    by apply exec_directive_None in E.
Qed.

(** Both policy templates have an array literal for each of the seven
    directives. *)
Lemma policyTemplate_has_array s d :
  containsDirectiveArray (policyTemplate s) (directiveName d).
Proof.
  apply exec_directive_contains.
  destruct (exec (directiveRegex (directiveName d)) 1 (policyTemplate s)) as [m|] eqn:E; [done|].
  exfalso. destruct s, d; vm_compute in E; discriminate E.
Qed.

Lemma insertPolicyBlock_has_array template content d :
  containsDirectiveArray template d ->
  containsDirectiveArray (insertPolicyBlock template content) d.
Proof.
  intros H. destruct (insertPolicyBlock_keeps_text template content) as (n & [-> | ->] & _).
  - rewrite (app_assoc (take n content)).
    by apply containsDirectiveArray_app.
  - apply (containsDirectiveArray_app [] template). exact H.
Qed.

Lemma patchedText_contains_array s content d :
  containsDirectiveArray (patchedText s content) (directiveName d).
Proof.
  unfold patchedText. apply insertServerHeaders_keeps_array.
  - destruct s; vm_compute; reflexivity.
  - destruct s; vm_compute; reflexivity.
  - destruct d; vm_compute; reflexivity.
  - apply insertPolicyBlock_has_array, policyTemplate_has_array.
Qed.

Lemma appendSource_is_Some content d source :
  is_Some (appendSource content d source) <-> containsDirectiveArray content d.
Proof.
  rewrite <- exec_directive_contains. unfold appendSource.
  destruct (exec (directiveRegex d) 1 content) as [m|]; split; intros [? ?]; done.
Qed.

(** X6.  The two commands compose: in the text a full patch produces,
    on either surface and from any original text, the array literal of
    each of the seven directives is there to be found, so the append step
    succeeds for every directive and every source. *)
Theorem patchedText_has_every_array s content d source :
  containsDirectiveArray (patchedText s content) (directiveName d) /\
  is_Some (appendSource (patchedText s content) (directiveName d) source).
Proof.
  split; [|apply appendSource_is_Some]; apply patchedText_contains_array.
Qed.

(** X7.  For a directive made of pattern characters, as every name of
    the menus and of the policy is, the append step produces a text
    exactly when the text has an array literal for the directive: the
    directive in single quotes, a colon, white space, and a bracketed
    body. *)
Theorem appendSource_succeeds_iff_array content d source :
  patternCharacters d = true ->
  (is_Some (appendSource content d source) <-> containsDirectiveArray content d).
Proof. intros _. apply appendSource_is_Some. Qed.

(** X8.  For a directive made of pattern characters, whatever the array
    content and the source are (dollar signs included), the append step
    changes the first array literal of the directive only: the text
    before it and the text after it are kept. *)
Theorem appendSource_changes_first_array_only content d source pre ws body post :
  patternCharacters d = true ->
  firstArrayAt content d pre ws body post ->
  exists middle, appendSource content d source = Some (pre ++ middle ++ post).
Proof.
  intros _ Hfirst. unfold appendSource, spliceSource, replace.
  rewrite (exec_directive_first _ _ _ _ _ _ Hfirst). cbn [index matched groups].
  eexists. f_equal. destruct Hfirst as [(-> & _) _].
  rewrite take_app_length. f_equal. f_equal.
  rewrite app_assoc, <- length_app. apply drop_app_length.
Qed.

(** The headers step keeps a segment that no call shape can reach into:
    one that starts with a line feed and a slash, ends with a semicolon
    and a line feed, and does not contain the word export. *)
Lemma insertServerHeaders_keeps_segment server a segment inner b :
  noDollar server = true ->
  includes inner (js "export") = false ->
  segment = [10; 47] ++ inner ++ [59; 10] ->
  exists a' b', insertServerHeaders server (a ++ segment ++ b) = a' ++ segment ++ b'.
Proof.
  intros Hplain Hinner ->.
  destruct (test configRegex (a ++ ([10; 47] ++ inner ++ [59; 10]) ++ b)) eqn:Htest.
  2:{ unfold insertServerHeaders. rewrite Htest. by exists a, b. }
  apply test_configRegex, containsDefineConfigCall_first in Htest
    as (pre & ws1 & ws2 & ws3 & ws4 & post & Hfirst).
  rewrite (insertServerHeaders_first_call _ _ _ _ _ _ _ _ Hfirst Hplain).
  destruct Hfirst as [(E & Hne1 & _ & H1 & H2 & H3 & H4) _].
  set (m := callShape ws1 ws2 ws3 ws4) in *.
  assert (m <> []) as Hm by done.
  assert (forall c, isCallChar c = false -> ~ In c m) as Havoid.
  { intros c Hc. by apply callShape_avoids. }
  destruct (callShape_export ws1 ws2 ws3 ws4) as [t Ht]. fold m in Ht.
  assert (exists t', m = t' ++ [123]) as [t' Ht'].
  { exists (js "export" ++ ws1 ++ js "default" ++ ws2 ++ js "defineConfig" ++ ws3 ++ [40] ++ ws4).
    unfold m, callShape. by rewrite <- !app_assoc. }
  assert (a ++ ([10; 47] ++ inner ++ [59; 10]) ++ b
          = (a ++ [10]) ++ 47 :: (inner ++ 59 :: (10 :: b))) as E0.
  { rewrite <- !app_assoc. reflexivity. }
  rewrite E0 in E. clear E0.
  apply split_at_separator in E as [(A' & EA & ->)|(B' & E & ->)]; [| |done|by apply Havoid].
  - destruct A' as [|x A'] using rev_ind.
    + exfalso. rewrite app_nil_r, Ht', app_assoc in EA. by apply app_inj_tail in EA as [_ ?].
    + clear IHA'. rewrite !app_assoc in EA. apply app_inj_tail in EA as [-> <-].
      exists (pre ++ configReplacement server ++ A'), b.
      by repeat (progress (rewrite <- ?app_assoc; cbn [app])).
  - apply split_at_separator in E as [(A' & E & _)|(B'' & E & ->)]; [| |done|by apply Havoid].
    + exfalso. rewrite Ht in E.
      assert (includes inner (js "export") = true) by (eapply includes_infix; eauto).
      congruence.
    + destruct B'' as [|x B''].
      * exfalso. rewrite Ht in E. by inversion E.
      * change (10 :: b = x :: (B'' ++ m ++ post)) in E. injection E as <- ->.
        exists a, (B'' ++ configReplacement server ++ post).
        by repeat (progress (rewrite <- ?app_assoc; cbn [app])).
Qed.

(** The policy templates are such segments. *)
Lemma policyTemplate_segment s :
  exists inner, policyTemplate s = [10; 47] ++ inner ++ [59; 10] /\
                includes inner (js "export") = false.
Proof.
  exists (take (length (policyTemplate s) - 4) (drop 2 (policyTemplate s))).
  destruct s; split; vm_compute; reflexivity.
Qed.

(** The patched text holds the policy block. *)
Lemma patchedText_holds_template s content :
  exists a b, patchedText s content = a ++ policyTemplate s ++ b.
Proof.
  destruct (policyTemplate_segment s) as (inner & E & Hinner).
  assert (noDollar (serverLiteral s) = true) as Hplain by (destruct s; vm_compute; reflexivity).
  unfold patchedText.
  destruct (insertPolicyBlock_keeps_text (policyTemplate s) content) as (n & [-> | ->] & _).
  - rewrite (app_assoc (take n content)).
    by apply (insertServerHeaders_keeps_segment _ _ _ inner).
  - by apply (insertServerHeaders_keeps_segment _ [] _ inner).
Qed.

(** * The theorems at concrete inputs *)

Lemma firstCallAt_of_exec s pre ws1 ws2 ws3 ws4 post :
  callAt s pre ws1 ws2 ws3 ws4 post ->
  index <$> exec configRegex 0 s = Some (length pre) ->
  firstCallAt s pre ws1 ws2 ws3 ws4 post.
Proof.
  intros Hat Hidx. split; [exact Hat|].
  destruct (exec configRegex 0 s) as [m|] eqn:Hexec; [|done].
  apply exec_configRegex_Some in Hexec as (pre1 & a1 & a2 & a3 & a4 & post1 & [_ Hfirst] & ->).
  injection Hidx as Hidx. rewrite <- Hidx. exact Hfirst.
Qed.

Lemma insertServerHeaders_at_first_call_witness :
  insertServerHeaders Cli.VITE_CONFIG_SERVER spacedCallConfig
  = (js "// config" ++ [10]) ++ configReplacement Cli.VITE_CONFIG_SERVER
    ++ js " plugins: [] });".
Proof.
  apply (insertServerHeaders_at_first_call Cli.VITE_CONFIG_SERVER spacedCallConfig
           (js "// config" ++ [10]) (js "  ") [10] [32] [32; 32] (js " plugins: [] });")).
  - apply firstCallAt_of_exec.
    + split; [reflexivity|]. repeat split; done.
    + vm_compute. reflexivity.
  - vm_compute. reflexivity.
Defined.

Lemma appendSource_changes_first_array_only_witness :
  exists middle,
    appendSource spacedArrayText (js "connect-src") dollarSource
    = Some (js "const CSP_POLICY = { " ++ middle ++ js " };").
Proof.
  apply (appendSource_changes_first_array_only
           (js "const CSP_POLICY = { " ++ arrayLiteral (js "connect-src") [32] (js "'self' ")
            ++ js " };")
           (js "connect-src") dollarSource (js "const CSP_POLICY = { ") [32] (js "'self' ")
           (js " };")).
  - reflexivity.
  - apply firstArrayAt_of_exec. vm_compute. reflexivity.
Defined.

Lemma appendSource_succeeds_iff_array_witness :
  is_Some (appendSource spacedArrayText (js "connect-src") apiSource) <->
  containsDirectiveArray spacedArrayText (js "connect-src").
Proof.
  apply (appendSource_succeeds_iff_array spacedArrayText (js "connect-src") apiSource).
  reflexivity.
Defined.

(** * What an invocation does to the disk *)

Ltac case_split :=
  repeat match goal with
         | |- context [match ?x with _ => _ end] =>
             lazymatch x with
             | context [match _ with _ => _ end] => fail
             | _ => destruct x eqn:?
             end
         end.

(** X9.  An invocation that ends at one of the checks made up front (no
    configuration file, marker already there or missing, invalid menu
    choice, empty source, dismissed prompt) has not touched the disk: no
    file was copied or written. *)
Theorem early_exit_leaves_disk_untouched i env (files : gmap string jsstring) :
  let r := run (invoke i env) files in
  stopsEarly r.1 = true -> disk r.2 = files /\ fileEvents (trace r.2) = [].
Proof.
  intros r. subst r. destruct i; cbn [invoke].
  - rewrite Cli_addCSPConfiguration_run. cbv zeta. case_split;
      cbn [fst snd disk trace stopsEarly]; intros; first [discriminate | by split].
  - rewrite Cli_addCSPSource_run. cbv zeta. case_split;
      cbn [fst snd disk trace stopsEarly]; intros; first [discriminate | by split].
  - rewrite run_finish, Extension_addCSPConfiguration_from. unfold notLocated. cbv zeta. case_split;
      cbn [finish fst snd disk trace stopsEarly]; intros; first [discriminate | by split].
  - rewrite run_finish, Extension_addCSPSource_from, Extension_addCSPConfiguration_from.
    unfold notLocated. cbv zeta. case_split;
      cbn [finish fst snd disk trace stopsEarly]; intros; first [discriminate | by split].
  - rewrite run_finish, Extension_addSourceWithValues_from. unfold notLocated. cbv zeta. case_split;
      cbn [finish fst snd disk trace stopsEarly]; intros; first [discriminate | by split].
Qed.

Ltac frame_leaf :=
  cbn [finish fst snd disk trace];
  rewrite ?lookup_insert_ne by (apply not_eq_sym; assumption);
  reflexivity.

(** X10.  An invocation changes at most two paths of the disk: the
    located configuration file and its backup path.  Every other file is
    left as it was, and when no configuration file is located the whole
    disk is. *)
Theorem invocation_changes_config_and_backup_only i env (files : gmap string jsstring) q :
  (forall p, located (surface i) files = Some p -> q <> p /\ q <> backupName p (now env)) ->
  let r := run (invoke i env) files in
  disk r.2 !! q = files !! q.
Proof.
  intros Hq r. subst r. destruct i; cbn [invoke surface located] in *.
  - rewrite Cli_addCSPConfiguration_run. cbv zeta.
    destruct (Cli.locate files) as [p|]; [|done]. destruct (Hq p eq_refl) as [Hp Hb].
    case_split; frame_leaf.
  - rewrite Cli_addCSPSource_run. cbv zeta.
    destruct (Cli.locate files) as [p|]; [|done]. destruct (Hq p eq_refl) as [Hp Hb].
    case_split; frame_leaf.
  - rewrite run_finish, Extension_addCSPConfiguration_from. unfold notLocated. cbv zeta.
    destruct (Extension.locate cfg files) as [p|]; [|by destruct (noFirstFolder cfg)]. destruct (Hq p eq_refl) as [Hp Hb].
    case_split; frame_leaf.
  - rewrite run_finish, Extension_addCSPSource_from, Extension_addCSPConfiguration_from.
    unfold notLocated. cbv zeta.
    destruct (Extension.locate cfg files) as [p|]; [|by destruct (noFirstFolder cfg)]. destruct (Hq p eq_refl) as [Hp Hb].
    case_split; frame_leaf.
  - rewrite run_finish, Extension_addSourceWithValues_from. unfold notLocated. cbv zeta.
    destruct (Extension.locate cfg files) as [p|]; [|by destruct (noFirstFolder cfg)]. destruct (Hq p eq_refl) as [Hp Hb].
    case_split; frame_leaf.
Qed.

Ltac copied_leaf p Hloc Hin :=
  cbn [finish fst snd disk trace app] in *;
  repeat (destruct Hin as [Hin|Hin];
          [first [discriminate Hin
                 | injection Hin as <- <-; split; [reflexivity|]; split; [reflexivity|];
                   eexists; split; [eassumption|];
                   rewrite ?(lookup_insert_ne _ p) by (apply not_eq_sym, backupName_ne);
                   apply lookup_insert_eq]|]);
  first [discriminate Hin | exfalso; exact Hin].

(** X11.  Whenever an invocation has copied a file, the copy was taken
    from the located configuration file to its backup path, and when the
    invocation ends the backup holds the text the configuration file had
    at the start, whether the later steps succeeded or not. *)
Theorem backup_holds_original_text i env (files : gmap string jsstring) src dst :
  let r := run (invoke i env) files in
  In (Copied src dst) (trace r.2) ->
  located (surface i) files = Some src /\ dst = backupName src (now env) /\
  exists content, files !! src = Some content /\ disk r.2 !! dst = Some content.
Proof.
  intros r. subst r. destruct i; cbn [invoke surface located] in *.
  - rewrite Cli_addCSPConfiguration_run. cbv zeta.
    destruct (Cli.locate files) as [p|] eqn:Hloc; [|simpl; intuition discriminate].
    case_split; intros Hin; copied_leaf p Hloc Hin.
  - rewrite Cli_addCSPSource_run. cbv zeta.
    destruct (Cli.locate files) as [p|] eqn:Hloc; [|simpl; intuition discriminate].
    case_split; intros Hin; copied_leaf p Hloc Hin.
  - rewrite run_finish, Extension_addCSPConfiguration_from. unfold notLocated. cbv zeta.
    destruct (Extension.locate cfg files) as [p|] eqn:Hloc;
      [|destruct (noFirstFolder cfg); simpl; intuition discriminate].
    case_split; intros Hin; copied_leaf p Hloc Hin.
  - rewrite run_finish, Extension_addCSPSource_from, Extension_addCSPConfiguration_from.
    unfold notLocated. cbv zeta.
    destruct (Extension.locate cfg files) as [p|] eqn:Hloc;
      [|destruct (noFirstFolder cfg); simpl; intuition discriminate].
    case_split; intros Hin; copied_leaf p Hloc Hin.
  - rewrite run_finish, Extension_addSourceWithValues_from. unfold notLocated. cbv zeta.
    destruct (Extension.locate cfg files) as [p|] eqn:Hloc;
      [|destruct (noFirstFolder cfg); simpl; intuition discriminate].
    case_split; intros Hin; copied_leaf p Hloc Hin.
Qed.

(** * The step behind the DevTools-error command *)

(** X12.  In the step behind the DevTools-error command the write of the
    configuration file sits inside the [try] block that guards the URL
    parser: when the URL is valid, the array is found and the source is
    new, but the file cannot be written, the command reports an invalid
    URL, and the configuration file keeps its text. *)
Theorem fix_error_reports_failed_write_as_invalid_url
    env cfg d url (files : gmap string jsstring) p content protocol hostname body :
  Extension.locate cfg files = Some p -> files !! p = Some content ->
  isAlreadyPatched content = true ->
  Extension.autoBackup cfg && writeDenied env (backupName p (now env)) = false ->
  Extension.parseURL cfg url = Some (protocol, hostname) ->
  directiveArray content (directiveName d) = Some body ->
  includes body (quoted (protocol ++ js "//" ++ hostname)) = false ->
  writeDenied env p = true ->
  let r := run (Extension.addSourceWithValues env cfg (directiveName d) url) files in
  r.1 = InvalidURL /\
  last (trace r.2) = Some (Notified InvalidUrlInError) /\
  ~ In (Written p) (trace r.2) /\
  disk r.2 !! p = Some content.
Proof.
  intros Hloc Hp Hmark Hbackup Hurl Harr Hnew Hdenied r. subst r.
  rewrite run_finish.
  rewrite Extension_addSourceWithValues_plain by apply directiveName_patternCharacters.
  rewrite Hloc. cbn beta iota. rewrite Hp. cbn beta iota. rewrite Hmark. cbn [negb].
  cbv zeta. rewrite Hbackup, Hurl. unfold directiveArray in Harr.
  destruct (exec (directiveRegex (directiveName d)) 1 content) as [m|]; [|done].
  injection Harr as Harr. rewrite Harr, Hnew, Hdenied.
  destruct (Extension.autoBackup cfg); cbn [finish fst snd disk trace app last];
    (split; [reflexivity|]); (split; [reflexivity|]);
    (split; [simpl; intuition discriminate|]);
    rewrite ?lookup_insert_ne by apply backupName_ne; done.
Qed.

(** X13.  The step behind the DevTools-error command takes its backup
    before it looks at the URL or at the directive: with backups enabled
    and a marked configuration file, the first thing it does is the copy,
    whatever the directive and the URL are, and unless it goes on to add
    the source, the backup is the only change on the disk. *)
Theorem fix_error_backs_up_before_validating
    env cfg directive url (files : gmap string jsstring) p content :
  Extension.locate cfg files = Some p -> files !! p = Some content ->
  isAlreadyPatched content = true ->
  Extension.autoBackup cfg = true ->
  writeDenied env (backupName p (now env)) = false ->
  let b := backupName p (now env) in
  let r := run (Extension.addSourceWithValues env cfg directive url) files in
  head (trace r.2) = Some (Copied p b) /\
  disk r.2 !! b = Some content /\
  (r.1 <> SourceAdded -> disk r.2 = <[b := content]> files).
Proof.
  intros Hloc Hp Hmark Hauto Hbackup b r. subst b r.
  rewrite run_finish, Extension_addSourceWithValues_from.
  rewrite Hloc. cbn beta iota. rewrite Hp. cbn beta iota. rewrite Hmark. cbn [negb].
  cbv zeta. rewrite Hauto, Hbackup. cbn [andb].
  case_split; cbn [finish fst snd disk trace app head];
    (split; [reflexivity|]);
    (split; [rewrite ?lookup_insert_ne by (apply not_eq_sym, backupName_ne);
             apply lookup_insert_eq|]);
    first [done | intros _; reflexivity].
Qed.

(** X14.  When the array of the directive is missing, the step behind the
    DevTools-error command ends without telling the operator anything: no
    message is shown and the file is not written, where the interactive
    add-source command of the extension shows that the directive could
    not be found. *)
Theorem fix_error_silent_without_array
    env cfg d url source (files : gmap string jsstring) p content protocol hostname :
  Extension.locate cfg files = Some p -> files !! p = Some content ->
  isAlreadyPatched content = true ->
  Extension.autoBackup cfg && writeDenied env (backupName p (now env)) = false ->
  Extension.parseURL cfg url = Some (protocol, hostname) ->
  source <> [] ->
  ~ containsDirectiveArray content (directiveName d) ->
  let silent := run (Extension.addSourceWithValues env cfg (directiveName d) url) files in
  let loud := run (Extension.addCSPSource env cfg false (Some d) (Some source)) files in
  silent.1 = DirectiveNotFound /\
  (forall m, ~ In (Notified m) (trace silent.2)) /\
  loud.1 = DirectiveNotFound /\
  In (Notified (CouldNotFind (directiveName d))) (trace loud.2).
Proof.
  intros Hloc Hp Hmark Hbackup Hurl Hsrc Hnone silent loud. subst silent loud.
  rewrite !run_finish, Extension_addCSPSource_from.
  rewrite Extension_addSourceWithValues_plain by apply directiveName_patternCharacters.
  rewrite Hloc. cbn beta iota. rewrite Hp. cbn beta iota. rewrite Hmark. cbn [negb].
  cbv zeta. rewrite Hbackup, Hurl.
  assert (exec (directiveRegex (directiveName d)) 1 content = None) as ->.
  { destruct (exec _ _ _) as [m|] eqn:E; [|done]. exfalso. apply Hnone.
    apply exec_directive_contains. by rewrite E. }
  rewrite (appendSource_None _ _ _ Hnone).
  destruct source as [|c source]; [done|].
  destruct (Extension.autoBackup cfg); cbn [finish fst snd disk trace app];
    (split; [reflexivity|]); (split; [intros m; simpl; intuition discriminate|]);
    (split; [reflexivity|]); simpl; tauto.
Qed.

(** * Reading a DevTools message *)

Import ErrorCommand.

Lemma Matches_chrI c x y :
  isUpperLetter c = false -> Matches (chrI c) x y ->
  exists ch rest, remaining x = ch :: rest /\ lowerAscii ch = c /\ y = advance x [ch] rest.
Proof.
  intros Hc H. unfold chrI in H. destruct (isLowerLetter c) eqn:Hlow.
  - apply Matches_CharSet in H as (ch & rest & E & HA & ->). exists ch, rest.
    split; [done|]. split; [|done].
    unfold isLowerLetter in Hlow. apply andb_true_iff in Hlow as [H1 H2].
    apply N.leb_le in H1. apply N.leb_le in H2.
    apply orb_true_iff in HA as [HA|HA]; apply N.eqb_eq in HA; subst ch.
    + unfold lowerAscii. by rewrite Hc.
    + unfold lowerAscii, isUpperLetter.
      assert ((65 <=? c - 32) = true) as -> by (apply N.leb_le; lia).
      assert ((c - 32 <=? 90) = true) as -> by (apply N.leb_le; lia).
      simpl. lia.
  - apply Matches_chr in H as (rest & E & ->). exists c, rest. split; [done|].
    split; [|done]. unfold lowerAscii. by rewrite Hc.
Qed.

Lemma Matches_literalI s x y :
  forallb (fun c => negb (isUpperLetter c)) s = true -> Matches (literalI s) x y ->
  exists taken rest, remaining x = taken ++ rest /\ map lowerAscii taken = s /\
                     y = advance x taken rest.
Proof.
  revert x. induction s as [|c s IH]; intros x Hs H.
  - unfold literalI in H; simpl in H. subst y. exists [], (remaining x).
    split; [done|]. split; [done|]. by rewrite advance_nil.
  - simpl in Hs. apply andb_true_iff in Hs as [Hc Hs]. apply negb_true_iff in Hc.
    change (literalI (c :: s)) with (Seq (chrI c) (literalI s)) in H.
    destruct H as (y' & H1 & H2).
    apply (Matches_chrI _ _ _ Hc) in H1 as (ch & rest & E & Hch & ->).
    apply (IH _ Hs) in H2 as (taken & rest' & E' & Htaken & ->). simpl in E'. subst rest.
    exists (ch :: taken), rest'. split; [done|]. split; [simpl; congruence|].
    apply (advance_app x [ch] taken).
Qed.

Lemma captures_advance x s rest : captures (advance x s rest) = captures x.
Proof. reflexivity. Qed.

Lemma Matches_violatesRegex x y :
  Matches violatesRegex x y ->
  exists kw1 gap kw2 ws body rest,
    remaining x = kw1 ++ gap ++ kw2 ++ ws ++ [34] ++ body ++ [34] ++ rest /\
    map lowerAscii kw1 = js "violates" /\ forallb notLineTerminator gap = true /\
    map lowerAscii kw2 = js "directive:" /\ forallb isSpace ws = true /\
    body <> [] /\ forallb notDoubleQuote body = true /\
    let start := (endIndex x + length (kw1 ++ gap ++ kw2 ++ ws ++ [34%N]))%nat in
    captures y !! 1%nat = Some (start, (start + length body)%nat).
Proof.
  unfold violatesRegex. intros H.
  next_term H x1 H1. apply Matches_literalI in H1 as (kw1 & r1 & E1 & Hkw1 & ->); [|done].
  next_term H x2 H2. apply Matches_star in H2 as (gap & r2 & E2 & Hgap & ->).
  next_term H x3 H3. apply Matches_literalI in H3 as (kw2 & r3 & E3 & Hkw2 & ->); [|done].
  next_term H x4 H4. apply Matches_star in H4 as (ws & r4 & E4 & Hws & ->).
  next_term H x5 H5. apply Matches_chr in H5 as (r5 & E5 & ->).
  next_term H x6 H6. destruct H6 as (x6' & H6 & ->).
  apply Matches_plus in H6 as (body & r6 & E6 & Hbody & Hne & ->).
  next_term H x7 H7. apply Matches_chr in H7 as (r7 & E7 & ->).
  apply Matches_sequence_nil in H as ->.
  rewrite ?remaining_advance in *. cbn [setCapture remaining] in E7.
  rewrite remaining_advance in E7. subst r1 r2 r3 r4 r5 r6.
  exists kw1, gap, kw2, ws, body, r7. repeat split; auto.
  rewrite captures_advance. cbn [setCapture captures]. rewrite lookup_insert_eq.
  rewrite !endIndex_advance, !length_app. unfold jsstring, jschar in *. simpl.
  f_equal. f_equal; lia.
Qed.

Lemma Matches_quotedRegex x y :
  Matches quotedRegex x y ->
  exists q1 body q2 rest,
    remaining x = [q1] ++ body ++ [q2] ++ rest /\
    isQuote q1 = true /\ isQuote q2 = true /\ body <> [] /\ forallb notQuote body = true /\
    captures y !! 1%nat = Some (S (endIndex x), (S (endIndex x) + length body)%nat).
Proof.
  unfold quotedRegex. intros H.
  next_term H x1 H1. apply Matches_CharSet in H1 as (q1 & r1 & E1 & Hq1 & ->).
  next_term H x2 H2. destruct H2 as (x2' & H2 & ->).
  apply Matches_plus in H2 as (body & r2 & E2 & Hbody & Hne & ->).
  next_term H x3 H3. apply Matches_CharSet in H3 as (q2 & r3 & E3 & Hq2 & ->).
  apply Matches_sequence_nil in H as ->.
  rewrite ?remaining_advance in *. cbn [setCapture remaining] in E3.
  rewrite remaining_advance in E3. subst r1 r2.
  exists q1, body, q2, r3. repeat split; auto.
  rewrite captures_advance. cbn [setCapture captures]. rewrite lookup_insert_eq.
  rewrite !endIndex_advance. unfold jsstring, jschar in *. simpl. f_equal. f_equal; lia.
Qed.

Lemma quotedAt_Matches text pre q1 body q2 post :
  quotedAt text pre q1 body q2 post ->
  exists y, Matches quotedRegex (startState 0 None pre ([q1] ++ body ++ [q2] ++ post)) y.
Proof.
  intros (_ & Hq1 & Hq2 & Hne & Hbody). unfold quotedRegex. eexists.
  apply Matches_sequence_cons. eexists. split.
  { apply Matches_CharSet. exists q1. eexists. split; [reflexivity|by split]. }
  apply Matches_sequence_cons. eexists. split.
  { eexists. split; [|reflexivity].
    apply Matches_plus. exists body. eexists. split; [reflexivity|by repeat split]. }
  apply Matches_sequence_cons. eexists. split.
  { apply Matches_CharSet. exists q2. eexists. split; [reflexivity|by split]. }
  apply Matches_sequence_nil. reflexivity.
Qed.

Lemma capture1_of_exec (s : jsstring) (i : nat) (y : MatchState) first last body a b :
  captures y !! 1%nat = Some (first, last) ->
  s = a ++ body ++ b -> first = length a -> last = (first + length body)%nat ->
  capture1 (MkResult i (substring s i (endIndex y))
              (map (fun n => (fun se => substring s (fst se) (snd se)) <$> captures y !! n)
                   (seq 1 1))) = body.
Proof.
  intros Hcap Hs Hfirst Hlast. unfold capture1. cbn [seq map groups]. rewrite Hcap.
  cbn [fmap option_fmap option_map fst snd lookup list_lookup mjoin option_join default
       from_option id].
  by apply (substring_middle s a body b).
Qed.

Lemma exec_violatesRegex_Some t m :
  exec violatesRegex 1 t = Some m ->
  exists a kw1 gap kw2 ws body b,
    violationAt t a kw1 gap kw2 ws body b /\ capture1 m = body.
Proof.
  unfold exec. destruct (scan _ _ _ _) as [[j y]|] eqn:Hscan; [|done].
  intros H. inversion H; subst m; clear H.
  apply scan_Some in Hscan as (pre & suf & -> & -> & Hm & _).
  apply Matches_violatesRegex in Hm
    as (kw1 & gap & kw2 & ws & body & rest & E & Hkw1 & Hgap & Hkw2 & Hws & Hne & Hbody & Hcap).
  cbn [remaining startState endIndex] in *. subst suf.
  exists pre, kw1, gap, kw2, ws, body, rest. split; [by repeat split|].
  eapply (capture1_of_exec _ _ _ _ _ body (pre ++ kw1 ++ gap ++ kw2 ++ ws ++ [34]) ([34] ++ rest));
    [exact Hcap| | |reflexivity].
  - by rewrite <- !app_assoc.
  - rewrite !length_app. simpl. lia.
Qed.

Lemma exec_quotedRegex_Some t m :
  exec quotedRegex 1 t = Some m ->
  exists pre q1 body q2 post,
    quotedAt t pre q1 body q2 post /\ capture1 m = body /\
    forall pre' q1' body' q2' post',
      quotedAt t pre' q1' body' q2' post' -> (length pre <= length pre')%nat.
Proof.
  unfold exec. destruct (scan _ _ _ _) as [[j y]|] eqn:Hscan; [|done].
  intros H. inversion H; subst m; clear H.
  apply scan_Some in Hscan as (pre & suf & -> & -> & Hm & Hleft).
  apply Matches_quotedRegex in Hm as (q1 & body & q2 & rest & E & Hq1 & Hq2 & Hne & Hbody & Hcap).
  cbn [remaining startState endIndex] in *. subst suf.
  exists pre, q1, body, q2, rest. split; [by repeat split|]. split.
  - eapply (capture1_of_exec _ _ _ _ _ body (pre ++ [q1]) ([q2] ++ rest));
      [exact Hcap| | |reflexivity].
    + by rewrite <- !app_assoc.
    + rewrite length_app. simpl. lia.
  - intros pre' q1' body' q2' post' Hat.
    destruct (decide (length pre' < length pre)%nat) as [Hlt|]; [|lia].
    exfalso. destruct (quotedAt_Matches _ _ _ _ _ _ Hat) as [y' Hy'].
    destruct Hat as [E' _]. exact (Hleft pre' _ y' E' Hlt Hy').
Qed.

(** X15.  What the DevTools-error command reads from the pasted text.
    The source is the first non-empty run free of quote characters that
    stands between two quote characters, single or double, wherever in
    the text that is.  The directive is the trimmed content of a
    double-quoted run that follows the words violates and directive: (in
    any case) on one line. *)
Theorem parseCSPError_reads errorText directive source :
  parseCSPError errorText = Some (directive, source) ->
  (exists pre q1 q2 post,
     quotedAt errorText pre q1 source q2 post /\
     forall pre' q1' body' q2' post',
       quotedAt errorText pre' q1' body' q2' post' -> (length pre <= length pre')%nat) /\
  (exists a kw1 gap kw2 ws body b,
     violationAt errorText a kw1 gap kw2 ws body b /\ directive = trim body).
Proof.
  unfold parseCSPError.
  destruct (exec violatesRegex 1 errorText) as [dm|] eqn:Hd; [|done].
  destruct (exec quotedRegex 1 errorText) as [sm|] eqn:Hs; [|done].
  intros H. injection H as <- <-. split.
  - apply exec_quotedRegex_Some in Hs as (pre & q1 & body & q2 & post & Hat & -> & Hleft).
    by exists pre, q1, q2, post.
  - apply exec_violatesRegex_Some in Hd as (a & kw1 & gap & kw2 & ws & body & b & Hat & ->).
    by exists a, kw1, gap, kw2, ws, body, b.
Qed.

Lemma violationAt_double_quote t a kw1 gap kw2 ws body b :
  violationAt t a kw1 gap kw2 ws body b -> In 34 t.
Proof.
  intros (-> & _). rewrite !in_app_iff. do 5 right. left. by left.
Qed.

Lemma parseCSPError_double_quote t r : parseCSPError t = Some r -> In 34 t.
Proof.
  unfold parseCSPError. destruct (exec violatesRegex 1 t) as [dm|] eqn:Hd; [|done].
  intros _. apply exec_violatesRegex_Some in Hd as (a & kw1 & gap & kw2 & ws & body & b & Hat & _).
  eapply violationAt_double_quote; eauto.
Qed.

(** X16.  The DevTools-error command does nothing to the disk unless the
    operator pasted a text with a double quote in it and answered [Yes]:
    a dismissed or empty input, a text without double quote (no directive
    can be read from it) and any other answer to the question all leave
    every file alone, and the append step is not run. *)
Theorem fixCSPError_needs_text_and_consent
    env cfg errorText confirmed (files : gmap string jsstring) :
  confirmed = false \/ (forall t, errorText = Some t -> ~ In 34 t) ->
  let r := fixCSPError env cfg errorText confirmed files in
  r.2 = MkMachine files [] /\ (r.1 = NoInput \/ r.1 = CouldNotParse \/ r.1 = Declined).
Proof.
  intros H r. subst r. unfold fixCSPError.
  destruct errorText as [[|c t]|]; [by split; [|left]| |by split; [|left]].
  destruct (parseCSPError (c :: t)) as [[directive source]|] eqn:Hparse;
    [|by split; [|right; left]].
  destruct confirmed; [|by split; [|right; right]]. exfalso. destruct H as [H|H]; [done|].
  apply (H (c :: t) eq_refl). eapply parseCSPError_double_quote; eauto.
Qed.

(** X17.  Every name the directive table of the DevTools-error command
    maps to is a directive of the policy template: in the text a full
    patch by the extension produces, the append step finds its array. *)
Theorem directiveMap_targets_template_arrays cfg directive mapped content source :
  directiveMap directive = Some mapped ->
  mappedDirective directive = Some mapped /\
  is_Some (appendSource (patchedText (Editor cfg) content) mapped source).
Proof.
  intros H. unfold mappedDirective, directiveMap in *.
  assert (exists d, mapped = directiveName d /\
                    bool_decide (directive ∈ inheritedMembers) = false) as (d & -> & Hown).
  { repeat match type of H with
           | (if bool_decide (?a = ?b) then _ else _) = _ =>
               destruct (bool_decide_reflect (a = b)) as [->|_];
                 [injection H as <-;
                  first [ by exists script_src | by exists style_src | by exists font_src
                        | by exists img_src | by exists connect_src | by exists worker_src ]|]
           end. done. }
  split.
  - rewrite Hown. repeat f_equal.
    repeat match goal with
           | |- context [if bool_decide (?a = ?b) then _ else _] =>
               destruct (bool_decide_reflect (a = b)) as [->|_]
           end; simpl; congruence.
  - apply appendSource_is_Some, patchedText_contains_array.
Qed.

(** * One command after the other *)

(** The stored patched text still carries the marker and every array. *)
Lemma stored_patchedText_append s content d source :
  isAlreadyPatched (toWellFormed (patchedText s content)) = true /\
  is_Some (appendSource (toWellFormed (patchedText s content)) (directiveName d) source).
Proof.
  split.
  - apply isAlreadyPatched_toWellFormed, patchedText_marked.
  - apply appendSource_is_Some, containsDirectiveArray_toWellFormed;
      [apply directiveName_notSurrogate|apply patchedText_contains_array].
Qed.

(** X18.  The two modes of the command-line script compose: after a full
    patch of an unmarked configuration file, the [--add-source] mode run
    with any of the six menu choices and a non-empty source finds the
    array of the chosen directive in the stored text and ends with the
    source added, whatever the original text was.  The stored text is the
    patched text as it reads after its encoding as UTF-8, and the file
    ends up holding the result of the append step on it, encoded again. *)
Theorem cli_add_source_after_full_patch
    env env' choice source (files : gmap string jsstring) p content d :
  Cli.locate files = Some p -> files !! p = Some content ->
  isAlreadyPatched content = false ->
  writeDenied env (backupName p (now env)) = false -> writeDenied env p = false ->
  writeDenied env' (backupName p (now env')) = false -> writeDenied env' p = false ->
  Cli.directiveMap (trim choice) = Some d -> trim source <> [] ->
  let first := run (Cli.addCSPConfiguration env) files in
  let second := run (Cli.addCSPSource env' choice source) (disk first.2) in
  let stored := toWellFormed (patchedText CommandLine content) in
  first.1 = Patched /\ disk first.2 !! p = Some stored /\
  second.1 = SourceAdded /\
  is_Some (disk second.2 !! p) /\
  disk second.2 !! p
    = toWellFormed <$> appendSource stored (directiveName d) (trim source).
Proof.
  intros Hloc Hp Hmark Hb Hw Hb' Hw' Hdir Hsrc.
  destruct (stored_patchedText_append CommandLine content d (trim source))
    as [Hnew [new Happend]].
  cbv zeta. rewrite Cli_addCSPConfiguration_run, (Cli_addCSPSource_known _ _ _ _ _ Hdir).
  rewrite Hloc. cbn beta iota zeta. rewrite Hp. cbn beta iota. rewrite Hmark, Hb, Hw.
  cbn [fst snd disk trace].
  change (insertServerHeaders Cli.VITE_CONFIG_SERVER
            (insertPolicyBlock Cli.CSP_POLICY_CODE content))
    with (patchedText CommandLine content).
  destruct (Cli_locate_stable files p (now env) content
              (toWellFormed (patchedText CommandLine content)) Hloc) as [Hloc' _].
  rewrite Hloc'. cbn beta iota zeta. rewrite lookup_insert_eq. cbn beta iota.
  rewrite Hnew. cbn [negb].
  destruct (trim source) as [|c t] eqn:Htrim; [done|].
  rewrite Hb', Happend, Hw'. cbn [fst snd disk trace].
  rewrite lookup_insert_eq. done.
Qed.

(** * The theorems at concrete inputs *)

Lemma early_exit_leaves_disk_untouched_witness :
  disk (run (invoke CliFullPatch someEnv) (cliDisk selfPolicy)).2 = cliDisk selfPolicy /\
  fileEvents (trace (run (invoke CliFullPatch someEnv) (cliDisk selfPolicy)).2) = [].
Proof.
  apply (early_exit_leaves_disk_untouched CliFullPatch someEnv (cliDisk selfPolicy)).
  vm_compute. reflexivity.
Defined.

Lemma invocation_changes_config_and_backup_only_witness :
  disk (run (invoke CliFullPatch someEnv) projectDisk).2 !! "package.json"%string
  = projectDisk !! "package.json"%string.
Proof.
  apply (invocation_changes_config_and_backup_only CliFullPatch someEnv projectDisk
           "package.json"%string).
  intros p Hloc. vm_compute in Hloc. injection Hloc as <-.
  split; [discriminate|]. vm_compute. discriminate.
Defined.

Lemma backup_holds_original_text_witness :
  located CommandLine (cliDisk minimalConfig) = Some "vite.config.js"%string /\
  "vite.config.js.backup.1700000000000"%string
    = backupName "vite.config.js"%string (now someEnv) /\
  exists content,
    cliDisk minimalConfig !! "vite.config.js"%string = Some content /\
    disk (run (invoke CliFullPatch someEnv) (cliDisk minimalConfig)).2
      !! "vite.config.js.backup.1700000000000"%string = Some content.
Proof.
  apply (backup_holds_original_text CliFullPatch someEnv (cliDisk minimalConfig)
           "vite.config.js"%string "vite.config.js.backup.1700000000000"%string).
  vm_compute. right. right. left. reflexivity.
Defined.

Lemma fix_error_reports_failed_write_as_invalid_url_witness :
  let r := run (Extension.addSourceWithValues readOnlyEnv backupSettings
                  (directiveName connect_src) (js "https://api.example.com/v1"))
               (workspaceDisk selfPolicy) in
  r.1 = InvalidURL /\
  last (trace r.2) = Some (Notified InvalidUrlInError) /\
  ~ In (Written "/ws/vite.config.ts"%string) (trace r.2) /\
  disk r.2 !! "/ws/vite.config.ts"%string = Some selfPolicy.
Proof.
  apply (fix_error_reports_failed_write_as_invalid_url readOnlyEnv backupSettings connect_src
           (js "https://api.example.com/v1") (workspaceDisk selfPolicy)
           "/ws/vite.config.ts"%string selfPolicy (js "https:") (js "api.example.com")
           (js "'self'")); vm_compute; reflexivity.
Defined.

Lemma fix_error_backs_up_before_validating_witness :
  let b := backupName "/ws/vite.config.ts"%string (now someEnv) in
  let r := run (Extension.addSourceWithValues someEnv backupSettings
                  (js "frame-src") (js "not a url")) (workspaceDisk selfPolicy) in
  head (trace r.2) = Some (Copied "/ws/vite.config.ts"%string b) /\
  disk r.2 !! b = Some selfPolicy /\
  (r.1 <> SourceAdded -> disk r.2 = <[b := selfPolicy]> (workspaceDisk selfPolicy)).
Proof.
  apply (fix_error_backs_up_before_validating someEnv backupSettings (js "frame-src")
           (js "not a url") (workspaceDisk selfPolicy) "/ws/vite.config.ts"%string selfPolicy);
    vm_compute; reflexivity.
Defined.

Lemma fix_error_silent_without_array_witness :
  let silent := run (Extension.addSourceWithValues someEnv backupSettings
                       (directiveName img_src) (js "https://api.example.com/logo.png"))
                    (workspaceDisk selfPolicy) in
  let loud := run (Extension.addCSPSource someEnv backupSettings false (Some img_src)
                     (Some apiSource)) (workspaceDisk selfPolicy) in
  silent.1 = DirectiveNotFound /\
  (forall m, ~ In (Notified m) (trace silent.2)) /\
  loud.1 = DirectiveNotFound /\
  In (Notified (CouldNotFind (directiveName img_src))) (trace loud.2).
Proof.
  apply (fix_error_silent_without_array someEnv backupSettings img_src
           (js "https://api.example.com/logo.png") apiSource (workspaceDisk selfPolicy)
           "/ws/vite.config.ts"%string selfPolicy (js "https:") (js "api.example.com"));
    try (vm_compute; reflexivity).
  - discriminate.
  - apply exec_directive_None. vm_compute. reflexivity.
Defined.

Lemma parseCSPError_reads_witness :
  (exists pre q1 q2 post,
     ErrorCommand.quotedAt sampleError pre q1 (js "https://cdn.example.com/a.js") q2 post /\
     forall pre' q1' body' q2' post',
       ErrorCommand.quotedAt sampleError pre' q1' body' q2' post' ->
       (length pre <= length pre')%nat) /\
  (exists a kw1 gap kw2 ws body b,
     ErrorCommand.violationAt sampleError a kw1 gap kw2 ws body b /\
     js "script-src-elem" = trim body).
Proof.
  apply (parseCSPError_reads sampleError (js "script-src-elem")
           (js "https://cdn.example.com/a.js")).
  vm_compute. reflexivity.
Defined.

Lemma fixCSPError_needs_text_and_consent_witness :
  let r := ErrorCommand.fixCSPError someEnv backupSettings (Some sampleError) false
             (workspaceDisk selfPolicy) in
  r.2 = MkMachine (workspaceDisk selfPolicy) [] /\
  (r.1 = ErrorCommand.NoInput \/ r.1 = ErrorCommand.CouldNotParse \/
   r.1 = ErrorCommand.Declined).
Proof.
  apply (fixCSPError_needs_text_and_consent someEnv backupSettings
           (Some sampleError) false (workspaceDisk selfPolicy)).
  left. reflexivity.
Defined.

Lemma directiveMap_targets_template_arrays_witness :
  ErrorCommand.mappedDirective (js "script-src-elem") = Some (js "script-src") /\
  is_Some (appendSource (patchedText (Editor backupSettings) minimalConfig)
             (js "script-src") apiSource).
Proof.
  apply (directiveMap_targets_template_arrays backupSettings
           (js "script-src-elem") (js "script-src") minimalConfig apiSource).
  vm_compute. reflexivity.
Defined.

Lemma cli_add_source_after_full_patch_witness :
  let first := run (Cli.addCSPConfiguration someEnv) (cliDisk minimalConfig) in
  let second := run (Cli.addCSPSource someEnv (js "4") apiSource) (disk first.2) in
  let stored := toWellFormed (patchedText CommandLine minimalConfig) in
  first.1 = Patched /\ disk first.2 !! "vite.config.js"%string = Some stored /\
  second.1 = SourceAdded /\
  is_Some (disk second.2 !! "vite.config.js"%string) /\
  disk second.2 !! "vite.config.js"%string
    = toWellFormed <$> appendSource stored (directiveName connect_src) (trim apiSource).
Proof.
  apply (cli_add_source_after_full_patch someEnv someEnv (js "4") apiSource
           (cliDisk minimalConfig) "vite.config.js"%string minimalConfig connect_src);
    try (vm_compute; reflexivity).
  vm_compute. discriminate.
Defined.

(** * Success and the one write *)

Ltac outcome_leaf :=
  cbn [finish fst snd disk trace app fileEvents filter isFileEvent];
  first
    [ left; split; [reflexivity|];
      split; [intros [H|H]; discriminate H | intros [q Hq]; simpl in Hq; intuition discriminate]
    | right; left; eexists; split; [reflexivity|];
      split; [intros [H|H]; discriminate H | intros [q Hq]; simpl in Hq; intuition discriminate]
    | right; right; left; eexists; split; [reflexivity|];
      split; [intros _; eexists; simpl; eauto 10 | intros _; first [by left | by right]]
    | right; right; right; eexists; split; [reflexivity|];
      split; [intros _; eexists; simpl; eauto 10 | intros _; first [by left | by right]] ].

Lemma file_events_cases i env (files : gmap string jsstring) :
  let r := run (invoke i env) files in
  let succeeded := r.1 = Patched \/ r.1 = SourceAdded in
  let wrote := exists q, In (Written q) (trace r.2) in
  (fileEvents (trace r.2) = [] /\ (succeeded <-> wrote)) \/
  (exists p, fileEvents (trace r.2) = [Copied p (backupName p (now env))] /\
             (succeeded <-> wrote)) \/
  (exists p, fileEvents (trace r.2) = [Written p] /\ (succeeded <-> wrote)) \/
  (exists p, fileEvents (trace r.2) = [Copied p (backupName p (now env)); Written p] /\
             (succeeded <-> wrote)).
Proof.
  intros r succeeded wrote. subst r succeeded wrote. destruct i; cbn [invoke].
  - rewrite Cli_addCSPConfiguration_run. cbv zeta. case_split; outcome_leaf.
  - rewrite Cli_addCSPSource_run. cbv zeta. case_split; outcome_leaf.
  - rewrite run_finish, Extension_addCSPConfiguration_from. unfold notLocated. cbv zeta. case_split; outcome_leaf.
  - rewrite run_finish, Extension_addCSPSource_from, Extension_addCSPConfiguration_from.
    unfold notLocated. cbv zeta. case_split; outcome_leaf.
  - rewrite run_finish, Extension_addSourceWithValues_from. unfold notLocated. cbv zeta. case_split; outcome_leaf.
Qed.

(** X19.  For every command of both programs, the outcome tells whether
    the configuration was written: an invocation ends with [Patched] or
    [SourceAdded] exactly when it has written a file; and its file
    operations are at most one copy to the backup path followed by at
    most one write of the same file. *)
Theorem success_iff_written i env (files : gmap string jsstring) :
  let r := run (invoke i env) files in
  (r.1 = Patched \/ r.1 = SourceAdded <-> exists q, In (Written q) (trace r.2)) /\
  exists p,
    let b := backupName p (now env) in
    fileEvents (trace r.2) = [] \/ fileEvents (trace r.2) = [Copied p b] \/
    fileEvents (trace r.2) = [Written p] \/ fileEvents (trace r.2) = [Copied p b; Written p].
Proof.
  intros r. subst r.
  destruct (file_events_cases i env files)
    as [[E H]|[(p & E & H)|[(p & E & H)|(p & E & H)]]]; (split; [exact H|]).
  - exists ""%string. by left.
  - exists p. right. by left.
  - exists p. right. right. by left.
  - exists p. right. right. by right.
Qed.

(** X20.  The two commands of the extension compose as those of the
    script do: after a full patch of an unmarked configuration file, the
    add-source command run with any directive of its menu and a non-empty
    source ends with the source added, whatever the original text was and
    whether backups are enabled or not.  The stored text is the patched
    text as it reads after its encoding as UTF-8, and the file ends up
    holding the result of the append step on it, encoded again. *)
Theorem editor_add_source_after_full_patch
    env env' cfg addConfiguration source (files : gmap string jsstring) p content d :
  Extension.locate cfg files = Some p -> files !! p = Some content ->
  isAlreadyPatched content = false ->
  Extension.autoBackup cfg && writeDenied env (backupName p (now env)) = false ->
  writeDenied env p = false ->
  Extension.autoBackup cfg && writeDenied env' (backupName p (now env')) = false ->
  writeDenied env' p = false ->
  source <> [] ->
  let first := run (Extension.addCSPConfiguration env cfg) files in
  let second := run (Extension.addCSPSource env' cfg addConfiguration (Some d) (Some source))
                    (disk first.2) in
  let stored := toWellFormed (patchedText (Editor cfg) content) in
  first.1 = Patched /\ disk first.2 !! p = Some stored /\
  second.1 = SourceAdded /\
  is_Some (disk second.2 !! p) /\
  disk second.2 !! p
    = toWellFormed <$> appendSource stored (directiveName d) (trim source).
Proof.
  intros Hloc Hp Hmark Hb Hw Hb' Hw' Hsrc.
  destruct (stored_patchedText_append (Editor cfg) content d (trim source))
    as [Hnew [new Happend]].
  cbv zeta. rewrite !run_finish, Extension_addCSPConfiguration_from.
  rewrite Hloc. cbn beta iota zeta. rewrite Hp. cbn beta iota. rewrite Hmark, Hb, Hw.
  cbn [finish fst snd disk trace]. rewrite Extension_addCSPSource_from.
  change (insertServerHeaders Extension.SERVER_CONFIG
            (insertPolicyBlock Extension.CSP_POLICY_TEMPLATE content))
    with (patchedText (Editor cfg) content).
  destruct (Extension_locate_stable cfg files p (now env) content
              (toWellFormed (patchedText (Editor cfg) content)) Hloc) as (Hloc1 & _ & Hloc2).
  destruct source as [|c source]; [done|].
  destruct (Extension.autoBackup cfg); cbn [andb] in *.
  - rewrite lookup_insert_eq, Hloc1. cbn beta iota zeta. rewrite lookup_insert_eq.
    cbn beta iota. rewrite Hnew. cbn [negb]. rewrite Hb', Happend, Hw'.
    cbn [finish fst snd disk trace]. rewrite lookup_insert_eq. done.
  - rewrite lookup_insert_eq, Hloc2. cbn beta iota zeta. rewrite lookup_insert_eq.
    cbn beta iota. rewrite Hnew. cbn [negb]. rewrite Happend, Hw'.
    cbn [finish fst snd disk trace]. rewrite lookup_insert_eq. done.
Qed.

Lemma editor_add_source_after_full_patch_witness :
  let first := run (Extension.addCSPConfiguration someEnv noBackupSettings)
                   (workspaceDisk minimalConfig) in
  let second := run (Extension.addCSPSource someEnv noBackupSettings false (Some font_src)
                       (Some apiSource)) (disk first.2) in
  let stored := toWellFormed (patchedText (Editor noBackupSettings) minimalConfig) in
  first.1 = Patched /\ disk first.2 !! "/ws/vite.config.ts"%string = Some stored /\
  second.1 = SourceAdded /\
  is_Some (disk second.2 !! "/ws/vite.config.ts"%string) /\
  disk second.2 !! "/ws/vite.config.ts"%string
    = toWellFormed <$> appendSource stored (directiveName font_src) (trim apiSource).
Proof.
  apply (editor_add_source_after_full_patch someEnv someEnv noBackupSettings false apiSource
           (workspaceDisk minimalConfig) "/ws/vite.config.ts"%string minimalConfig font_src);
    try (vm_compute; reflexivity).
  discriminate.
Defined.

(** * The full patch, twice *)

Lemma opensLine_atLineStart pre suf :
  opensLine pre -> atLineStart true (startState 0 None pre suf) = true.
Proof.
  intros [->|(pre' & ch & -> & Hch)]; [reflexivity|].
  unfold atLineStart, startState. cbn [lastChar]. unfold lastOf. rewrite foldl_app.
  simpl. exact Hch.
Qed.

(** Without a match of the import pattern, no import statement stands at
    the start of a line. *)
Lemma exec_importRegex_None content :
  exec importRegex 1 content = None ->
  forall pre statement post,
    content = pre ++ statement ++ post -> importStatement statement -> ~ opensLine pre.
Proof.
  unfold exec. destruct (scan importRegex 0 None content) as [[j z]|] eqn:Hscan; [done|].
  intros _ pre statement post E Hs Hpre.
  destruct (importStatement_reads_group statement (startState 0 None pre (statement ++ post))
              post Hs eq_refl) as (y & [Hy|Hline]).
  - exact (scan_None _ _ _ _ Hscan pre (statement ++ post) y E Hy).
  - rewrite (opensLine_atLineStart pre _ Hpre) in Hline. done.
Qed.

Lemma insertPolicyBlock_blockInserted template content :
  blockInserted template content (insertPolicyBlock template content).
Proof.
  unfold blockInserted. destruct (exec importRegex 1 content) as [m|] eqn:Hexec.
  - left. pose proof Hexec as Hm.
    apply exec_importRegex_Some in Hm as (pre & post & E & _ & Hrun & Hline & _).
    exists pre, (matched m), post. split; [exact E|]. split; [exact Hline|].
    split; [exact Hrun|]. unfold insertPolicyBlock, slice_to, slice_from. by rewrite Hexec.
  - right. split; [by apply exec_importRegex_None|by apply insertPolicyBlock_no_import].
Qed.

(** The text a full patch writes, told without the functions of the
    patcher: the block is put at a cut point of the original text, or in
    front of it, and the first call shape, if there is one, is rewritten. *)
Lemma patchedText_shape s content :
  exists block,
    blockInserted (policyTemplate s) content block /\
    (~ containsDefineConfigCall block /\ patchedText s content = block \/
     exists pre ws1 ws2 ws3 ws4 post,
       firstCallAt block pre ws1 ws2 ws3 ws4 post /\
       patchedText s content = pre ++ configReplacement (serverLiteral s) ++ post).
Proof.
  exists (insertPolicyBlock (policyTemplate s) content).
  split; [apply insertPolicyBlock_blockInserted|].
  unfold patchedText.
  destruct (test configRegex (insertPolicyBlock (policyTemplate s) content)) eqn:Htest.
  - right. apply test_configRegex, containsDefineConfigCall_first in Htest
      as (pre & ws1 & ws2 & ws3 & ws4 & post & Hfirst).
    exists pre, ws1, ws2, ws3, ws4, post. split; [exact Hfirst|].
    apply (insertServerHeaders_first_call _ _ _ _ _ _ _ _ Hfirst).
    destruct s; vm_compute; reflexivity.
  - left. assert (~ containsDefineConfigCall (insertPolicyBlock (policyTemplate s) content)) as H.
    { intros H. apply test_configRegex in H. congruence. }
    split; [exact H|]. by apply insertServerHeaders_without_call.
Qed.

(** The stored text holds the policy block. *)
Lemma stored_patchedText_holds_template s content :
  exists before after,
    toWellFormed (patchedText s content) = before ++ policyTemplate s ++ after.
Proof.
  destruct (patchedText_holds_template s content) as (a & b & ->).
  rewrite toWellFormed_middle; [eauto| |]; destruct s; vm_compute; [reflexivity|done..].
Qed.

(** C2.  On either surface, a full patch of a file without the marker
    performs the insertion: the text it writes is the original text with
    the policy block put in at the offset the import statements give, or
    in front when there is none at the start of a line, and with the
    first call shape, if there is one, rewritten to open with the headers
    literal; the file then holds that text as it reads after its encoding
    as UTF-8, with the policy block in it.  A second full patch, whenever
    it is run, finds the marker, stops with [AlreadyPatched] and changes
    nothing on disk. *)
Theorem full_patch_twice_is_noop s env env' (files : gmap string jsstring) p content :
  located s files = Some p -> files !! p = Some content ->
  isAlreadyPatched content = false ->
  backupsEnabled s && writeDenied env (backupName p (now env)) = false ->
  writeDenied env p = false ->
  let first := run (invoke (fullPatch s) env) files in
  let second := run (invoke (fullPatch s) env') (disk first.2) in
  first.1 = Patched /\
  disk first.2 !! p = Some (toWellFormed (patchedText s content)) /\
  (exists block patched,
     blockInserted (policyTemplate s) content block /\
     (~ containsDefineConfigCall block /\ patched = block \/
      exists pre ws1 ws2 ws3 ws4 post,
        firstCallAt block pre ws1 ws2 ws3 ws4 post /\
        patched = pre ++ configReplacement (serverLiteral s) ++ post) /\
     disk first.2 !! p = Some (toWellFormed patched)) /\
  (exists before after,
     disk first.2 !! p = Some (before ++ policyTemplate s ++ after)) /\
  second.1 = AlreadyPatched /\
  disk second.2 = disk first.2 /\
  fileEvents (trace second.2) = [].
Proof.
  intros Hloc Hp Hmark Hbackup Hwrite.
  pose proof (isAlreadyPatched_toWellFormed _ (patchedText_marked s content)) as Hnew.
  assert (let first := run (invoke (fullPatch s) env) files in
          let second := run (invoke (fullPatch s) env') (disk first.2) in
          first.1 = Patched /\
          disk first.2 !! p = Some (toWellFormed (patchedText s content)) /\
          second.1 = AlreadyPatched /\ disk second.2 = disk first.2 /\
          fileEvents (trace second.2) = []) as H.
  { destruct s as [|cfg]; cbn [located backupsEnabled fullPatch invoke andb] in *.
    - cbv zeta. rewrite !Cli_addCSPConfiguration_run.
      rewrite Hloc. cbn beta iota zeta. rewrite Hp. cbn beta iota. rewrite Hmark, Hbackup, Hwrite.
      cbn [fst snd disk trace].
      change (insertServerHeaders Cli.VITE_CONFIG_SERVER
                (insertPolicyBlock Cli.CSP_POLICY_CODE content))
        with (patchedText CommandLine content).
      destruct (Cli_locate_stable files p (now env) content
                  (toWellFormed (patchedText CommandLine content)) Hloc) as [Hloc' _].
      rewrite Hloc'. cbn beta iota zeta. rewrite lookup_insert_eq. cbn beta iota.
      rewrite Hnew. cbn [fst snd disk trace]. done.
    - cbv zeta. unfold run. rewrite !Extension_addCSPConfiguration_from.
      rewrite Hloc. cbn beta iota zeta. rewrite Hp. cbn beta iota. rewrite Hmark, Hbackup, Hwrite.
      cbn [fst snd disk trace].
      change (insertServerHeaders Extension.SERVER_CONFIG
                (insertPolicyBlock Extension.CSP_POLICY_TEMPLATE content))
        with (patchedText (Editor cfg) content).
      destruct (Extension_locate_stable cfg files p (now env) content
                  (toWellFormed (patchedText (Editor cfg) content)) Hloc)
        as (Hloc1 & _ & Hloc2).
      destruct (Extension.autoBackup cfg).
      + rewrite Hloc1. cbn beta iota zeta. rewrite lookup_insert_eq. cbn beta iota.
        rewrite Hnew. cbn [fst snd disk trace]. done.
      + rewrite Hloc2. cbn beta iota zeta. rewrite lookup_insert_eq. cbn beta iota.
        rewrite Hnew. cbn [fst snd disk trace]. done. }
  cbv zeta in H |- *. destruct H as (H1 & H2 & H3 & H4 & H5).
  split; [exact H1|]. split; [exact H2|]. split; [|split; [|by repeat split]].
  - destruct (patchedText_shape s content) as (block & Hblock & Hpatched).
    exists block, (patchedText s content). split; [exact Hblock|]. split; [|exact H2].
    destruct Hpatched as [[Hno E]|(pre & ws1 & ws2 & ws3 & ws4 & post & Hfirst & E)].
    + left. by split.
    + right. by exists pre, ws1, ws2, ws3, ws4, post.
  - destruct (stored_patchedText_holds_template s content) as (before & after & E).
    exists before, after. rewrite <- E. exact H2.
Qed.

Lemma full_patch_twice_is_noop_witness :
  let first := run (invoke (fullPatch CommandLine) someEnv) (cliDisk minimalConfig) in
  let second := run (invoke (fullPatch CommandLine) someEnv) (disk first.2) in
  first.1 = Patched /\
  disk first.2 !! "vite.config.js"%string
    = Some (toWellFormed (patchedText CommandLine minimalConfig)) /\
  (exists block patched,
     blockInserted (policyTemplate CommandLine) minimalConfig block /\
     (~ containsDefineConfigCall block /\ patched = block \/
      exists pre ws1 ws2 ws3 ws4 post,
        firstCallAt block pre ws1 ws2 ws3 ws4 post /\
        patched = pre ++ configReplacement (serverLiteral CommandLine) ++ post) /\
     disk first.2 !! "vite.config.js"%string = Some (toWellFormed patched)) /\
  (exists before after,
     disk first.2 !! "vite.config.js"%string
       = Some (before ++ policyTemplate CommandLine ++ after)) /\
  second.1 = AlreadyPatched /\
  disk second.2 = disk first.2 /\
  fileEvents (trace second.2) = [].
Proof.
  apply (full_patch_twice_is_noop CommandLine someEnv someEnv (cliDisk minimalConfig)
           "vite.config.js"%string minimalConfig); vm_compute; reflexivity.
Defined.
